(** * Gopher2600: the television signal interpreter and the TIA video cycle

    A shallow embedding of

    - [television.reference] (Signal, newFrame, newScanline, SetSpec, Reset,
      GetState, IsStable, Snapshot, RestoreSnapshot),
    - [television.HeadlessTV.RequestTVState],
    - [tia.TIA.StepVideoCycle],

    followed by the properties the specification states about them, and by
    a television with the figures of the NTSC and PAL standards on which the
    properties are run.

    Go values are modelled as the code has them: [int] is a 64-bit two's
    complement integer (a [Z] with the wrap-around written out), a pointer is a
    location in a store, a slice is a pointer to a backing array together with
    a length, and a function returning [error] is a computation in a small
    state-and-error monad whose state is the whole store: a Go function that
    returns early with an error keeps every assignment it has made so far. *)

From Stdlib Require Import ZArith Lia Bool String List.
From stdpp Require Import base gmap list strings.

Local Open Scope Z_scope.

(** ** Go's [int] *)

Module GoInt.

Definition min_int : Z := - 2 ^ 63.
Definition max_int : Z := 2 ^ 63 - 1.

(** The value a 64-bit signed register holds after computing [z]. *)
Definition wrap (z : Z) : Z := (z + 2 ^ 63) mod 2 ^ 64 - 2 ^ 63.

(** [x++] *)
Definition incr (x : Z) : Z := wrap (x + 1).

Definition sub (x y : Z) : Z := wrap (x - y).
Definition mul (x y : Z) : Z := wrap (x * y).

Definition in_range (z : Z) : Prop := min_int <= z <= max_int.

Lemma wrap_in_range z : in_range z -> wrap z = z.
Proof.
  unfold in_range, wrap, min_int, max_int. intros H.
  rewrite Z.mod_small; lia.
Qed.

Lemma wrap_range z : in_range (wrap z).
Proof.
  unfold in_range, wrap, min_int, max_int.
  pose proof (Z.mod_pos_bound (z + 2 ^ 63) (2 ^ 64)). lia.
Qed.

Lemma incr_small x : min_int <= x < max_int -> incr x = x + 1.
Proof.
  unfold incr. intros H. apply wrap_in_range.
  unfold in_range, min_int, max_int in *. lia.
Qed.

Lemma incr_range x : in_range (incr x).
Proof. apply wrap_range. Qed.

End GoInt.

(** ** The television *)

Module Television.
Import GoInt.

(** *** Constants of the reference television *)

Definition excessScanlinesNTSC : Z := 40.
Definition leadingFrames : Z := 5.
Definition stabilityThreshold : Z := 20.

(** *** Data *)

Definition ColorSignal := Z.

Record RGB := { R : Z; G : Z; B : Z }.

(** The fields of [Spec] that the television reads. The palette is reached
    through [getColor], the nominal frame rate only by the rate limiter. *)
Record Spec := {
  ID : string;
  ScanlinesTotal : Z;
  ScanlineTop : Z;
  ScanlineBottom : Z;
}.

Record SignalAttributes := {
  VSync : bool;
  VBlank : bool;
  CBurst : bool;
  HSync : bool;
  Pixel : ColorSignal;
  AudioUpdate : bool;
  AudioData : Z;
}.

(** [SignalAttributes{}] *)
Definition noSignal : SignalAttributes :=
  {| VSync := false; VBlank := false; CBurst := false; HSync := false;
     Pixel := 0; AudioUpdate := false; AudioData := 0 |}.

Record signalHistoryEntry := {
  x : Z;
  y : Z;
  sig : SignalAttributes;
}.

Definition noEntry : signalHistoryEntry := {| x := 0; y := 0; sig := noSignal |}.

(** A location of the store. *)
Definition loc := positive.

(** A backing array: its size and its cells. A cell that was never written
    holds the zero value of its type. *)
Record array := {
  size : Z;
  cells : gmap Z signalHistoryEntry;
}.

#[global] Instance array_inhabited : Inhabited array :=
  populate {| size := 0; cells := ∅ |}.

(** [a[i]] *)
Definition read (a : array) (i : Z) : signalHistoryEntry :=
  default noEntry (cells a !! i).

(** [a[i] = e] *)
Definition write (a : array) (i : Z) (e : signalHistoryEntry) : array :=
  {| size := size a; cells := <[i := e]> (cells a) |}.

(** A new array of [n] zero values. *)
Definition zeros (n : Z) : array := {| size := n; cells := ∅ |}.

(** [dst] with its first [n] cells overwritten by those of [src]. *)
Definition blit (n : Z) (src dst : array) : array :=
  {| size := size dst;
     cells := filter (fun kv => fst kv < n) (cells src)
              ∪ filter (fun kv => ¬ fst kv < n) (cells dst) |}.

(** A slice: the backing array it points into ([None] for the nil slice) and
    its length. The code never re-slices, so a slice always starts at the
    first cell of its backing array and its capacity is that array's size. *)
Record slice := {
  s_ptr : option loc;
  s_len : Z;
}.

Definition nilSlice : slice := {| s_ptr := None; s_len := 0 |}.

Record state := {
  spec : Spec;
  auto : bool;
  horizPos : Z;
  frameNum : Z;
  scanline : Z;
  syncedFrameNum : Z;
  syncedFrame : bool;
  lastSignal : SignalAttributes;
  vsyncCount : Z;
  top : Z;
  bottom : Z;
  signalHistory : slice;
  signalHistoryIdx : Z;
}.

(** [state{}] *)
Definition zeroState : state :=
  {| spec := {| ID := EmptyString; ScanlinesTotal := 0; ScanlineTop := 0; ScanlineBottom := 0 |};
     auto := false; horizPos := 0; frameNum := 0; scanline := 0;
     syncedFrameNum := 0; syncedFrame := false; lastSignal := noSignal;
     vsyncCount := 0; top := 0; bottom := 0;
     signalHistory := nilSlice; signalHistoryIdx := 0 |}.

#[global] Instance state_inhabited : Inhabited state := populate zeroState.

(** Assignments to one field of [*tv.state]. *)
Definition set_spec (v : Spec) (s : state) : state :=
  {| spec := v; auto := auto s; horizPos := horizPos s; frameNum := frameNum s;
     scanline := scanline s; syncedFrameNum := syncedFrameNum s;
     syncedFrame := syncedFrame s; lastSignal := lastSignal s;
     vsyncCount := vsyncCount s; top := top s; bottom := bottom s;
     signalHistory := signalHistory s; signalHistoryIdx := signalHistoryIdx s |}.
Definition set_auto (v : bool) (s : state) : state :=
  {| spec := spec s; auto := v; horizPos := horizPos s; frameNum := frameNum s;
     scanline := scanline s; syncedFrameNum := syncedFrameNum s;
     syncedFrame := syncedFrame s; lastSignal := lastSignal s;
     vsyncCount := vsyncCount s; top := top s; bottom := bottom s;
     signalHistory := signalHistory s; signalHistoryIdx := signalHistoryIdx s |}.
Definition set_horizPos (v : Z) (s : state) : state :=
  {| spec := spec s; auto := auto s; horizPos := v; frameNum := frameNum s;
     scanline := scanline s; syncedFrameNum := syncedFrameNum s;
     syncedFrame := syncedFrame s; lastSignal := lastSignal s;
     vsyncCount := vsyncCount s; top := top s; bottom := bottom s;
     signalHistory := signalHistory s; signalHistoryIdx := signalHistoryIdx s |}.
Definition set_frameNum (v : Z) (s : state) : state :=
  {| spec := spec s; auto := auto s; horizPos := horizPos s; frameNum := v;
     scanline := scanline s; syncedFrameNum := syncedFrameNum s;
     syncedFrame := syncedFrame s; lastSignal := lastSignal s;
     vsyncCount := vsyncCount s; top := top s; bottom := bottom s;
     signalHistory := signalHistory s; signalHistoryIdx := signalHistoryIdx s |}.
Definition set_scanline (v : Z) (s : state) : state :=
  {| spec := spec s; auto := auto s; horizPos := horizPos s; frameNum := frameNum s;
     scanline := v; syncedFrameNum := syncedFrameNum s;
     syncedFrame := syncedFrame s; lastSignal := lastSignal s;
     vsyncCount := vsyncCount s; top := top s; bottom := bottom s;
     signalHistory := signalHistory s; signalHistoryIdx := signalHistoryIdx s |}.
Definition set_syncedFrameNum (v : Z) (s : state) : state :=
  {| spec := spec s; auto := auto s; horizPos := horizPos s; frameNum := frameNum s;
     scanline := scanline s; syncedFrameNum := v;
     syncedFrame := syncedFrame s; lastSignal := lastSignal s;
     vsyncCount := vsyncCount s; top := top s; bottom := bottom s;
     signalHistory := signalHistory s; signalHistoryIdx := signalHistoryIdx s |}.
Definition set_syncedFrame (v : bool) (s : state) : state :=
  {| spec := spec s; auto := auto s; horizPos := horizPos s; frameNum := frameNum s;
     scanline := scanline s; syncedFrameNum := syncedFrameNum s;
     syncedFrame := v; lastSignal := lastSignal s;
     vsyncCount := vsyncCount s; top := top s; bottom := bottom s;
     signalHistory := signalHistory s; signalHistoryIdx := signalHistoryIdx s |}.
Definition set_lastSignal (v : SignalAttributes) (s : state) : state :=
  {| spec := spec s; auto := auto s; horizPos := horizPos s; frameNum := frameNum s;
     scanline := scanline s; syncedFrameNum := syncedFrameNum s;
     syncedFrame := syncedFrame s; lastSignal := v;
     vsyncCount := vsyncCount s; top := top s; bottom := bottom s;
     signalHistory := signalHistory s; signalHistoryIdx := signalHistoryIdx s |}.
Definition set_vsyncCount (v : Z) (s : state) : state :=
  {| spec := spec s; auto := auto s; horizPos := horizPos s; frameNum := frameNum s;
     scanline := scanline s; syncedFrameNum := syncedFrameNum s;
     syncedFrame := syncedFrame s; lastSignal := lastSignal s;
     vsyncCount := v; top := top s; bottom := bottom s;
     signalHistory := signalHistory s; signalHistoryIdx := signalHistoryIdx s |}.
Definition set_top (v : Z) (s : state) : state :=
  {| spec := spec s; auto := auto s; horizPos := horizPos s; frameNum := frameNum s;
     scanline := scanline s; syncedFrameNum := syncedFrameNum s;
     syncedFrame := syncedFrame s; lastSignal := lastSignal s;
     vsyncCount := vsyncCount s; top := v; bottom := bottom s;
     signalHistory := signalHistory s; signalHistoryIdx := signalHistoryIdx s |}.
Definition set_bottom (v : Z) (s : state) : state :=
  {| spec := spec s; auto := auto s; horizPos := horizPos s; frameNum := frameNum s;
     scanline := scanline s; syncedFrameNum := syncedFrameNum s;
     syncedFrame := syncedFrame s; lastSignal := lastSignal s;
     vsyncCount := vsyncCount s; top := top s; bottom := v;
     signalHistory := signalHistory s; signalHistoryIdx := signalHistoryIdx s |}.
Definition set_signalHistory (v : slice) (s : state) : state :=
  {| spec := spec s; auto := auto s; horizPos := horizPos s; frameNum := frameNum s;
     scanline := scanline s; syncedFrameNum := syncedFrameNum s;
     syncedFrame := syncedFrame s; lastSignal := lastSignal s;
     vsyncCount := vsyncCount s; top := top s; bottom := bottom s;
     signalHistory := v; signalHistoryIdx := signalHistoryIdx s |}.
Definition set_signalHistoryIdx (v : Z) (s : state) : state :=
  {| spec := spec s; auto := auto s; horizPos := horizPos s; frameNum := frameNum s;
     scanline := scanline s; syncedFrameNum := syncedFrameNum s;
     syncedFrame := syncedFrame s; lastSignal := lastSignal s;
     vsyncCount := vsyncCount s; top := top s; bottom := bottom s;
     signalHistory := signalHistory s; signalHistoryIdx := v |}.

(** *** Collaborators

    Renderers, refreshers, frame triggers and audio mixers are interface
    values registered with the television. A collaborator is identified by a
    number; every call the television makes on one is recorded, in order. *)

Inductive Call :=
| SetAudio (mixer : nat) (data : Z)
| Resize (renderer : nat) (sp : Spec) (topScanline visibleScanlines : Z)
| NewFrame (trigger : nat) (frame : Z) (stable : bool)
| NewScanline (renderer : nat) (line : Z)
| SetPixel (renderer : nat) (px py : Z) (col : RGB) (vblank : bool)
| Refresh (refresher : nat) (begin : bool)
| RefreshPixel (refresher : nat) (px py : Z) (col : RGB) (vblank : bool) (stale : bool).

Inductive error :=
| CollaboratorError (c : Call)
| UnsupportedSpec (requested : string)
| UnhandledRequest (request : Z).

(** How a Go call ends: it returns (a value, or a non-nil error), or panics. *)
Inductive outcome (A : Type) :=
| Ret (a : A)
| Err (e : error)
| Panic.
Arguments Ret {A} a.
Arguments Err {A} e.
Arguments Panic {A}.

(** *** What the television is linked against

    Declarations of the package that the television uses: the width of a
    scanline, the two specifications and their palettes, [strings.ToUpper],
    the resizer, the answers of the collaborators, and the capacity the
    runtime picks when [append] has to reallocate. *)
Class Env := {
  HorizClksScanline : Z;
  HorizClksHBlank : Z;
  SpecNTSC : Spec;
  SpecPAL : Spec;
  getColor : Spec -> ColorSignal -> RGB;
  ToUpper : string -> string;
  (** Modelled from the spec: the resizer (section 4.6) is an interface of
      three methods, [examine], [commit] and [prepare], whose implementation
      is not among the sources. It keeps candidate bounds of its own, apart
      from the main state machine, and touches the television only through
      the detected [top] and [bottom]; a commit may notify the renderers with
      a resize. [Resizer] is its private state. *)
  Resizer : Type;
  simpleResizer : Resizer;
  rz_examine : Resizer -> state -> SignalAttributes -> Resizer * (Z * Z);
  rz_commit : Resizer -> state -> Resizer * (Z * Z) * bool;
  rz_prepare : Resizer -> state -> Resizer * (Z * Z);
  (** Whether a call on a collaborator returns a non-nil error, given the
      calls made so far. *)
  fails : list Call -> Call -> bool;
  (** Spare cells of a backing array that [append] allocates for a full
      slice of the given length. *)
  spare : Z -> nat;
}.

(** The television and the store it lives in. [tv_state] is the pointer
    [tv.state]; [states] holds every [state] object allocated so far, the live
    one and the snapshots; [arrays] holds the backing arrays of their
    signal histories. *)
Record machine `{Env} := {
  reqSpecID : string;
  resizer : Resizer;
  renderers : list nat;
  refreshers : list nat;
  frameTriggers : list nat;
  mixers : list nat;
  tv_state : loc;
  states : gmap loc state;
  arrays : gmap loc array;
  calls : list Call;
}.

Section Monad.
Context `{E : Env}.

Definition M (A : Type) : Type := machine -> machine * outcome A.

Definition ret {A} (a : A) : M A := fun m => (m, Ret a).

Definition bind {A B} (c : M A) (k : A -> M B) : M B :=
  fun m =>
    match c m with
    | (m', Ret a) => k a m'
    | (m', Err e) => (m', Err e)
    | (m', Panic) => (m', Panic)
    end.

(** [return err] *)
Definition fail {A} (e : error) : M A := fun m => (m, Err e).

Definition panic {A} : M A := fun m => (m, Panic).

(** [_ = f()]: the returned error is dropped. *)
Definition discard (c : M unit) : M unit :=
  fun m =>
    match c m with
    | (m', Err _) => (m', Ret tt)
    | r => r
    end.

End Monad.

Declare Scope go_scope.
Delimit Scope go_scope with go.
Notation "v <- c ;; k" := (bind c (fun v => k))
  (at level 100, c at next level, right associativity) : go_scope.
Notation "c ;; k" := (bind c (fun _ => k))
  (at level 100, right associativity) : go_scope.

Section Store.
Context `{E : Env}.
Local Open Scope go_scope.

(** Assignments to one component of the machine. *)
Definition set_resizer (v : Resizer) (m : machine) : machine :=
  {| reqSpecID := reqSpecID m; resizer := v; renderers := renderers m;
     refreshers := refreshers m; frameTriggers := frameTriggers m;
     mixers := mixers m; tv_state := tv_state m; states := states m;
     arrays := arrays m; calls := calls m |}.
Definition set_renderers (v : list nat) (m : machine) : machine :=
  {| reqSpecID := reqSpecID m; resizer := resizer m; renderers := v;
     refreshers := refreshers m; frameTriggers := frameTriggers m;
     mixers := mixers m; tv_state := tv_state m; states := states m;
     arrays := arrays m; calls := calls m |}.
Definition set_refreshers (v : list nat) (m : machine) : machine :=
  {| reqSpecID := reqSpecID m; resizer := resizer m; renderers := renderers m;
     refreshers := v; frameTriggers := frameTriggers m;
     mixers := mixers m; tv_state := tv_state m; states := states m;
     arrays := arrays m; calls := calls m |}.
Definition set_frameTriggers (v : list nat) (m : machine) : machine :=
  {| reqSpecID := reqSpecID m; resizer := resizer m; renderers := renderers m;
     refreshers := refreshers m; frameTriggers := v;
     mixers := mixers m; tv_state := tv_state m; states := states m;
     arrays := arrays m; calls := calls m |}.
Definition set_mixers (v : list nat) (m : machine) : machine :=
  {| reqSpecID := reqSpecID m; resizer := resizer m; renderers := renderers m;
     refreshers := refreshers m; frameTriggers := frameTriggers m;
     mixers := v; tv_state := tv_state m; states := states m;
     arrays := arrays m; calls := calls m |}.
Definition set_tv_state (v : loc) (m : machine) : machine :=
  {| reqSpecID := reqSpecID m; resizer := resizer m; renderers := renderers m;
     refreshers := refreshers m; frameTriggers := frameTriggers m;
     mixers := mixers m; tv_state := v; states := states m;
     arrays := arrays m; calls := calls m |}.
Definition set_states (v : gmap loc state) (m : machine) : machine :=
  {| reqSpecID := reqSpecID m; resizer := resizer m; renderers := renderers m;
     refreshers := refreshers m; frameTriggers := frameTriggers m;
     mixers := mixers m; tv_state := tv_state m; states := v;
     arrays := arrays m; calls := calls m |}.
Definition set_arrays (v : gmap loc array) (m : machine) : machine :=
  {| reqSpecID := reqSpecID m; resizer := resizer m; renderers := renderers m;
     refreshers := refreshers m; frameTriggers := frameTriggers m;
     mixers := mixers m; tv_state := tv_state m; states := states m;
     arrays := v; calls := calls m |}.
Definition set_calls (v : list Call) (m : machine) : machine :=
  {| reqSpecID := reqSpecID m; resizer := resizer m; renderers := renderers m;
     refreshers := refreshers m; frameTriggers := frameTriggers m;
     mixers := mixers m; tv_state := tv_state m; states := states m;
     arrays := arrays m; calls := v |}.

(** [*tv.state] *)
Definition live (m : machine) : state := states m !!! tv_state m.

(** The store after an assignment through the pointer [tv.state]. *)
Definition upd (f : state -> state) (m : machine) : machine :=
  set_states (<[tv_state m := f (live m)]> (states m)) m.

(** The machine after calls on collaborators. *)
Definition emit (cs : list Call) (m : machine) : machine :=
  set_calls (calls m ++ cs) m.

(** The store after the allocation of a backing array, at the next free
    location, and after an assignment to the array at [p]. *)
Definition alloc (a : array) (m : machine) : machine :=
  set_arrays (<[fresh (dom (arrays m)) := a]> (arrays m)) m.

Definition poke (p : loc) (a : array) (m : machine) : machine :=
  set_arrays (<[p := a]> (arrays m)) m.

(** Read [tv.state.f]. *)
Definition gets {A} (f : state -> A) : M A := fun m => (m, Ret (f (live m))).

(** Read a field of [tv] itself. *)
Definition reads {A} (f : machine -> A) : M A := fun m => (m, Ret (f m)).

(** Assign to [tv.state.f]. *)
Definition modify (f : state -> state) : M unit :=
  fun m => (upd f m, Ret tt).

(** A call on a collaborator that returns an [error]. *)
Definition call (c : Call) : M unit :=
  fun m => (emit [c] m,
            if fails (calls m) c then Err (CollaboratorError c) else Ret tt).

(** A call on a collaborator that returns nothing. *)
Definition notify (c : Call) : M unit :=
  fun m => (emit [c] m, Ret tt).

(** [for _, i := range l { err := body(i); if err != nil { return err } }] *)
Fixpoint forEach {A} (l : list A) (body : A -> M unit) : M unit :=
  match l with
  | [] => ret tt
  | i :: l' => body i ;; forEach l' body
  end.

(** *** Slices *)

(** The backing array of a slice. *)
Definition backing (m : machine) (s : slice) : array :=
  match s_ptr s with
  | Some p => arrays m !!! p
  | None => zeros 0
  end.

(** The elements a slice holds, in order. *)
Definition contents (m : machine) (s : slice) : list signalHistoryEntry :=
  read (backing m s) <$> seqZ 0 (s_len s).

(** [len(s)] *)
Definition len (s : slice) : Z := s_len s.

(** [make([]signalHistoryEntry, n)]; a negative length panics. *)
Definition make (n : Z) : M slice :=
  fun m =>
    if n <? 0 then (m, Panic)
    else (alloc (zeros n) m, Ret {| s_ptr := Some (fresh (dom (arrays m))); s_len := n |}).

(** [copy(dst, src)] *)
Definition copy (dst src : slice) : M unit :=
  fun m =>
    match s_ptr dst with
    | None => (m, Ret tt)
    | Some p =>
      let n := Z.min (len dst) (len src) in
      (poke p (blit n (backing m src) (backing m dst)) m, Ret tt)
    end.

(** [append(s, e)]: in place when the backing array has a spare cell, into a
    new and larger array otherwise. *)
Definition append (s : slice) (e : signalHistoryEntry) : M slice :=
  fun m =>
    match s_ptr s with
    | Some p =>
      if len s <? size (backing m s) then
        (poke p (write (backing m s) (len s) e) m,
         Ret {| s_ptr := Some p; s_len := len s + 1 |})
      else
        let a := blit (len s) (backing m s) (zeros (len s + 1 + Z.of_nat (spare (len s)))) in
        (alloc (write a (len s) e) m,
         Ret {| s_ptr := Some (fresh (dom (arrays m))); s_len := len s + 1 |})
    | None =>
      (alloc (write (zeros (1 + Z.of_nat (spare 0))) 0 e) m,
       Ret {| s_ptr := Some (fresh (dom (arrays m))); s_len := 1 |})
    end.

(** [s[i] = e]; an index out of range panics. *)
Definition store (s : slice) (i : Z) (e : signalHistoryEntry) : M unit :=
  fun m =>
    match s_ptr s with
    | Some p =>
      if (0 <=? i) && (i <? len s) then (poke p (write (backing m s) i e) m, Ret tt)
      else (m, Panic)
    | None => (m, Panic)
    end.

(** [tv.state.signalHistory = c] *)
Definition assignHistory (c : M slice) : M unit :=
  h <- c ;;
  modify (set_signalHistory h).

(** Lines 352-356 of Signal: the entry goes to the history at the write
    cursor, by [append] when the cursor is at or beyond the end. *)
Definition writeHistory (i : Z) (e : signalHistoryEntry) : M unit :=
  h <- gets signalHistory ;;
  if len h <=? i then assignHistory (append h e)
  else store h i e.

(** [&n]: a new [state] object holding [n]. *)
Definition new (n : state) : M loc :=
  fun m =>
    let p := fresh (dom (states m)) in
    (set_states (<[p := n]> (states m)) m, Ret p).

End Store.

Section Reference.
Context `{E : Env}.
Local Open Scope go_scope.

(** *** The resizer, as the television calls it *)

(** What the resizer is shown of the television: everything but the signal
    history. *)
Definition scalars (s : state) : state := set_signalHistory nilSlice s.

Definition set_bounds (tb : Z * Z) (s : state) : state :=
  set_bottom (snd tb) (set_top (fst tb) s).

(** [tv.resizer.examine(tv, sig)] *)
Definition examine (sg : SignalAttributes) : M unit :=
  r <- reads resizer ;;
  s <- gets scalars ;;
  let '(r', tb) := rz_examine r s sg in
  (fun m => (set_resizer r' m, Ret tt)) ;;
  modify (set_bounds tb).

(** [tv.resizer.prepare(tv)] *)
Definition prepare : M unit :=
  r <- reads resizer ;;
  s <- gets scalars ;;
  let '(r', tb) := rz_prepare r s in
  (fun m => (set_resizer r' m, Ret tt)) ;;
  modify (set_bounds tb).

(** [tv.resizer.commit(tv)]: the committed bounds are stored and, when the
    resizer says so, every renderer is told to resize; the first error a
    renderer returns is returned. *)
Definition commit : M unit :=
  r <- reads resizer ;;
  s <- gets scalars ;;
  let '(r', tb, resize) := rz_commit r s in
  (fun m => (set_resizer r' m, Ret tt)) ;;
  modify (set_bounds tb) ;;
  if resize : bool then
    rs <- reads renderers ;;
    forEach rs (fun f =>
      sp <- gets spec ;;
      t <- gets top ;;
      b <- gets bottom ;;
      call (Resize f sp t (sub b t)))
  else ret tt.

(** *** SetSpec (lines 440-472) *)

Definition SetSpec (requested : string) : M unit :=
  (let id := ToUpper requested in
   if String.eqb id "NTSC"%string then
     modify (set_spec SpecNTSC) ;; modify (set_auto false)
   else if String.eqb id "PAL"%string then
     modify (set_spec SpecPAL) ;; modify (set_auto false)
   else if String.eqb id "AUTO"%string then
     modify (set_spec SpecNTSC) ;; modify (set_auto true)
   else
     fail (UnsupportedSpec requested)) ;;
  modify (fun s => set_top (ScanlineTop (spec s)) s) ;;
  modify (fun s => set_bottom (ScanlineBottom (spec s)) s) ;;
  prepare ;;
  rs <- reads renderers ;;
  forEach rs (fun f =>
    sp <- gets spec ;;
    t <- gets top ;;
    b <- gets bottom ;;
    call (Resize f sp t (sub b t))) ;;
  (* allocate enough memory for a TV screen that stays within the limits of
     the specification *)
  t <- gets top ;;
  b <- gets bottom ;;
  assignHistory (make (mul HorizClksScanline (sub b t))) ;;
  modify (set_signalHistoryIdx 0).

(** *** IsStable (lines 416-418) *)

Definition IsStable : M bool :=
  n <- gets syncedFrameNum ;;
  ret (stabilityThreshold <=? n).

(** *** newScanline (lines 362-371) *)

Definition newScanline : M unit :=
  rs <- reads renderers ;;
  forEach rs (fun f =>
    sl <- gets scanline ;;
    call (NewScanline f sl)).

(** *** newFrame (lines 373-413) *)

Definition newFrame (synced : bool) : M unit :=
  (* a synced frame is one which was generated from a valid VSYNC/VBLANK sequence *)
  sf <- gets syncedFrame ;;
  (if sf : bool then modify (fun s => set_syncedFrameNum (incr (syncedFrameNum s)) s)
   else ret tt) ;;
  (* specification change *)
  n <- gets syncedFrameNum ;;
  (if (leadingFrames <? n) && (n <? stabilityThreshold) then
     au <- gets auto ;;
     sf <- gets syncedFrame ;;
     sl <- gets scanline ;;
     if au && negb sf && (excessScanlinesNTSC <? sl) then
       (* flip from NTSC to PAL *)
       sp <- gets spec ;;
       if String.eqb (ID sp) (ID SpecNTSC) then discard (SetSpec "PAL"%string)
       else ret tt
     else ret tt
   else ret tt) ;;
  (* commit any resizing that maybe pending *)
  commit ;;
  (* prepare for next frame *)
  modify (fun s => set_frameNum (incr (frameNum s)) s) ;;
  modify (set_scanline 0) ;;
  prepare ;;
  modify (set_syncedFrame synced) ;;
  (* process all FrameTriggers *)
  fts <- reads frameTriggers ;;
  forEach fts (fun f =>
    fn <- gets frameNum ;;
    stable <- IsStable ;;
    call (NewFrame f fn stable)) ;;
  (* reset signal history for next frame *)
  modify (set_signalHistoryIdx 0).

(** *** Signal (lines 254-360), block by block *)

(** Lines 255-263: mix audio before anything else. *)
Definition mixAudio (sg : SignalAttributes) : M unit :=
  if AudioUpdate sg then
    ms <- reads mixers ;;
    forEach ms (fun f => call (SetAudio f (AudioData sg)))
  else ret tt.

(** Lines 268-298: a Signal is a new color clock. The rate limiter's
    [checkRate], called once per scanline, only sleeps and measures and is
    not part of the model. *)
Definition colorClock : M unit :=
  modify (fun s => set_horizPos (incr (horizPos s)) s) ;;
  hp <- gets horizPos ;;
  if HorizClksScanline <=? hp then
    modify (set_horizPos 0) ;;
    (* bump scanline counter *)
    modify (fun s => set_scanline (incr (scanline s)) s) ;;
    sl <- gets scanline ;;
    sp <- gets spec ;;
    (* reached end of screen without synchronisation. fly-back naturally. *)
    if ScanlinesTotal sp <? sl then newFrame false
    else newScanline
  else ret tt.

(** Lines 300-312: the vsync signal at the time of the flyback. *)
Definition checkVSync (sg : SignalAttributes) : M unit :=
  last <- gets lastSignal ;;
  if VSync sg && negb (VSync last) then
    modify (set_vsyncCount 0)
  else if negb (VSync sg) && VSync last then
    vc <- gets vsyncCount ;;
    if 0 <? vc then newFrame true else ret tt
  else ret tt.

(** Lines 314-329: the real flyback signal. *)
Definition checkHSync (sg : SignalAttributes) : M unit :=
  last <- gets lastSignal ;;
  (if HSync sg && negb (HSync last) then
     modify (set_horizPos 16) ;;
     (* count vsync lines at start of hsync *)
     if VSync sg || VSync last then
       modify (fun s => set_vsyncCount (incr (vsyncCount s)) s)
     else ret tt
   else ret tt) ;;
  if negb (HSync sg) && HSync last then modify (set_horizPos 36)
  else ret tt.

(** Lines 333-341: decode the color and tell every renderer. *)
Definition setPixels (sg : SignalAttributes) : M unit :=
  sp <- gets spec ;;
  let col := getColor sp (Pixel sg) in
  rs <- reads renderers ;;
  forEach rs (fun f =>
    hp <- gets horizPos ;;
    sl <- gets scanline ;;
    call (SetPixel f hp sl col (VBlank sg))).

(** Lines 343-357: remember the signal and write it to the history. *)
Definition recordSignal (sg : SignalAttributes) : M unit :=
  modify (set_lastSignal sg) ;;
  hp <- gets horizPos ;;
  sl <- gets scanline ;;
  let e := {| x := hp; y := sl; sig := sg |} in
  i <- gets signalHistoryIdx ;;
  writeHistory i e ;;
  modify (fun s => set_signalHistoryIdx (incr (signalHistoryIdx s)) s).

Definition Signal (sg : SignalAttributes) : M unit :=
  mixAudio sg ;;
  (* examine signal for resizing possibility *)
  examine sg ;;
  colorClock ;;
  checkVSync sg ;;
  checkHSync sg ;;
  (* doing nothing with CBURST signal *)
  setPixels sg ;;
  recordSignal sg.

(** The chip delivers one signal per color clock and stops at the first call
    that does not return nil. *)
Fixpoint run (sgs : list SignalAttributes) : M unit :=
  match sgs with
  | [] => ret tt
  | sg :: rest => Signal sg ;; run rest
  end.

(** *** GetState (lines 426-437) *)

Definition ReqFramenum : Z := 0.
Definition ReqScanline : Z := 1.
Definition ReqHorizPos : Z := 2.

(** Go returns the pair (value, error). *)
Definition GetState (request : Z) (m : machine) : machine * (Z * option error) :=
  if request =? ReqFramenum then (m, (frameNum (live m), None))
  else if request =? ReqScanline then (m, (scanline (live m), None))
  else if request =? ReqHorizPos then (m, (sub (horizPos (live m)) HorizClksHBlank, None))
  else (m, (0, Some (UnhandledRequest request))).

(** *** Reset (lines 217-234) *)

Definition Reset : M unit :=
  id <- reads reqSpecID ;;
  SetSpec id ;;
  modify (set_horizPos 0) ;;
  modify (set_frameNum 0) ;;
  modify (set_scanline 0) ;;
  modify (set_syncedFrameNum 0) ;;
  modify (set_vsyncCount 0) ;;
  modify (set_lastSignal noSignal).

(** *** NewReference (lines 134-155)

    The new television with its [&state{}], in a store of its own. When
    SetSpec fails Go returns no television at all; here the outcome is the
    error. Initialising the rate limiter is not part of the model. *)
Definition NewReference (requested : string) : machine * outcome unit :=
  let p : loc := fresh (∅ : gset loc) in
  let tv :=
    {| reqSpecID := ToUpper requested; resizer := simpleResizer;
       renderers := []; refreshers := []; frameTriggers := []; mixers := [];
       tv_state := p; states := {[ p := zeroState ]}; arrays := ∅; calls := [] |} in
  (SetSpec requested ;;
   (* empty list of renderers *)
   (fun m => (set_renderers [] m, Ret tt))) tv.

(** *** Registration (lines 195-214) *)

Definition AddPixelRenderer (r : nat) (m : machine) : machine :=
  set_frameTriggers (frameTriggers m ++ [r]) (set_renderers (renderers m ++ [r]) m).

Definition AddPixelRefresher (r : nat) (m : machine) : machine :=
  set_refreshers (refreshers m ++ [r]) m.

Definition AddFrameTrigger (f : nat) (m : machine) : machine :=
  set_frameTriggers (frameTriggers m ++ [f]) m.

Definition AddAudioMixer (a : nat) (m : machine) : machine :=
  set_mixers (mixers m ++ [a]) m.

(** *** Snapshot and RestoreSnapshot (lines 163-193)

    A [TelevisionState] is an interface value: nil, or a pointer to a
    [state]. *)
Definition TelevisionState := option loc.

Definition Snapshot : M TelevisionState :=
  (* n := *tv.state *)
  n <- gets (fun s => s) ;;
  h <- make (len (signalHistory n)) ;;
  copy h (signalHistory n) ;;
  (* return &n *)
  p <- new (set_signalHistory h n) ;;
  ret (Some p).

(** [for i, e := range h { body(i, e) }], from index [i]. *)
Fixpoint forRange {A} (i : Z) (l : list A) (body : Z -> A -> M unit) : M unit :=
  match l with
  | [] => ret tt
  | e :: l' => body i e ;; forRange (i + 1) l' body
  end.

Definition RestoreSnapshot (s : TelevisionState) : M unit :=
  match s with
  | None => ret tt
  | Some p =>
    (fun m => (set_tv_state p m, Ret tt)) ;;
    rs <- reads refreshers ;;
    forEach rs (fun r => notify (Refresh r true)) ;;
    h <- gets signalHistory ;;
    es <- reads (fun m => contents m h) ;;
    forRange 0 es (fun i e =>
      sp <- gets spec ;;
      let col := getColor sp (Pixel (sig e)) in
      rs <- reads refreshers ;;
      forEach rs (fun r =>
        idx <- gets signalHistoryIdx ;;
        notify (RefreshPixel r (x e) (y e) col (VBlank (sig e)) (idx <=? i)))) ;;
    rs <- reads refreshers ;;
    forEach rs (fun r => notify (Refresh r false))
  end.

End Reference.

(** ** The headless television (television.HeadlessTV)

    The fields of a [HeadlessTV] that are plain data, and RequestTVState. The
    type [TVStateReq] of the requests and its three constants are declared
    outside the sources at hand: any type with a decidable equality and any
    three values of it will do. [HorizPos], [FrameNum] and [Scanline] are
    pointers to [TVState] objects. *)

Module Headless.

Record HeadlessTV := {
  outOfSpec : bool;
  HorizPos : loc;
  FrameNum : loc;
  Scanline : loc;
  vsyncCount : Z;
  VBlankOff : Z;
  VBlankOn : Z;
}.

Section Requests.
Context {TVStateReq : Type} `{EqDecision TVStateReq}.
Variables ReqFramenum ReqScanline ReqHorizPos : TVStateReq.

(** [errors.NewGopherError(errors.UnknownTVRequest, request)] *)
Inductive GopherError :=
| UnknownTVRequest (request : TVStateReq).

(** RequestTVState (lines 258-269). Go returns the pair
    (pointer, error); the pointer is nil when the request is not one of the
    three. The receiver is not assigned to. *)
Definition RequestTVState (request : TVStateReq) (tv : HeadlessTV) :
    HeadlessTV * (option loc * option GopherError) :=
  if decide (request = ReqFramenum) then (tv, (Some (FrameNum tv), None))
  else if decide (request = ReqScanline) then (tv, (Some (Scanline tv), None))
  else if decide (request = ReqHorizPos) then (tv, (Some (HorizPos tv), None))
  else (tv, (None, Some (UnknownTVRequest request))).

End Requests.

End Headless.

(** ** Reasoning about computations *)

Section Logic.
Context `{E : Env}.
Local Open Scope go_scope.

Lemma live_upd f m : live (upd f m) = f (live m).
Proof. unfold live, upd. simpl. apply lookup_total_insert_eq. Qed.

Lemma live_emit cs m : live (emit cs m) = live m.
Proof. reflexivity. Qed.

Lemma live_set_resizer r m : live (set_resizer r m) = live m.
Proof. reflexivity. Qed.

Lemma live_set_arrays a m : live (set_arrays a m) = live m.
Proof. reflexivity. Qed.

Lemma emit_nil m : emit [] m = m.
Proof. destruct m. unfold emit, set_calls. simpl. by rewrite app_nil_r. Qed.

Lemma emit_emit cs1 cs2 m : emit cs2 (emit cs1 m) = emit (cs1 ++ cs2) m.
Proof. unfold emit, set_calls. simpl. by rewrite app_assoc. Qed.

(** [wp c m Q]: running [c] from [m] ends in a machine and an outcome that
    satisfy [Q]. *)
Definition wp {A} (c : M A) (m : machine) (Q : machine -> outcome A -> Prop) : Prop :=
  Q (fst (c m)) (snd (c m)).

Lemma wp_run {A} (c : M A) m m' o Q : wp c m Q -> c m = (m', o) -> Q m' o.
Proof. unfold wp. intros H Hc. by rewrite Hc in H. Qed.

Lemma wp_conseq {A} (c : M A) m (P Q : machine -> outcome A -> Prop) :
  wp c m P -> (forall m' o, P m' o -> Q m' o) -> wp c m Q.
Proof. unfold wp. auto. Qed.

Lemma wp_ret {A} (a : A) m Q : Q m (Ret a) -> wp (ret a) m Q.
Proof. done. Qed.

Lemma wp_fail {A} e m (Q : machine -> outcome A -> Prop) : Q m (Err e) -> wp (fail e) m Q.
Proof. done. Qed.

Lemma wp_bind {A B} (c : M A) (k : A -> M B) m Q :
  wp c m (fun m' o =>
    match o with
    | Ret a => wp (k a) m' Q
    | Err e => Q m' (Err e)
    | Panic => Q m' Panic
    end) ->
  wp (bind c k) m Q.
Proof. unfold wp, bind. by destruct (c m) as [m' [a|e|]]. Qed.

Lemma wp_discard (c : M unit) m Q :
  wp c m (fun m' o => Q m' (match o with Err _ => Ret tt | _ => o end)) ->
  wp (discard c) m Q.
Proof. unfold wp, discard. by destruct (c m) as [m' [a|e|]]. Qed.

Lemma wp_gets {A} (f : state -> A) m Q : Q m (Ret (f (live m))) -> wp (gets f) m Q.
Proof. done. Qed.

Lemma wp_reads {A} (f : machine -> A) m Q : Q m (Ret (f m)) -> wp (reads f) m Q.
Proof. done. Qed.

Lemma wp_modify f m Q : Q (upd f m) (Ret tt) -> wp (modify f) m Q.
Proof. done. Qed.

Lemma wp_set_resizer r m (Q : machine -> outcome unit -> Prop) :
  Q (set_resizer r m) (Ret tt) -> wp (fun m => (set_resizer r m, Ret tt)) m Q.
Proof. done. Qed.

Lemma wp_call c m Q :
  Q (emit [c] m) (if fails (calls m) c then Err (CollaboratorError c) else Ret tt) ->
  wp (call c) m Q.
Proof. done. Qed.

Lemma wp_notify c m Q : Q (emit [c] m) (Ret tt) -> wp (notify c) m Q.
Proof. done. Qed.

Lemma live_alloc a m : live (alloc a m) = live m.
Proof. reflexivity. Qed.

Lemma live_poke p a m : live (poke p a m) = live m.
Proof. reflexivity. Qed.

Lemma wp_make n m Q :
  (if n <? 0 then Q m Panic
   else Q (alloc (zeros n) m) (Ret {| s_ptr := Some (fresh (dom (arrays m))); s_len := n |})) ->
  wp (make n) m Q.
Proof. unfold wp, make. by destruct (n <? 0). Qed.

Lemma wp_append h e m Q :
  (match s_ptr h with
   | Some p =>
     if len h <? size (backing m h) then
       Q (poke p (write (backing m h) (len h) e) m) (Ret {| s_ptr := Some p; s_len := len h + 1 |})
     else
       Q (alloc (write (blit (len h) (backing m h)
                          (zeros (len h + 1 + Z.of_nat (spare (len h))))) (len h) e) m)
         (Ret {| s_ptr := Some (fresh (dom (arrays m))); s_len := len h + 1 |})
   | None =>
     Q (alloc (write (zeros (1 + Z.of_nat (spare 0))) 0 e) m)
       (Ret {| s_ptr := Some (fresh (dom (arrays m))); s_len := 1 |})
   end) ->
  wp (append h e) m Q.
Proof.
  unfold wp, append. destruct (s_ptr h); [|done].
  by destruct (len h <? size (backing m h)).
Qed.

Lemma wp_store h i e m Q :
  (match s_ptr h with
   | Some p =>
     if (0 <=? i) && (i <? len h) then Q (poke p (write (backing m h) i e) m) (Ret tt)
     else Q m Panic
   | None => Q m Panic
   end) ->
  wp (store h i e) m Q.
Proof.
  unfold wp, store. destruct (s_ptr h); [|done].
  by destruct ((0 <=? i) && (i <? len h)).
Qed.

(** A computation that only calls collaborators, with calls that satisfy
    [P]. *)
Definition emits {A} (P : Call -> Prop) (c : M A) : Prop :=
  forall m, exists cs, fst (c m) = emit cs m /\ Forall P cs.

Definition emits_only {A} (c : M A) : Prop := emits (fun _ => True) c.

Lemma emits_only_wp {A} (c : M A) m Q :
  emits_only c -> (forall cs o, Q (emit cs m) o) -> wp c m Q.
Proof. unfold wp. intros Hc HQ. destruct (Hc m) as (cs & -> & _). apply HQ. Qed.

Section Emits.
Context (P : Call -> Prop).

Lemma emits_ret {A} (a : A) : emits P (ret a).
Proof. intros m. exists []. by rewrite emit_nil. Qed.

Lemma emits_call c : P c -> emits P (call c).
Proof. intros Hc m. exists [c]. split; [ done | by constructor ]. Qed.

Lemma emits_notify c : P c -> emits P (notify c).
Proof. intros Hc m. exists [c]. split; [ done | by constructor ]. Qed.

Lemma emits_gets {A} (f : state -> A) : emits P (gets f).
Proof. intros m. exists []. by rewrite emit_nil. Qed.

Lemma emits_reads {A} (f : machine -> A) : emits P (reads f).
Proof. intros m. exists []. by rewrite emit_nil. Qed.

Lemma emits_bind {A B} (c : M A) (k : A -> M B) :
  emits P c -> (forall a, emits P (k a)) -> emits P (bind c k).
Proof.
  intros Hc Hk m. unfold bind. destruct (Hc m) as (cs & Hcs & HP).
  destruct (c m) as [m1 [a|e|]]; simpl in Hcs; subst m1; try by exists cs.
  destruct (Hk a (emit cs m)) as (cs' & Hcs' & HP'). exists (cs ++ cs').
  split; [ by rewrite Hcs', emit_emit | by apply Forall_app ].
Qed.

Lemma emits_forEach {A} (l : list A) (body : A -> M unit) :
  (forall i, emits P (body i)) -> emits P (forEach l body).
Proof.
  intros Hb. induction l as [|i l IH]; simpl.
  - apply emits_ret.
  - apply emits_bind; auto.
Qed.

Lemma emits_forRange {A} (l : list A) (body : Z -> A -> M unit) i :
  (forall j e, emits P (body j e)) -> emits P (forRange i l body).
Proof.
  intros Hb. revert i. induction l as [|e l IH]; intros i; simpl.
  - apply emits_ret.
  - apply emits_bind; auto.
Qed.

Lemma emits_if {A} (b : bool) (c1 c2 : M A) :
  emits P c1 -> emits P c2 -> emits P (if b then c1 else c2).
Proof. by destruct b. Qed.

End Emits.

End Logic.

Create HintDb emits.
#[global] Hint Resolve emits_ret emits_gets emits_reads emits_if : emits.
#[global] Hint Extern 2 (emits _ (call _)) => apply emits_call : emits.
#[global] Hint Extern 2 (emits _ (notify _)) => apply emits_notify : emits.
#[global] Hint Extern 2 (emits _ (bind _ _)) =>
  apply emits_bind; [ | intros ? ] : emits.
#[global] Hint Extern 2 (emits _ (forEach _ _)) =>
  apply emits_forEach; intros ? : emits.
#[global] Hint Extern 2 (emits _ (forRange _ _ _)) =>
  apply emits_forRange; intros ? ? : emits.
#[global] Hint Extern 1 (emits_only _) => unfold emits_only : emits.

(** The analysis of a computation, one statement at a time. *)
Ltac simp_state :=
  cbn [spec auto horizPos frameNum scanline syncedFrameNum syncedFrame lastSignal
       vsyncCount top bottom signalHistory signalHistoryIdx
       set_spec set_auto set_horizPos set_frameNum set_scanline set_syncedFrameNum
       set_syncedFrame set_lastSignal set_vsyncCount set_top set_bottom
       set_signalHistory set_signalHistoryIdx set_bounds scalars fst snd].

Ltac simp_state_all :=
  cbn [spec auto horizPos frameNum scanline syncedFrameNum syncedFrame lastSignal
       vsyncCount top bottom signalHistory signalHistoryIdx
       set_spec set_auto set_horizPos set_frameNum set_scanline set_syncedFrameNum
       set_syncedFrame set_lastSignal set_vsyncCount set_top set_bottom
       set_signalHistory set_signalHistoryIdx set_bounds scalars fst snd] in *.

Ltac simp_mach :=
  repeat first
    [ rewrite live_upd | rewrite live_emit | rewrite live_set_resizer
    | rewrite live_alloc | rewrite live_poke ];
  simp_state.

Ltac simp_mach_in H :=
  repeat first
    [ rewrite live_upd in H | rewrite live_emit in H | rewrite live_set_resizer in H
    | rewrite live_alloc in H | rewrite live_poke in H ];
  cbn [spec auto horizPos frameNum scanline syncedFrameNum syncedFrame lastSignal
       vsyncCount top bottom signalHistory signalHistoryIdx
       set_spec set_auto set_horizPos set_frameNum set_scanline set_syncedFrameNum
       set_syncedFrame set_lastSignal set_vsyncCount set_top set_bottom
       set_signalHistory set_signalHistoryIdx set_bounds scalars fst snd] in H.

Ltac wp_step :=
  lazymatch goal with
  | |- wp (bind _ _) _ _ => apply wp_bind
  | |- wp (ret _) _ _ => apply wp_ret
  | |- wp (gets _) _ _ => apply wp_gets
  | |- wp (reads _) _ _ => apply wp_reads
  | |- wp (modify _) _ _ => apply wp_modify
  | |- wp (call _) _ _ => apply wp_call
  | |- wp (notify _) _ _ => apply wp_notify
  | |- wp (fail _) _ _ => apply wp_fail
  | |- wp (discard _) _ _ => apply wp_discard
  | |- wp (make _) _ _ => apply wp_make
  | |- wp (append _ _) _ _ => apply wp_append
  | |- wp (store _ _ _) _ _ => apply wp_store
  | |- wp (fun m => (set_resizer _ m, Ret tt)) _ _ => apply wp_set_resizer
  | |- wp (forEach _ _) _ _ =>
      apply emits_only_wp; [ solve [ eauto 20 with emits ] | intros ? [[]| |] ]
  | |- wp (if _ then _ else _) _ _ =>
      simp_mach;
      lazymatch goal with |- wp (if ?b then _ else _) _ _ => destruct b eqn:? end
  | |- wp (let '(_, _) := ?p in _) _ _ => destruct p as [? ?] eqn:?
  | |- wp (match ?p with (_, _) => _ end) _ _ => destruct p as [? ?] eqn:?
  | |- (if _ then _ else _) =>
      simp_mach;
      lazymatch goal with |- (if ?b then _ else _) => destruct b eqn:? end
  | |- match ?o with Some _ => _ | None => _ end => destruct o eqn:?
  end; cbv beta iota.

(** Rewrite with the branch conditions, the latest first. *)
Ltac use_conditions :=
  repeat match goal with
  | H : ?b = ?v |- context [?b] =>
    lazymatch v with true => idtac | false => idtac end; rewrite H
  end.

(** Turn the branch conditions of the code into propositions. *)
Ltac bool_facts :=
  repeat match goal with
  | H : _ && _ = true |- _ => apply andb_true_iff in H; destruct H
  | H : _ || _ = false |- _ => apply orb_false_iff in H; destruct H
  | H : negb _ = true |- _ => apply negb_true_iff in H
  | H : negb _ = false |- _ => apply negb_false_iff in H
  | H : (_ <? _) = true |- _ => apply Z.ltb_lt in H
  | H : (_ <? _) = false |- _ => apply Z.ltb_ge in H
  | H : (_ <=? _) = true |- _ => apply Z.leb_le in H
  | H : (_ <=? _) = false |- _ => apply Z.leb_gt in H
  | H : String.eqb _ _ = true |- _ => apply String.eqb_eq in H
  end.

(** ** What a successful call does to the coordinates *)

Class EnvOk (E : Env) : Prop := {
  scanline_clocks : 36 < HorizClksScanline <= max_int;
  ntsc_lines : 0 <= ScanlinesTotal SpecNTSC < max_int;
  pal_lines : 0 <= ScanlinesTotal SpecPAL < max_int;
  upper_PAL : ToUpper "PAL" = "PAL"%string;
}.

Section Effects.
Context `{E : Env}.
Local Open Scope go_scope.

(** A state without its bounds and its history: the part that does not depend
    on the resizer or on where the history is stored. *)
Definition core (s : state) : state :=
  set_signalHistory nilSlice (set_bottom 0 (set_top 0 s)).

(** A newFrame that returns nil, as a function on the state. *)
Definition newFrameEffect (synced : bool) (s : state) : state :=
  let s1 := if syncedFrame s then set_syncedFrameNum (incr (syncedFrameNum s)) s else s in
  let n := syncedFrameNum s1 in
  let s2 :=
    if (leadingFrames <? n) && (n <? stabilityThreshold)
       && (auto s1 && negb (syncedFrame s1) && (excessScanlinesNTSC <? scanline s1))
       && String.eqb (ID (spec s1)) (ID SpecNTSC)
    then set_auto false (set_spec SpecPAL s1)
    else s1 in
  set_signalHistoryIdx 0
    (set_syncedFrame synced (set_scanline 0 (set_frameNum (incr (frameNum s2)) s2))).

Definition colorClockEffect (s : state) : state :=
  let s1 := set_horizPos (incr (horizPos s)) s in
  if HorizClksScanline <=? horizPos s1 then
    let s2 := set_scanline (incr (scanline s1)) (set_horizPos 0 s1) in
    if ScanlinesTotal (spec s2) <? scanline s2 then newFrameEffect false s2 else s2
  else s1.

Definition checkVSyncEffect (sg : SignalAttributes) (s : state) : state :=
  if VSync sg && negb (VSync (lastSignal s)) then set_vsyncCount 0 s
  else if negb (VSync sg) && VSync (lastSignal s) then
    if 0 <? vsyncCount s then newFrameEffect true s else s
  else s.

Definition checkHSyncEffect (sg : SignalAttributes) (s : state) : state :=
  let s1 :=
    if HSync sg && negb (HSync (lastSignal s)) then
      let s' := set_horizPos 16 s in
      if VSync sg || VSync (lastSignal s) then set_vsyncCount (incr (vsyncCount s')) s'
      else s'
    else s in
  if negb (HSync sg) && HSync (lastSignal s) then set_horizPos 36 s1 else s1.

Definition recordSignalEffect (sg : SignalAttributes) (s : state) : state :=
  set_signalHistoryIdx (incr (signalHistoryIdx s)) (set_lastSignal sg s).

Definition SignalEffect (sg : SignalAttributes) (s : state) : state :=
  recordSignalEffect sg (checkHSyncEffect sg (checkVSyncEffect sg (colorClockEffect s))).

Lemma core_fields s s' :
  core s = core s' ->
  spec s = spec s' /\ auto s = auto s' /\ horizPos s = horizPos s' /\
  frameNum s = frameNum s' /\ scanline s = scanline s' /\
  syncedFrameNum s = syncedFrameNum s' /\ syncedFrame s = syncedFrame s' /\
  lastSignal s = lastSignal s' /\ vsyncCount s = vsyncCount s' /\
  signalHistoryIdx s = signalHistoryIdx s'.
Proof.
  destruct s, s'. unfold core. simpl.
  intros [= -> -> -> -> -> -> -> -> -> ->]. tauto.
Qed.

Lemma core_intro s s' :
  spec s = spec s' -> auto s = auto s' -> horizPos s = horizPos s' ->
  frameNum s = frameNum s' -> scanline s = scanline s' ->
  syncedFrameNum s = syncedFrameNum s' -> syncedFrame s = syncedFrame s' ->
  lastSignal s = lastSignal s' -> vsyncCount s = vsyncCount s' ->
  signalHistoryIdx s = signalHistoryIdx s' -> core s = core s'.
Proof. destruct s, s'. unfold core. simpl. by intros -> -> -> -> -> -> -> -> -> ->. Qed.

(** What SetSpec leaves alone. *)
Definition scalar_frame (s s' : state) : Prop :=
  horizPos s' = horizPos s /\ frameNum s' = frameNum s /\ scanline s' = scanline s /\
  syncedFrameNum s' = syncedFrameNum s /\ syncedFrame s' = syncedFrame s /\
  lastSignal s' = lastSignal s /\ vsyncCount s' = vsyncCount s.

Lemma SetSpec_PAL_post `{!EnvOk E} m :
  wp (SetSpec "PAL") m (fun m' o =>
    spec (live m') = SpecPAL /\ auto (live m') = false /\
    scalar_frame (live m) (live m') /\
    (o = Ret tt -> signalHistoryIdx (live m') = 0)).
Proof.
  unfold SetSpec. rewrite upper_PAL. cbn [String.eqb Ascii.eqb Bool.eqb andb].
  unfold prepare, assignHistory, scalar_frame.
  repeat wp_step.
  all: simp_mach; repeat split; try done.
Qed.

(** newFrame: the specification, the auto flag, the synced-frame counter and
    the fields it never assigns are settled whatever the outcome; the rest
    when it returns nil. *)
Lemma newFrame_post `{!EnvOk E} synced m :
  wp (newFrame synced) m (fun m' o =>
    let s' := newFrameEffect synced (live m) in
    spec (live m') = spec s' /\ auto (live m') = auto s' /\
    syncedFrameNum (live m') = syncedFrameNum s' /\
    horizPos (live m') = horizPos (live m) /\
    lastSignal (live m') = lastSignal (live m) /\
    vsyncCount (live m') = vsyncCount (live m) /\
    (o = Ret tt -> core (live m') = core s')).
Proof.
  unfold newFrame, commit, prepare, IsStable.
  repeat first
    [ wp_step
    | eapply wp_conseq;
      [ apply SetSpec_PAL_post
      | intros ? [[]| |] (Hs & Ha & (Hh & Hf & Hl & Hn & Hy & Hg & Hv) & Hi);
        simp_mach_in Hh; simp_mach_in Hf; simp_mach_in Hl; simp_mach_in Hn;
        simp_mach_in Hy; simp_mach_in Hg; simp_mach_in Hv ] ].
  all: cbv zeta; unfold newFrameEffect; simp_mach; use_conditions; simp_state;
    use_conditions; cbn [andb negb]; simp_state.
  all: repeat split; try congruence.
  all: intros ?; first [ discriminate | apply core_intro; simp_state; congruence ].
Qed.

Lemma core_set_bounds tb s : core (set_bounds tb s) = core s.
Proof. reflexivity. Qed.

Lemma core_set_signalHistory h s : core (set_signalHistory h s) = core s.
Proof. reflexivity. Qed.

Lemma core_congr (F : state -> state) a b :
  (forall s, core (F s) = core (F (core s))) ->
  core a = core b -> core (F a) = core (F b).
Proof. intros HF Hab. by rewrite (HF a), (HF b), Hab. Qed.

Ltac core_insensitive F :=
  let s := fresh "s" in
  intros s; destruct s; unfold F, core; cbv zeta; cbn;
  repeat (case_match; cbn in * ); first [ reflexivity | congruence ].

Lemma newFrameEffect_core synced s :
  core (newFrameEffect synced s) = core (newFrameEffect synced (core s)).
Proof. revert s. core_insensitive newFrameEffect. Qed.

Lemma colorClockEffect_core s :
  core (colorClockEffect s) = core (colorClockEffect (core s)).
Proof.
  unfold colorClockEffect. cbv zeta. simp_state.
  replace (horizPos (core s)) with (horizPos s) by by destruct s.
  replace (scanline (core s)) with (scanline s) by by destruct s.
  replace (spec (core s)) with (spec s) by by destruct s.
  repeat case_match; try by destruct s.
  rewrite newFrameEffect_core. symmetry. rewrite newFrameEffect_core.
  by destruct s.
Qed.

Lemma checkVSyncEffect_core sg s :
  core (checkVSyncEffect sg s) = core (checkVSyncEffect sg (core s)).
Proof.
  unfold checkVSyncEffect.
  replace (lastSignal (core s)) with (lastSignal s) by by destruct s.
  replace (vsyncCount (core s)) with (vsyncCount s) by by destruct s.
  repeat case_match; try by destruct s.
  apply newFrameEffect_core.
Qed.

Lemma checkHSyncEffect_core sg s :
  core (checkHSyncEffect sg s) = core (checkHSyncEffect sg (core s)).
Proof. revert s. core_insensitive checkHSyncEffect. Qed.

Lemma recordSignalEffect_core sg s :
  core (recordSignalEffect sg s) = core (recordSignalEffect sg (core s)).
Proof. revert s. core_insensitive recordSignalEffect. Qed.

(** *** The blocks of Signal *)

Lemma mixAudio_post sg m :
  wp (mixAudio sg) m (fun m' o => live m' = live m).
Proof.
  apply emits_only_wp; [ unfold mixAudio; eauto 20 with emits | done ].
Qed.

Lemma examine_post sg m :
  wp (examine sg) m (fun m' o => o = Ret tt /\ exists tb, live m' = set_bounds tb (live m)).
Proof.
  unfold examine. repeat wp_step. split; [done|]. eexists. by simp_mach.
Qed.

Lemma newScanline_post m :
  wp newScanline m (fun m' o => live m' = live m).
Proof.
  apply emits_only_wp; [ unfold newScanline; eauto 20 with emits | done ].
Qed.

Lemma setPixels_post sg m :
  wp (setPixels sg) m (fun m' o => live m' = live m).
Proof.
  apply emits_only_wp; [ unfold setPixels; eauto 20 with emits | done ].
Qed.

Lemma colorClock_post `{!EnvOk E} m :
  wp colorClock m (fun m' o =>
    o = Ret tt -> core (live m') = core (colorClockEffect (live m))).
Proof.
  unfold colorClock.
  repeat first
    [ wp_step
    | eapply wp_conseq; [ apply newFrame_post | intros ? ? (_ & _ & _ & _ & _ & _ & Hc) ]
    | eapply wp_conseq; [ apply newScanline_post | intros ? ? Hc ] ].
  all: intros Ho; unfold colorClockEffect; cbv zeta; simp_mach; use_conditions;
    simp_state; use_conditions; try done.
  - rewrite (Hc Ho). by simp_mach.
  - rewrite Hc. by simp_mach.
Qed.

Lemma checkVSync_post `{!EnvOk E} sg m :
  wp (checkVSync sg) m (fun m' o =>
    o = Ret tt -> core (live m') = core (checkVSyncEffect sg (live m))).
Proof.
  unfold checkVSync.
  repeat first
    [ wp_step
    | eapply wp_conseq; [ apply newFrame_post | intros ? ? (_ & _ & _ & _ & _ & _ & Hc) ] ].
  all: intros Ho; unfold checkVSyncEffect; simp_mach; use_conditions; try done.
  by rewrite (Hc Ho).
Qed.

Lemma checkHSync_post sg m :
  wp (checkHSync sg) m (fun m' o =>
    o = Ret tt /\ live m' = checkHSyncEffect sg (live m)).
Proof.
  unfold checkHSync. repeat wp_step.
  all: split; [done|]; unfold checkHSyncEffect; cbv zeta; simp_mach; use_conditions;
    simp_state; by use_conditions.
Qed.

Lemma recordSignal_post sg m :
  wp (recordSignal sg) m (fun m' o =>
    o = Ret tt -> core (live m') = core (recordSignalEffect sg (live m))).
Proof.
  unfold recordSignal, writeHistory, assignHistory. repeat wp_step.
  all: intros Ho; try discriminate; unfold recordSignalEffect; by simp_mach.
Qed.

(** A Signal that returns nil moves the coordinates as [SignalEffect] says. *)
Lemma Signal_post `{!EnvOk E} sg m :
  wp (Signal sg) m (fun m' o =>
    o = Ret tt -> core (live m') = core (SignalEffect sg (live m))).
Proof.
  unfold Signal.
  wp_step. eapply wp_conseq; [ apply mixAudio_post | intros m1 [[]| |] H1; try done ].
  wp_step. eapply wp_conseq; [ apply examine_post | intros m2 [[]| |] [_ [tb H2]]; try done ].
  wp_step. eapply wp_conseq; [ apply colorClock_post | intros m3 [[]| |] H3; try done ].
  wp_step. eapply wp_conseq; [ apply checkVSync_post | intros m4 [[]| |] H4; try done ].
  wp_step. eapply wp_conseq; [ apply checkHSync_post | intros m5 [[]| |] [_ H5]; try done ].
  wp_step. eapply wp_conseq; [ apply setPixels_post | intros m6 [[]| |] H6; try done ].
  eapply wp_conseq; [ apply recordSignal_post | intros m7 o H7 Ho ].
  rewrite (H7 Ho), H6, H5. unfold SignalEffect.
  apply (core_congr (recordSignalEffect sg)); [ apply recordSignalEffect_core | ].
  apply (core_congr (checkHSyncEffect sg)); [ apply checkHSyncEffect_core | ].
  rewrite (H4 eq_refl).
  apply (core_congr (checkVSyncEffect sg)); [ apply checkVSyncEffect_core | ].
  rewrite (H3 eq_refl).
  apply (core_congr colorClockEffect); [ apply colorClockEffect_core | ].
  by rewrite H2, H1.
Qed.

Lemma Signal_ok `{!EnvOk E} sg m m' :
  Signal sg m = (m', Ret tt) -> core (live m') = core (SignalEffect sg (live m)).
Proof. intros H. by apply (wp_run _ _ _ _ _ (Signal_post sg m) H). Qed.

(** *** SetSpec, Reset and NewReference *)

Lemma SetSpec_post requested m :
  wp (SetSpec requested) m (fun m' o =>
    match o with
    | Ret _ =>
      (spec (live m') = SpecNTSC \/ spec (live m') = SpecPAL) /\
      scalar_frame (live m) (live m') /\ signalHistoryIdx (live m') = 0
    | _ => True
    end).
Proof.
  unfold SetSpec, prepare, assignHistory, scalar_frame.
  repeat wp_step.
  all: try exact I.
  all: simp_mach; repeat split; auto.
Qed.

Lemma Reset_post m :
  wp Reset m (fun m' o =>
    o = Ret tt ->
    (spec (live m') = SpecNTSC \/ spec (live m') = SpecPAL) /\
    horizPos (live m') = 0 /\ frameNum (live m') = 0 /\ scanline (live m') = 0 /\
    syncedFrameNum (live m') = 0 /\ vsyncCount (live m') = 0 /\
    lastSignal (live m') = noSignal).
Proof.
  unfold Reset.
  repeat first
    [ wp_step
    | eapply wp_conseq; [ apply SetSpec_post | intros ? [[]| |] Hs ] ].
  all: try discriminate.
  intros _. destruct Hs as (Hs & _). by simp_mach.
Qed.

Lemma NewReference_post requested m' :
  NewReference requested = (m', Ret tt) ->
  (spec (live m') = SpecNTSC \/ spec (live m') = SpecPAL) /\
  horizPos (live m') = 0 /\ frameNum (live m') = 0 /\ scanline (live m') = 0 /\
  syncedFrameNum (live m') = 0 /\ vsyncCount (live m') = 0 /\
  lastSignal (live m') = noSignal /\ syncedFrame (live m') = false.
Proof.
  unfold NewReference. set (tv0 := Build_machine _ _ _ _ _ _ _ _ _ _ _).
  intros H.
  assert (Hz : live tv0 = zeroState) by apply lookup_total_singleton_eq.
  refine (wp_run _ _ _ _ (fun m' o => o = Ret tt -> _) _ H eq_refl).
  wp_step. eapply wp_conseq; [ apply SetSpec_post | intros m1 [[]| |] Hs; try done ].
  destruct Hs as (Hs & (? & ? & ? & ? & ? & ? & ?) & _).
  unfold wp. cbn [fst snd]. intros _.
  change (live (set_renderers [] m1)) with (live m1).
  rewrite Hz in *. simpl in *. tauto.
Qed.

End Effects.

(** ** The store: what a computation of the television may touch

    [S] is a set of [state] objects and [A] a set of backing arrays that the
    live television does not point to. A computation is isolating when it
    leaves them as they are, and leaves the television apart from them. *)

Section Isolation.
Context `{E : Env}.
Variables (S A : gset loc).

Definition apart (m : machine) : Prop :=
  (tv_state m ∉ S) /\
  (forall a, s_ptr (signalHistory (live m)) = Some a -> a ∉ A) /\
  A ⊆ dom (arrays m).

Definition untouched (m m' : machine) : Prop :=
  (forall p, p ∈ S -> states m' !! p = states m !! p) /\
  (forall a, a ∈ A -> arrays m' !! a = arrays m !! a).

Definition stepok (m m' : machine) : Prop :=
  apart m -> apart m' /\ untouched m m'.

Definition isolating {X} (c : M X) : Prop := forall m, stepok m (fst (c m)).

Lemma stepok_refl m : stepok m m.
Proof. intros H. split; [ done | by split ]. Qed.

Lemma stepok_trans m1 m2 m3 : stepok m1 m2 -> stepok m2 m3 -> stepok m1 m3.
Proof.
  intros H12 H23 H1. destruct (H12 H1) as [H2 [Us Ua]].
  destruct (H23 H2) as [H3 [Us' Ua']]. split; [ done | ].
  split; intros; [ rewrite Us' | rewrite Ua' ]; auto.
Qed.

Lemma stepok_emit cs m : stepok m (emit cs m).
Proof. intros H. split; [ done | by split ]. Qed.

Lemma stepok_set_resizer r m : stepok m (set_resizer r m).
Proof. intros H. split; [ done | by split ]. Qed.

Lemma stepok_upd f m :
  signalHistory (f (live m)) = signalHistory (live m) -> stepok m (upd f m).
Proof.
  intros Hf (Ht & Hp & Hd). refine (conj (conj _ (conj _ _)) (conj _ _)); try done.
  - intros a. rewrite live_upd, Hf. apply Hp.
  - intros p Hin. unfold upd. simpl. apply lookup_insert_ne. congruence.
Qed.

Lemma stepok_alloc_assign a n f m :
  signalHistory (f (live m)) = {| s_ptr := Some (fresh (dom (arrays m))); s_len := n |} ->
  stepok m (upd f (alloc a m)).
Proof.
  intros Hf (Ht & Hp & Hd).
  pose proof (is_fresh (dom (arrays m))) as Hfresh.
  refine (conj (conj _ (conj _ _)) (conj _ _)); try done.
  - intros b. rewrite live_upd, live_alloc, Hf. simpl. intros [= <-]. set_solver.
  - unfold upd, alloc. simpl. rewrite dom_insert_L. set_solver.
  - intros p Hin. unfold upd. simpl. apply lookup_insert_ne. 
    change (tv_state (alloc a m)) with (tv_state m). congruence.
  - intros b Hin. unfold upd, alloc. simpl. apply lookup_insert_ne. set_solver.
Qed.

Lemma stepok_poke p a m :
  s_ptr (signalHistory (live m)) = Some p -> stepok m (poke p a m).
Proof.
  intros Hl (Ht & Hp & Hd). refine (conj (conj _ (conj _ _)) (conj _ _)); try done.
  - unfold poke. simpl. rewrite dom_insert_L. set_solver.
  - intros b Hin. unfold poke. simpl. apply lookup_insert_ne.
    specialize (Hp p Hl). congruence.
Qed.

Lemma stepok_poke_assign p a n f m :
  s_ptr (signalHistory (live m)) = Some p ->
  signalHistory (f (live m)) = {| s_ptr := Some p; s_len := n |} ->
  stepok m (upd f (poke p a m)).
Proof.
  intros Hl Hf. eapply stepok_trans; [ by apply stepok_poke | ].
  intros (Ht & Hp & Hd). refine (conj (conj _ (conj _ _)) (conj _ _)); try done.
  - intros b. rewrite live_upd, live_poke, Hf. simpl. intros [= <-]. by apply Hp.
  - exact Hd.
  - intros q Hin. unfold upd. simpl. apply lookup_insert_ne.
    unfold poke in Ht. simpl in Ht. congruence.
Qed.

Lemma isolating_ret {X} (a : X) : isolating (ret a).
Proof. intros m. apply stepok_refl. Qed.

Lemma isolating_fail {X} e : isolating (fail e : M X).
Proof. intros m. apply stepok_refl. Qed.

Lemma isolating_gets {X} (f : state -> X) : isolating (gets f).
Proof. intros m. apply stepok_refl. Qed.

Lemma isolating_reads {X} (f : machine -> X) : isolating (reads f).
Proof. intros m. apply stepok_refl. Qed.

Lemma isolating_bind {X Y} (c : M X) (k : X -> M Y) :
  isolating c -> (forall a, isolating (k a)) -> isolating (bind c k).
Proof.
  intros Hc Hk m. unfold bind. specialize (Hc m).
  destruct (c m) as [m1 [a|e|]]; try done.
  eapply stepok_trans; [ exact Hc | apply Hk ].
Qed.

Lemma isolating_discard c : isolating c -> isolating (discard c).
Proof. intros Hc m. unfold discard. specialize (Hc m). by destruct (c m) as [m1 [a|e|]]. Qed.

Lemma isolating_modify f :
  (forall s, signalHistory (f s) = signalHistory s) -> isolating (modify f).
Proof. intros Hf m. by apply stepok_upd. Qed.

Lemma isolating_emits {X} P (c : M X) : emits P c -> isolating c.
Proof. intros Hc m. destruct (Hc m) as (cs & -> & _). apply stepok_emit. Qed.

Lemma isolating_set_resizer r : isolating (fun m => (set_resizer r m, Ret tt)).
Proof. intros m. apply stepok_set_resizer. Qed.

Lemma isolating_if {X} (b : bool) (c1 c2 : M X) :
  isolating c1 -> isolating c2 -> isolating (if b then c1 else c2).
Proof. by destruct b. Qed.

Lemma isolating_make n : isolating (assignHistory (make n)).
Proof.
  intros m. unfold assignHistory, bind, make, modify.
  destruct (n <? 0); [ apply stepok_refl | ].
  by eapply stepok_alloc_assign.
Qed.

Lemma isolating_write i e : isolating (writeHistory i e).
Proof.
  intros m. unfold writeHistory, assignHistory, bind, gets.
  destruct (len (signalHistory (live m)) <=? i).
  - unfold append, modify.
    destruct (s_ptr (signalHistory (live m))) as [p|] eqn:Hp.
    + destruct (len (signalHistory (live m)) <? _).
      * by eapply (stepok_poke_assign p).
      * by eapply stepok_alloc_assign.
    + by eapply stepok_alloc_assign.
  - unfold store.
    destruct (s_ptr (signalHistory (live m))) as [p|] eqn:Hp; [ | apply stepok_refl ].
    destruct ((0 <=? i) && _); [ | apply stepok_refl ].
    by apply stepok_poke.
Qed.

Ltac iso_step :=
  lazymatch goal with
  | |- isolating (assignHistory (make _)) => apply isolating_make
  | |- isolating (writeHistory _ _) => apply isolating_write
  | |- isolating (bind _ _) => apply isolating_bind; [ | intros ? ]
  | |- isolating (ret _) => apply isolating_ret
  | |- isolating (fail _) => apply isolating_fail
  | |- isolating (gets _) => apply isolating_gets
  | |- isolating (reads _) => apply isolating_reads
  | |- isolating (discard _) => apply isolating_discard
  | |- isolating (fun m => (set_resizer _ m, Ret tt)) => apply isolating_set_resizer
  | |- isolating (modify _) => apply isolating_modify; reflexivity
  | |- isolating (forEach _ _) =>
      apply (isolating_emits (fun _ => True)); solve [ eauto 20 with emits ]
  | |- isolating (let '(_, _) := ?p in _) => destruct p as [? ?]
  | |- isolating (match ?p with (_, _) => _ end) => destruct p as [? ?]
  | |- isolating (if ?b then _ else _) => destruct b
  end.

Lemma isolating_SetSpec requested : isolating (SetSpec requested).
Proof. unfold SetSpec, prepare. repeat iso_step. Qed.

Lemma isolating_newFrame synced : isolating (newFrame synced).
Proof.
  unfold newFrame, commit, prepare, IsStable.
  repeat first [ iso_step | apply isolating_SetSpec ].
Qed.

Lemma isolating_Signal sg : isolating (Signal sg).
Proof.
  unfold Signal, mixAudio, examine, colorClock, checkVSync, checkHSync, setPixels,
    recordSignal, newScanline.
  repeat first [ iso_step | apply isolating_newFrame ].
Qed.

Lemma isolating_run sgs : isolating (run sgs).
Proof.
  induction sgs as [|sg sgs IH]; simpl.
  - apply isolating_ret.
  - apply isolating_bind; [ apply isolating_Signal | intros _; apply IH ].
Qed.

Lemma isolating_Reset : isolating Reset.
Proof. unfold Reset. repeat first [ iso_step | apply isolating_SetSpec ]. Qed.

End Isolation.

(** ** Well-formed stores *)

Section WellFormed.
Context `{E : Env}.

(** The pointers of the live television point into the store. *)
Definition wf (m : machine) : Prop :=
  tv_state m ∈ dom (states m) /\
  0 <= s_len (signalHistory (live m)) /\
  match s_ptr (signalHistory (live m)) with
  | Some q => q ∈ dom (arrays m)
  | None => s_len (signalHistory (live m)) = 0
  end.

Definition keeps {X} (c : M X) : Prop := forall m, wf m -> wf (fst (c m)).

Lemma wf_upd f m :
  signalHistory (f (live m)) = signalHistory (live m) -> wf m -> wf (upd f m).
Proof.
  intros Hf (Ht & Hl & Hp). unfold wf. rewrite live_upd, Hf.
  split; [ | done ]. unfold upd. simpl. rewrite dom_insert_L. set_solver.
Qed.

Lemma wf_assign p n a m :
  0 <= n -> wf m -> wf (upd (set_signalHistory {| s_ptr := Some p; s_len := n |}) (poke p a m)).
Proof.
  intros Hn (Ht & Hl & Hp). unfold wf. rewrite live_upd, live_poke.
  cbn [signalHistory set_signalHistory s_ptr s_len].
  unfold upd, poke. simpl. rewrite !dom_insert_L. repeat split; [ | done | ]; set_solver.
Qed.

Lemma wf_poke p a m : s_ptr (signalHistory (live m)) = Some p -> wf m -> wf (poke p a m).
Proof.
  intros Hs (Ht & Hl & Hp). unfold wf. rewrite live_poke.
  split; [ done | ]. split; [ done | ].
  rewrite Hs in *. unfold poke. simpl. rewrite dom_insert_L. set_solver.
Qed.

Lemma keeps_ret {X} (a : X) : keeps (ret a).
Proof. by intros m. Qed.

Lemma keeps_fail {X} e : keeps (fail e : M X).
Proof. by intros m. Qed.

Lemma keeps_gets {X} (f : state -> X) : keeps (gets f).
Proof. by intros m. Qed.

Lemma keeps_reads {X} (f : machine -> X) : keeps (reads f).
Proof. by intros m. Qed.

Lemma keeps_bind {X Y} (c : M X) (k : X -> M Y) :
  keeps c -> (forall a, keeps (k a)) -> keeps (bind c k).
Proof.
  intros Hc Hk m H. unfold bind. specialize (Hc m H).
  destruct (c m) as [m1 [a|e|]]; try done. by apply Hk.
Qed.

Lemma keeps_discard c : keeps c -> keeps (discard c).
Proof.
  intros Hc m H. unfold discard. specialize (Hc m H). by destruct (c m) as [m1 [a|e|]].
Qed.

Lemma keeps_modify f :
  (forall s, signalHistory (f s) = signalHistory s) -> keeps (modify f).
Proof. intros Hf m. by apply wf_upd. Qed.

Lemma keeps_emits {X} P (c : M X) : emits P c -> keeps c.
Proof. intros Hc m H. by destruct (Hc m) as (cs & -> & _). Qed.

Lemma keeps_set_resizer r : keeps (fun m => (set_resizer r m, Ret tt)).
Proof. by intros m. Qed.

Lemma keeps_make n : keeps (assignHistory (make n)).
Proof.
  intros m H. unfold assignHistory, bind, make, modify.
  destruct (n <? 0) eqn:Hn; [ done | ]. apply Z.ltb_ge in Hn.
  by apply (wf_assign _ _ _ m).
Qed.

Lemma keeps_write i e : keeps (writeHistory i e).
Proof.
  intros m H. unfold writeHistory, assignHistory, bind, gets.
  pose proof H as (_ & Hl & _). unfold len.
  destruct (s_len (signalHistory (live m)) <=? i).
  - unfold append, modify, len.
    destruct (s_ptr (signalHistory (live m))) as [p|] eqn:Hp.
    + destruct (s_len (signalHistory (live m)) <? _);
        apply (wf_assign _ _ _ m); (lia || done).
    + by apply (wf_assign _ _ _ m).
  - unfold store, len.
    destruct (s_ptr (signalHistory (live m))) as [p|] eqn:Hp; [ | done ].
    destruct ((0 <=? i) && _); [ | done ].
    by apply wf_poke.
Qed.

Ltac keeps_step :=
  lazymatch goal with
  | |- keeps (assignHistory (make _)) => apply keeps_make
  | |- keeps (writeHistory _ _) => apply keeps_write
  | |- keeps (bind _ _) => apply keeps_bind; [ | intros ? ]
  | |- keeps (ret _) => apply keeps_ret
  | |- keeps (fail _) => apply keeps_fail
  | |- keeps (gets _) => apply keeps_gets
  | |- keeps (reads _) => apply keeps_reads
  | |- keeps (discard _) => apply keeps_discard
  | |- keeps (fun m => (set_resizer _ m, Ret tt)) => apply keeps_set_resizer
  | |- keeps (modify _) => apply keeps_modify; reflexivity
  | |- keeps (forEach _ _) =>
      apply (keeps_emits (fun _ => True)); solve [ eauto 20 with emits ]
  | |- keeps (let '(_, _) := ?p in _) => destruct p as [? ?]
  | |- keeps (match ?p with (_, _) => _ end) => destruct p as [? ?]
  | |- keeps (if ?b then _ else _) => destruct b
  end.

Lemma keeps_SetSpec requested : keeps (SetSpec requested).
Proof. unfold SetSpec, prepare. repeat keeps_step. Qed.

Lemma keeps_newFrame synced : keeps (newFrame synced).
Proof.
  unfold newFrame, commit, prepare, IsStable.
  repeat first [ keeps_step | apply keeps_SetSpec ].
Qed.

Lemma keeps_Signal sg : keeps (Signal sg).
Proof.
  unfold Signal, mixAudio, examine, colorClock, checkVSync, checkHSync, setPixels,
    recordSignal, newScanline.
  repeat first [ keeps_step | apply keeps_newFrame ].
Qed.

Lemma keeps_run sgs : keeps (run sgs).
Proof.
  induction sgs as [|sg sgs IH]; simpl.
  - apply keeps_ret.
  - apply keeps_bind; [ apply keeps_Signal | intros _; apply IH ].
Qed.

Lemma keeps_Reset : keeps Reset.
Proof. unfold Reset. repeat first [ keeps_step | apply keeps_SetSpec ]. Qed.

(** A new television is well formed. *)
Lemma wf_NewReference requested : wf (fst (NewReference requested)).
Proof.
  unfold NewReference.
  match goal with |- wf (fst (bind _ ?k ?m)) => set (tv := m) end.
  assert (wf tv) as Hwf.
  { unfold wf, live, tv. cbn [tv_state states]. rewrite lookup_total_singleton_eq.
    cbn. rewrite dom_singleton_L. split; [ set_solver | done ]. }
  pose proof (keeps_SetSpec requested tv Hwf) as H.
  unfold bind. by destruct (SetSpec requested tv) as [m1 [[]|e|]].
Qed.

End WellFormed.

(** ** Backing arrays *)

Lemma read_zeros n i : read (zeros n) i = noEntry.
Proof. unfold read, zeros. simpl. by rewrite lookup_empty. Qed.

Lemma read_write a i j e : read (write a i e) j = if decide (i = j) then e else read a j.
Proof.
  unfold read, write. simpl. rewrite lookup_insert. by case_decide.
Qed.

Lemma read_blit n src dst i :
  read (blit n src dst) i = if decide (i < n) then read src i else read dst i.
Proof.
  unfold read, blit. simpl. rewrite lookup_union, !map_lookup_filter.
  destruct (decide (i < n));
    destruct (cells src !! i) as [x|], (cells dst !! i) as [y|]; simpl;
    repeat (case_guard; simpl in * ); done.
Qed.

(** ** Two televisions that differ in their pointers only

    [sim m1 m2]: the two televisions have the same fields and their histories
    hold the same elements, but the [state] objects and the backing arrays
    may be different ones, and the recorded calls agree once the refresh
    calls are left out. *)

Section Simulation.
Context `{E : Env}.

Definition not_refresh (c : Call) : bool :=
  match c with
  | Refresh _ _ | RefreshPixel _ _ _ _ _ _ => false
  | _ => true
  end.

Definition slice_wf (h : slice) : Prop :=
  0 <= s_len h /\ (s_ptr h = None -> s_len h = 0).

Record sim (m1 m2 : machine) : Prop := {
  sim_reqSpecID : reqSpecID m1 = reqSpecID m2;
  sim_resizer : resizer m1 = resizer m2;
  sim_renderers : renderers m1 = renderers m2;
  sim_refreshers : refreshers m1 = refreshers m2;
  sim_frameTriggers : frameTriggers m1 = frameTriggers m2;
  sim_mixers : mixers m1 = mixers m2;
  sim_scalars : scalars (live m1) = scalars (live m2);
  sim_len : s_len (signalHistory (live m1)) = s_len (signalHistory (live m2));
  sim_wf1 : slice_wf (signalHistory (live m1));
  sim_wf2 : slice_wf (signalHistory (live m2));
  sim_contents :
    contents m1 (signalHistory (live m1)) = contents m2 (signalHistory (live m2));
  sim_calls : List.filter not_refresh (calls m1) = List.filter not_refresh (calls m2);
}.

Hypothesis deaf : forall h c, fails h c = fails (List.filter not_refresh h) c.

Definition respects {X} (c : M X) : Prop :=
  forall m1 m2, sim m1 m2 -> sim (fst (c m1)) (fst (c m2)) /\ snd (c m1) = snd (c m2).

Lemma respects_ret {X} (a : X) : respects (ret a).
Proof. by intros m1 m2 H. Qed.

Lemma respects_fail {X} e : respects (fail e : M X).
Proof. by intros m1 m2 H. Qed.

Lemma respects_bind {X Y} (c : M X) (k : X -> M Y) :
  respects c -> (forall a, respects (k a)) -> respects (bind c k).
Proof.
  intros Hc Hk m1 m2 H. unfold bind. destruct (Hc m1 m2 H) as [Hs Ho].
  destruct (c m1) as [m1' o1], (c m2) as [m2' o2]. simpl in *. subst o2.
  destruct o1; try done. by apply Hk.
Qed.

Lemma respects_discard c : respects c -> respects (discard c).
Proof.
  intros Hc m1 m2 H. unfold discard. destruct (Hc m1 m2 H) as [Hs Ho].
  destruct (c m1) as [m1' o1], (c m2) as [m2' o2]. simpl in *. subst o2.
  by destruct o1.
Qed.

Lemma respects_gets {X} (f : state -> X) :
  (forall s, f s = f (scalars s)) -> respects (gets f).
Proof.
  intros Hf m1 m2 H. split; [ done | ]. simpl.
  by rewrite (Hf (live m1)), (Hf (live m2)), (sim_scalars _ _ H).
Qed.

Lemma respects_reads {X} (f : machine -> X) :
  (forall m1 m2, sim m1 m2 -> f m1 = f m2) -> respects (reads f).
Proof. intros Hf m1 m2 H. split; [ done | ]. simpl. by rewrite (Hf m1 m2 H). Qed.

Lemma contents_upd f m h : contents (upd f m) h = contents m h.
Proof. reflexivity. Qed.

Lemma respects_modify f :
  (forall s, signalHistory (f s) = signalHistory s) ->
  (forall s, scalars (f s) = scalars (f (scalars s))) ->
  respects (modify f).
Proof.
  intros Hh Hf m1 m2 H. split; [ | done ]. change (sim (upd f m1) (upd f m2)).
  destruct H. constructor; try done.
  all: rewrite ?live_upd, ?Hh, ?contents_upd; try done.
  by rewrite (Hf (live m1)), (Hf (live m2)), sim_scalars0.
Qed.

Lemma sim_emit cs m1 m2 : sim m1 m2 -> sim (emit cs m1) (emit cs m2).
Proof.
  intros H. destruct H. constructor; try done.
  unfold emit. simpl. by rewrite !List.filter_app, sim_calls0.
Qed.

Lemma respects_call c : respects (call c).
Proof.
  intros m1 m2 H. split; [ by apply sim_emit | ]. simpl.
  by rewrite (deaf (calls m1)), (deaf (calls m2)), (sim_calls _ _ H).
Qed.

Lemma respects_set_resizer r : respects (fun m => (set_resizer r m, Ret tt)).
Proof. intros m1 m2 H. split; [ | done ]. simpl. destruct H. by constructor. Qed.

Lemma respects_forEach {X} (l : list X) (body : X -> M unit) :
  (forall i, respects (body i)) -> respects (forEach l body).
Proof.
  intros Hb. induction l as [|i l IH]; simpl.
  - apply respects_ret.
  - apply respects_bind; auto.
Qed.

Lemma respects_if {X} (b : bool) (c1 c2 : M X) :
  respects c1 -> respects c2 -> respects (if b then c1 else c2).
Proof. by destruct b. Qed.

Lemma seqZ_snoc n : 0 <= n -> seqZ 0 (n + 1) = seqZ 0 n ++ [n].
Proof. intros. by rewrite seqZ_app by lia. Qed.

Lemma contents_ext m1 m2 h1 h2 :
  s_len h1 = s_len h2 ->
  (forall i, 0 <= i < s_len h1 -> read (backing m1 h1) i = read (backing m2 h2) i) ->
  contents m1 h1 = contents m2 h2.
Proof.
  intros Hl Hr. unfold contents. rewrite <- Hl.
  apply list_fmap_ext. intros k i Hk. apply lookup_seqZ in Hk. apply Hr. lia.
Qed.

Lemma contents_length m h : 0 <= s_len h -> length (contents m h) = Z.to_nat (s_len h).
Proof. intros. unfold contents. by rewrite length_fmap, length_seqZ. Qed.

Lemma contents_lookup m h i :
  0 <= i < s_len h -> contents m h !! Z.to_nat i = Some (read (backing m h) i).
Proof.
  intros Hi. unfold contents. rewrite list_lookup_fmap.
  rewrite (proj2 (lookup_seqZ 0 (s_len h) (Z.to_nat i) i)); [ done | lia ].
Qed.

Lemma backing_alloc a m n :
  backing (alloc a m) {| s_ptr := Some (fresh (dom (arrays m))); s_len := n |} = a.
Proof. unfold backing, alloc. simpl. apply lookup_total_insert_eq. Qed.

Lemma backing_poke p a m n :
  backing (poke p a m) {| s_ptr := Some p; s_len := n |} = a.
Proof. unfold backing, poke. simpl. apply lookup_total_insert_eq. Qed.

Lemma writeHistory_view i e m :
  slice_wf (signalHistory (live m)) ->
  let h := signalHistory (live m) in
  let m' := fst (writeHistory i e m) in
  let h' := signalHistory (live m') in
  scalars (live m') = scalars (live m) /\
  reqSpecID m' = reqSpecID m /\ resizer m' = resizer m /\ renderers m' = renderers m /\
  refreshers m' = refreshers m /\ frameTriggers m' = frameTriggers m /\
  mixers m' = mixers m /\ calls m' = calls m /\
  slice_wf h' /\
  (if len h <=? i then
     snd (writeHistory i e m) = Ret tt /\ s_len h' = s_len h + 1 /\
     contents m' h' = contents m h ++ [e]
   else if (0 <=? i) then
     snd (writeHistory i e m) = Ret tt /\ s_len h' = s_len h /\
     contents m' h' = <[Z.to_nat i := e]> (contents m h)
   else
     snd (writeHistory i e m) = Panic /\ m' = m).
Proof.
  intros [Hpos Hnil]. cbv zeta. unfold writeHistory, assignHistory, bind, gets. cbn [fst snd].
  unfold len. destruct (s_len (signalHistory (live m)) <=? i) eqn:Hi.
  - assert (forall a n m1,
      backing m1 {| s_ptr := a; s_len := s_len (signalHistory (live m)) + 1 |} =
        write n (s_len (signalHistory (live m))) e ->
      (forall j, 0 <= j < s_len (signalHistory (live m)) ->
         read n j = read (backing m (signalHistory (live m))) j) ->
      contents m1 {| s_ptr := a; s_len := s_len (signalHistory (live m)) + 1 |} =
        contents m (signalHistory (live m)) ++ [e]) as Hc.
    { intros a n m1 Hb Hr. unfold contents at 1. cbn [s_len]. rewrite Hb.
      rewrite seqZ_snoc by done. rewrite fmap_app. f_equal.
      - apply list_fmap_ext. intros k j Hk. apply lookup_seqZ in Hk.
        rewrite read_write. case_decide; [ lia | ]. apply Hr. lia.
      - simpl. rewrite read_write. by case_decide. }
    unfold append, modify, len.
    destruct (s_ptr (signalHistory (live m))) as [p|] eqn:Hp.
    + destruct (s_len (signalHistory (live m)) <? _); cbn [fst snd];
        rewrite !live_upd; cbn [signalHistory set_signalHistory s_len s_ptr];
        repeat split; try done; try (cbn [s_len s_ptr]; lia).
      * rewrite contents_upd. apply (Hc _ (backing m (signalHistory (live m)))); [ | done ].
        apply backing_poke.
      * rewrite contents_upd. eapply Hc; [ apply backing_alloc | ].
        intros j Hj. rewrite read_blit. case_decide; [ done | lia ].
    + cbn [fst snd]. rewrite !live_upd. cbn [signalHistory set_signalHistory s_len s_ptr].
      rewrite (Hnil eq_refl) in *.
      repeat split; try done.
      rewrite contents_upd. eapply (Hc _ _ (alloc _ m)); [ apply backing_alloc | lia ].
  - apply Z.leb_gt in Hi. unfold store, len.
    destruct (s_ptr (signalHistory (live m))) as [p|] eqn:Hp.
    + destruct (0 <=? i) eqn:H0; cbn [andb].
      * replace (i <? s_len (signalHistory (live m))) with true by (symmetry; by apply Z.ltb_lt).
        cbn [fst snd]. apply Z.leb_le in H0.
        change (live (poke p _ m)) with (live m).
        repeat split; try done; try (intros; congruence).
        apply list_eq. intros k.
        destruct (decide (k = Z.to_nat i)) as [-> | Hne].
        -- rewrite list_lookup_insert_eq by (rewrite contents_length; lia).
           rewrite contents_lookup by lia.
           f_equal. unfold backing at 1. rewrite Hp. unfold poke. cbn [arrays set_arrays].
           rewrite lookup_total_insert_eq, read_write. by case_decide.
        -- rewrite list_lookup_insert_ne by done.
           unfold contents. rewrite !list_lookup_fmap.
           destruct (seqZ 0 _ !! k) as [j|] eqn:Hj; [ | done ]. simpl. f_equal.
           apply lookup_seqZ in Hj.
           unfold backing at 1. rewrite Hp. unfold poke. cbn [arrays set_arrays].
           rewrite lookup_total_insert_eq, read_write. case_decide; [ lia | done ].
      * cbn [fst snd]. repeat split; try done. congruence.
    + rewrite (Hnil eq_refl) in Hi. cbn [fst snd].
      replace (0 <=? i) with false by (symmetry; apply Z.leb_gt; lia).
      repeat split; auto.
Qed.

Lemma respects_make n : respects (assignHistory (make n)).
Proof.
  intros m1 m2 H. unfold assignHistory, bind, make, modify.
  destruct (n <? 0) eqn:Hn; [ done | ]. apply Z.ltb_ge in Hn. cbn [fst snd].
  split; [ | done ]. destruct H. constructor; try done.
  all: rewrite ?live_upd, ?live_alloc, ?contents_upd;
    cbn [signalHistory set_signalHistory s_len]; try done.
  all: try (split; [ done | by intros [=] ]).
  apply contents_ext; [ done | ]. intros i Hi. cbn [s_len] in Hi.
  by rewrite !backing_alloc.
Qed.

Lemma respects_write i e : respects (writeHistory i e).
Proof.
  intros m1 m2 H.
  pose proof (writeHistory_view i e m1 (sim_wf1 _ _ H)) as V1.
  pose proof (writeHistory_view i e m2 (sim_wf2 _ _ H)) as V2.
  cbv zeta in V1, V2.
  destruct V1 as (S1 & ? & ? & ? & ? & ? & ? & C1 & W1 & R1).
  destruct V2 as (S2 & ? & ? & ? & ? & ? & ? & C2 & W2 & R2).
  unfold len in *. rewrite <- (sim_len _ _ H) in R2.
  destruct H.
  destruct (s_len (signalHistory (live m1)) <=? i).
  - destruct R1 as (-> & L1 & K1), R2 as (-> & L2 & K2).
    split; [ | done ]. constructor; try congruence.
  - destruct (0 <=? i).
    + destruct R1 as (-> & L1 & K1), R2 as (-> & L2 & K2).
      split; [ | done ]. constructor; try congruence.
    + destruct R1 as (-> & ->), R2 as (-> & ->). split; [ | done ]. by constructor.
Qed.

Ltac resp_step :=
  lazymatch goal with
  | |- respects (assignHistory (make _)) => apply respects_make
  | |- respects (writeHistory _ _) => apply respects_write
  | |- respects (bind _ _) => apply respects_bind; [ | intros ? ]
  | |- respects (ret _) => apply respects_ret
  | |- respects (fail _) => apply respects_fail
  | |- respects (gets _) =>
      apply respects_gets; let s := fresh in intros s; by destruct s
  | |- respects (reads _) =>
      apply respects_reads; let H := fresh in intros ? ? H; by destruct H
  | |- respects (discard _) => apply respects_discard
  | |- respects (fun m => (set_resizer _ m, Ret tt)) => apply respects_set_resizer
  | |- respects (modify _) =>
      apply respects_modify; [ reflexivity | let s := fresh in intros s; by destruct s ]
  | |- respects (call _) => apply respects_call
  | |- respects (forEach _ _) => apply respects_forEach; intros ?
  | |- respects (let '(_, _) := ?p in _) => destruct p as [? ?]
  | |- respects (match ?p with (_, _) => _ end) => destruct p as [? ?]
  | |- respects (if ?b then _ else _) => destruct b
  end.

Lemma respects_SetSpec requested : respects (SetSpec requested).
Proof. unfold SetSpec, prepare. repeat resp_step. Qed.

Lemma respects_newFrame synced : respects (newFrame synced).
Proof.
  unfold newFrame, commit, prepare, IsStable.
  repeat first [ resp_step | apply respects_SetSpec ].
Qed.

Lemma respects_Signal sg : respects (Signal sg).
Proof.
  unfold Signal, mixAudio, examine, colorClock, checkVSync, checkHSync, setPixels,
    recordSignal, newScanline.
  repeat first [ resp_step | apply respects_newFrame ].
Qed.

Lemma respects_run sgs : respects (run sgs).
Proof.
  induction sgs as [|sg sgs IH]; simpl.
  - apply respects_ret.
  - apply respects_bind; [ apply respects_Signal | intros _; apply IH ].
Qed.

(** *** Snapshot and RestoreSnapshot *)

Lemma wf_slice m : wf m -> slice_wf (signalHistory (live m)).
Proof.
  intros (_ & Hl & Hp). split; [ done | ]. intros Hn. by rewrite Hn in Hp.
Qed.

Lemma Snapshot_spec m :
  wf m ->
  let p := fresh (dom (states m)) in
  let a := fresh (dom (arrays m)) in
  let h := signalHistory (live m) in
  let h' := {| s_ptr := Some a; s_len := s_len h |} in
  exists m1,
    Snapshot m = (m1, Ret (Some p)) /\
    tv_state m1 = tv_state m /\ live m1 = live m /\ calls m1 = calls m /\
    reqSpecID m1 = reqSpecID m /\ resizer m1 = resizer m /\
    renderers m1 = renderers m /\ refreshers m1 = refreshers m /\
    frameTriggers m1 = frameTriggers m /\ mixers m1 = mixers m /\
    states m1 !! p = Some (set_signalHistory h' (live m)) /\
    dom (arrays m1) = {[ a ]} ∪ dom (arrays m) /\
    (forall q, q ≠ a -> arrays m1 !! q = arrays m !! q) /\
    contents m1 h' = contents m h.
Proof.
  clear deaf. intros (Ht & Hl & Hp). cbv zeta.
  pose proof (is_fresh (dom (states m))) as Hfp.
  pose proof (is_fresh (dom (arrays m))) as Hfa.
  unfold Snapshot, bind, gets, make, len.
  replace (s_len (signalHistory (live m)) <? 0) with false by (symmetry; by apply Z.ltb_ge).
  unfold copy, len. cbn [s_ptr s_len]. rewrite Z.min_id.
  unfold new, ret. eexists. split; [ reflexivity | ].
  cbn [tv_state states arrays calls reqSpecID resizer renderers refreshers frameTriggers
       mixers set_states poke alloc set_arrays].
  repeat split.
  - unfold live. cbn [tv_state states set_states poke alloc set_arrays].
    apply lookup_total_insert_ne. intros Heq. apply Hfp. by rewrite Heq.
  - apply lookup_insert_eq.
  - rewrite !dom_insert_L. set_solver.
  - intros q Hq. by rewrite !lookup_insert_ne.
  - apply contents_ext; [ done | ]. cbn [s_len]. intros i Hi.
    unfold backing at 1. cbn [s_ptr arrays set_states poke alloc set_arrays].
    rewrite lookup_total_insert_eq, read_blit. case_decide; [ | lia ].
    unfold backing. destruct (s_ptr (signalHistory (live m))) as [q|]; [ | done ].
    cbn [arrays alloc set_arrays]. rewrite lookup_total_insert_ne; [ done | ].
    intros Heq. apply Hfa. by rewrite Heq.
Qed.

(** A computation that only notifies collaborators, with calls that satisfy
    [P], and returns. *)
Definition notifies {X} (P : Call -> Prop) (c : M X) : Prop :=
  forall m, exists cs a, c m = (emit cs m, Ret a) /\ Forall P cs.

Lemma notifies_ret {X} P (a : X) : notifies P (ret a).
Proof. intros m. exists [], a. by rewrite emit_nil. Qed.

Lemma notifies_gets {X} P (f : state -> X) : notifies P (gets f).
Proof. intros m. exists [], (f (live m)). by rewrite emit_nil. Qed.

Lemma notifies_reads {X} P (f : machine -> X) : notifies P (reads f).
Proof. intros m. exists [], (f m). by rewrite emit_nil. Qed.

Lemma notifies_notify (P : Call -> Prop) c : P c -> notifies P (notify c).
Proof. intros Hc m. exists [c], tt. split; [ done | by constructor ]. Qed.

Lemma notifies_bind {X Y} P (c : M X) (k : X -> M Y) :
  notifies P c -> (forall a, notifies P (k a)) -> notifies P (bind c k).
Proof.
  intros Hc Hk m. unfold bind. destruct (Hc m) as (cs & a & -> & HP).
  destruct (Hk a (emit cs m)) as (cs' & b & -> & HP'). exists (cs ++ cs'), b.
  split; [ by rewrite emit_emit | by apply Forall_app ].
Qed.

Lemma notifies_forEach {X} P (l : list X) (body : X -> M unit) :
  (forall i, notifies P (body i)) -> notifies P (forEach l body).
Proof.
  intros Hb. induction l as [|i l IH]; simpl.
  - apply notifies_ret.
  - apply notifies_bind; auto.
Qed.

Lemma notifies_forRange {X} P (l : list X) (body : Z -> X -> M unit) i :
  (forall j e, notifies P (body j e)) -> notifies P (forRange i l body).
Proof.
  intros Hb. revert i. induction l as [|e l IH]; intros i; simpl.
  - apply notifies_ret.
  - apply notifies_bind; auto.
Qed.

Lemma RestoreSnapshot_spec p m :
  exists cs,
    RestoreSnapshot (Some p) m = (emit cs (set_tv_state p m), Ret tt) /\
    Forall (fun c => not_refresh c = false) cs.
Proof.
  unfold RestoreSnapshot. unfold bind at 1.
  match goal with |- context [?rest (set_tv_state p m)] =>
    assert (notifies (fun c => not_refresh c = false) rest) as Hn
  end.
  { repeat first
      [ apply notifies_bind; [ | intros ? ]
      | apply notifies_reads | apply notifies_gets
      | apply notifies_forEach; intros ?
      | apply notifies_forRange; intros ? ?
      | by apply notifies_notify ]. }
  destruct (Hn (set_tv_state p m)) as (cs & [] & -> & HP). eauto.
Qed.

Lemma filter_refresh cs :
  Forall (fun c => not_refresh c = false) cs -> List.filter not_refresh cs = [].
Proof.
  induction 1 as [|c cs Hc _ IH]; [ done | ]. simpl. by rewrite Hc.
Qed.

End Simulation.

(** ** Properties of the coordinates *)

Section Properties.
Context `{E : Env} `{!EnvOk E}.

(** The television was just created by NewReference, or just reset. *)
Definition initial_or_reset (m0 : machine) : Prop :=
  (exists requested, NewReference requested = (m0, Ret tt)) \/
  (exists m, Reset m = (m0, Ret tt)).

Definition known_spec (s : state) : Prop :=
  spec s = SpecNTSC \/ spec s = SpecPAL.

Definition beam_in_range (s : state) : Prop :=
  0 <= horizPos s < HorizClksScanline /\
  0 <= scanline s <= ScanlinesTotal (spec s).

Lemma known_spec_lines s : known_spec s -> 0 <= ScanlinesTotal (spec s) < max_int.
Proof. intros [-> | ->]; [ apply ntsc_lines | apply pal_lines ]. Qed.

Lemma newFrameEffect_beam synced s :
  known_spec s -> 0 <= horizPos s < HorizClksScanline ->
  known_spec (newFrameEffect synced s) /\ beam_in_range (newFrameEffect synced s).
Proof.
  intros Hk Hh. pose proof (known_spec_lines s Hk). pose proof pal_lines.
  unfold known_spec, beam_in_range, newFrameEffect in *. cbv zeta.
  repeat (case_match; simp_state); simp_state; intuition lia.
Qed.

Lemma colorClockEffect_beam s :
  known_spec s -> beam_in_range s ->
  known_spec (colorClockEffect s) /\ beam_in_range (colorClockEffect s).
Proof.
  intros Hk [Hh Hl]. pose proof (known_spec_lines s Hk) as Ht.
  pose proof scanline_clocks as Hc.
  unfold colorClockEffect. cbv zeta. simp_state.
  rewrite (incr_small (horizPos s)) by (unfold min_int; lia).
  rewrite (incr_small (scanline s)) by (unfold min_int; lia).
  repeat case_match.
  - apply newFrameEffect_beam; simp_state; [ done | lia ].
  - unfold known_spec, beam_in_range. simp_state. intuition lia.
  - unfold known_spec, beam_in_range. simp_state. intuition lia.
Qed.

Lemma checkVSyncEffect_beam sg s :
  known_spec s -> beam_in_range s ->
  known_spec (checkVSyncEffect sg s) /\ beam_in_range (checkVSyncEffect sg s).
Proof.
  intros Hk Hb. unfold checkVSyncEffect. repeat case_match; try done.
  apply newFrameEffect_beam; [ done | apply Hb ].
Qed.

Lemma checkHSyncEffect_beam sg s :
  known_spec s -> beam_in_range s ->
  known_spec (checkHSyncEffect sg s) /\ beam_in_range (checkHSyncEffect sg s).
Proof.
  intros Hk [Hh Hl]. pose proof scanline_clocks as Hc.
  unfold checkHSyncEffect, known_spec, beam_in_range in *. cbv zeta.
  repeat (case_match; simp_state); intuition lia.
Qed.

Lemma SignalEffect_beam sg s :
  known_spec s -> beam_in_range s ->
  known_spec (SignalEffect sg s) /\ beam_in_range (SignalEffect sg s).
Proof.
  intros Hk Hb. unfold SignalEffect.
  destruct (colorClockEffect_beam s Hk Hb) as [Hk1 Hb1].
  destruct (checkVSyncEffect_beam sg _ Hk1 Hb1) as [Hk2 Hb2].
  destruct (checkHSyncEffect_beam sg _ Hk2 Hb2) as [Hk3 Hb3].
  split; [ exact Hk3 | exact Hb3 ].
Qed.

Lemma beam_core s s' :
  core s = core s' -> known_spec s' /\ beam_in_range s' -> known_spec s /\ beam_in_range s.
Proof.
  intros Hc. apply core_fields in Hc as (Hs & _ & Hh & _ & Hl & _).
  unfold known_spec, beam_in_range. by rewrite Hs, Hh, Hl.
Qed.

Lemma Signal_beam sg m m' :
  Signal sg m = (m', Ret tt) ->
  known_spec (live m) /\ beam_in_range (live m) ->
  known_spec (live m') /\ beam_in_range (live m').
Proof.
  intros H [Hk Hb]. apply Signal_ok in H.
  eapply beam_core; [ exact H | by apply SignalEffect_beam ].
Qed.

Lemma run_cons sg sgs m m' :
  run (sg :: sgs) m = (m', Ret tt) ->
  exists m1, Signal sg m = (m1, Ret tt) /\ run sgs m1 = (m', Ret tt).
Proof.
  simpl. unfold bind. destruct (Signal sg m) as [m1 [[]| |]]; try done. eauto.
Qed.

Lemma run_beam sgs m m' :
  run sgs m = (m', Ret tt) ->
  known_spec (live m) /\ beam_in_range (live m) ->
  known_spec (live m') /\ beam_in_range (live m').
Proof.
  revert m. induction sgs as [|sg sgs IH]; intros m H Hinv.
  - injection H as <-. exact Hinv.
  - apply run_cons in H as (m1 & H1 & H2).
    eapply IH; [ exact H2 | ]. eapply Signal_beam; eauto.
Qed.

Lemma initial_or_reset_beam m0 :
  initial_or_reset m0 -> known_spec (live m0) /\ beam_in_range (live m0).
Proof.
  pose proof scanline_clocks as Hc.
  intros [[requested H] | [m H]].
  - apply NewReference_post in H as (Hs & Hh & _ & Hl & _).
    pose proof (known_spec_lines _ Hs).
    unfold beam_in_range. rewrite Hh, Hl. split; [ done | lia ].
  - pose proof (wp_run _ _ _ _ _ (Reset_post m) H eq_refl) as (Hs & Hh & _ & Hl & _).
    pose proof (known_spec_lines _ Hs).
    unfold beam_in_range. rewrite Hh, Hl. split; [ done | lia ].
Qed.

(** *** Sessions

    What is done with a television between its creation and its end: it is
    signalled, a collaborator is registered with it, or it is reset. *)
Inductive event :=
| Signalled (sg : SignalAttributes)
| PixelRendererAdded (r : nat)
| PixelRefresherAdded (r : nat)
| FrameTriggerAdded (f : nat)
| AudioMixerAdded (a : nat)
| ResetCalled.

Definition deliver (e : event) : M unit :=
  match e with
  | Signalled sg => Signal sg
  | PixelRendererAdded r => fun m => (AddPixelRenderer r m, Ret tt)
  | PixelRefresherAdded r => fun m => (AddPixelRefresher r m, Ret tt)
  | FrameTriggerAdded f => fun m => (AddFrameTrigger f m, Ret tt)
  | AudioMixerAdded a => fun m => (AddAudioMixer a m, Ret tt)
  | ResetCalled => Reset
  end.

(** Every event is delivered, whatever the call before it has returned:
    nothing in the television stops its caller from going on after an
    error. The outcomes of the calls are collected in order. *)
Fixpoint session (es : list event) (m : machine) : machine * list (outcome unit) :=
  match es with
  | [] => (m, [])
  | e :: rest =>
    let (m1, o) := deliver e m in
    let (m', os) := session rest m1 in
    (m', o :: os)
  end.













(** *** Edges *)











Lemma newFrameEffect_frame synced s :
  frameNum (newFrameEffect synced s) = incr (frameNum s) /\
  scanline (newFrameEffect synced s) = 0 /\
  syncedFrame (newFrameEffect synced s) = synced /\
  signalHistoryIdx (newFrameEffect synced s) = 0.
Proof. unfold newFrameEffect. cbv zeta. by repeat (case_match; simp_state). Qed.



(** *** The specification and the synced-frame counter *)











End Properties.

(** ** Snapshots *)

Section Snapshots.
Context `{E : Env}.

(** Whether a call fails does not depend on the refresh calls made before
    it. *)
Hypothesis deaf : forall h c, fails h c = fails (List.filter not_refresh h) c.

(** C5. Snapshot returns a new [state] object whose fields are those of the
    live state, with a history in a new backing array that holds the same
    elements; the live television, whatever signals it is then sent, writes
    neither to the object nor to the array. And a RestoreSnapshot of that
    value right away, followed by any sequence of signals, ends as the same
    signals would have without the snapshot: the same outcome, the same
    fields, the same history, the same resizer, and the same calls once the
    refresh calls of the restore are left out. (The history is the only
    buffer of a [state]; its [spec] points to one of the two specifications
    of the package, which nothing assigns to, and is modelled as a value.) *)
Theorem snapshot_copies_and_restores m :
  wf m ->
  let h := signalHistory (live m) in
  exists m1 p a,
    Snapshot m = (m1, Ret (Some p)) /\
    tv_state m1 = tv_state m /\ live m1 = live m /\ calls m1 = calls m /\
    (p ∉ dom (states m)) /\ (a ∉ dom (arrays m)) /\ (p ≠ tv_state m1) /\
    s_ptr (signalHistory (live m1)) ≠ Some a /\
    states m1 !! p =
      Some (set_signalHistory {| s_ptr := Some a; s_len := s_len h |} (live m)) /\
    contents m1 {| s_ptr := Some a; s_len := s_len h |} = contents m h /\
    (forall sgs,
       let m' := fst (run sgs m1) in
       states m' !! p = states m1 !! p /\ arrays m' !! a = arrays m1 !! a) /\
    (forall sgs,
       let direct := run sgs m in
       let restored := run sgs (fst (RestoreSnapshot (Some p) m1)) in
       snd (RestoreSnapshot (Some p) m1) = Ret tt /\
       snd restored = snd direct /\
       scalars (live (fst restored)) = scalars (live (fst direct)) /\
       contents (fst restored) (signalHistory (live (fst restored))) =
         contents (fst direct) (signalHistory (live (fst direct))) /\
       resizer (fst restored) = resizer (fst direct) /\
       List.filter not_refresh (calls (fst restored)) =
         List.filter not_refresh (calls (fst direct))).
Proof.
  intros Hwf. cbv zeta.
  destruct (Snapshot_spec m Hwf)
    as (m1 & HS & Ht & Hl & Hc & Hq & Hr & Hrs & Hrf & Hft & Hmx & Hp & Hd & Ha & Hcs).
  cbv zeta in *.
  pose proof (is_fresh (dom (states m))) as Hfp.
  pose proof (is_fresh (dom (arrays m))) as Hfa.
  destruct Hwf as (Hin & Hlen & Hptr).
  set (p := fresh (dom (states m))) in *. set (a := fresh (dom (arrays m))) in *.
  exists m1, p, a. split; [ done | ].
  assert (p ≠ tv_state m1) as Hne by (rewrite Ht; intros Heq; apply Hfp; by rewrite Heq).
  assert (s_ptr (signalHistory (live m1)) ≠ Some a) as Hna.
  { rewrite Hl. intros Heq. rewrite Heq in Hptr. done. }
  repeat (split; [ done | ]).
  split.
  - intros sgs. cbv zeta.
    destruct (isolating_run {[ p ]} {[ a ]} sgs m1) as [_ [Us Ua]].
    + refine (conj _ (conj _ _)).
      * set_solver.
      * intros b Hb. rewrite Hb in Hna. set_solver.
      * rewrite Hd. set_solver.
    + split; [ apply Us | apply Ua ]; set_solver.
  - intros sgs. cbv zeta.
    destruct (RestoreSnapshot_spec p m1) as (cs & -> & Hcs').
    cbn [fst snd]. split; [ done | ].
    assert (sim (emit cs (set_tv_state p m1)) m) as Hsim.
    { assert (live (emit cs (set_tv_state p m1)) =
              set_signalHistory {| s_ptr := Some a; s_len := s_len (signalHistory (live m)) |}
                (live m)) as Hlive.
      { unfold live. cbn [states tv_state emit set_calls set_tv_state].
        by rewrite (lookup_total_correct _ _ _ Hp). }
      constructor; try done.
      - rewrite Hlive. by destruct (live m).
      - by rewrite Hlive.
      - rewrite Hlive. split; [ done | by intros [=] ].
      - split; [ done | ]. intros Hn. by rewrite Hn in Hptr.
      - by rewrite Hlive.
      - unfold emit. cbn [calls set_calls set_tv_state].
        by rewrite List.filter_app, (filter_refresh cs Hcs'), app_nil_r, Hc. }
    destruct (respects_run deaf sgs _ _ Hsim) as [Hs Ho].
    destruct Hs. by repeat split.
Qed.

(** C10. RestoreSnapshot of a nil snapshot returns at once: the store, the
    pointer [tv.state] and the recorded calls are what they were, so no
    refresher has been called. *)
Theorem restore_nil_is_noop (m : machine) :
  RestoreSnapshot None m = (m, Ret tt).
Proof. reflexivity. Qed.

End Snapshots.

(** ** Requests that are not supported *)

Section Requests.
Context `{E : Env}.
Context {TVStateReq : Type} `{EqDecision TVStateReq}.
Variables ReqFramenum' ReqScanline' ReqHorizPos' : TVStateReq.

(** C9. A specification identifier that SetSpec does not know (its upper
    case is none of NTSC, PAL and AUTO) and a state request that GetState
    does not know come back as an error, not as a panic, and nothing of the
    television or its store has changed; the same holds of RequestTVState of
    the headless television, which returns a nil pointer with the error. *)
Theorem unsupported_requests_are_errors :
  (forall requested (m : machine),
     ToUpper requested <> "NTSC"%string ->
     ToUpper requested <> "PAL"%string ->
     ToUpper requested <> "AUTO"%string ->
     SetSpec requested m = (m, Err (UnsupportedSpec requested))) /\
  (forall request (m : machine),
     request <> ReqFramenum -> request <> ReqScanline -> request <> ReqHorizPos ->
     GetState request m = (m, (0, Some (UnhandledRequest request)))) /\
  (forall (request : TVStateReq) (tv : Headless.HeadlessTV),
     request <> ReqFramenum' -> request <> ReqScanline' -> request <> ReqHorizPos' ->
     Headless.RequestTVState ReqFramenum' ReqScanline' ReqHorizPos' request tv =
       (tv, (None, Some (Headless.UnknownTVRequest request)))).
Proof.
  split; [ | split ].
  - intros requested m H1 H2 H3. unfold SetSpec.
    apply String.eqb_neq in H1, H2, H3. rewrite H1, H2, H3. reflexivity.
  - intros request m H1 H2 H3. unfold GetState.
    apply Z.eqb_neq in H1, H2, H3. by rewrite H1, H2, H3.
  - intros request tv H1 H2 H3. unfold Headless.RequestTVState.
    by rewrite !decide_False.
Qed.

End Requests.

End Television.

(** * The TIA video cycle (tia.TIA.StepVideoCycle) *)

Module TIA.

(** ** The color clock *)

(** Modelled from the spec: the polycounter package is not among the
    sources. Section 3 has the clock primitive as a modulo counter with a
    configurable reset count, which advances one step per invocation and
    reports whether it has just wrapped and whether it equals a target
    count; the count ranges over 0..resetPoint. *)
Record Polycounter := {
  Count : Z;
  ResetPoint : Z;
}.

(** Modelled from the spec: whether the clock equals the target count. *)
Definition MatchEnd (pk : Polycounter) (n : Z) : bool := Count pk =? n.

(** Modelled from the spec: one step of the clock, and whether it has just
    wrapped. *)
Definition Tick (pk : Polycounter) : Polycounter * bool :=
  if Count pk =? ResetPoint pk then
    ({| Count := 0; ResetPoint := ResetPoint pk |}, true)
  else
    ({| Count := Count pk + 1; ResetPoint := ResetPoint pk |}, false).

(** Modelled from the spec: the clock back at its first count. *)
Definition Reset (pk : Polycounter) : Polycounter :=
  {| Count := 0; ResetPoint := ResetPoint pk |}.

(** ** Signals and collaborators *)

Definition ColorSignal := Z.

(** The signal as this version of the chip builds it. *)
Record SignalAttributes := {
  VSync : bool;
  VBlank : bool;
  FrontPorch : bool;
  HSync : bool;
  CBurst : bool;
  Pixel : ColorSignal;
}.

(** The horizontal-move unit, the forced-resync unit, the video sub-system,
    the television and the chip memory are not among the sources. Every
    call the step makes on one of them is recorded, in order. *)
Inductive Call :=
| Hmove_isActive
| Hmove_reset
| Hmove_tick
| Rsync_tick
| Video_NewScanline
| Video_TickSpritesForHMOVE (ct : Z)
| Video_TickSprites
| Video_TickPlayfield
| Video_TickFutures (motionClock : bool)
| Video_Pixel
| TV_Signal (sg : SignalAttributes)
| Collisions_SetMemory.

(** What the collaborators answer, given the calls made so far and the color
    clock, which the units hold a pointer to. *)
Class Parts := {
  VideoBlack : ColorSignal;
  isActive : list Call -> Polycounter -> bool;
  hmove_tick : list Call -> Polycounter -> Z * bool;
  rsync_tick : list Call -> Polycounter -> bool;
  video_Pixel : list Call -> Polycounter -> Z;
  (** whether [tv.Signal] returns a non-nil error *)
  tv_Signal : list Call -> SignalAttributes -> bool;
}.

(** The fields of the chip that the step reads and writes. *)
Record TIA := {
  colorClock : Polycounter;
  motionClock : bool;
  vsync : bool;
  vblank : bool;
  hblank : bool;
  hsync : bool;
  wsync : bool;
  calls : list Call;
}.

Definition set_colorClock (v : Polycounter) (t : TIA) : TIA :=
  {| colorClock := v; motionClock := motionClock t; vsync := vsync t;
     vblank := vblank t; hblank := hblank t; hsync := hsync t; wsync := wsync t;
     calls := calls t |}.

Definition set_motionClock (v : bool) (t : TIA) : TIA :=
  {| colorClock := colorClock t; motionClock := v; vsync := vsync t;
     vblank := vblank t; hblank := hblank t; hsync := hsync t; wsync := wsync t;
     calls := calls t |}.

Definition set_hblank (v : bool) (t : TIA) : TIA :=
  {| colorClock := colorClock t; motionClock := motionClock t; vsync := vsync t;
     vblank := vblank t; hblank := v; hsync := hsync t; wsync := wsync t;
     calls := calls t |}.

Definition set_hsync (v : bool) (t : TIA) : TIA :=
  {| colorClock := colorClock t; motionClock := motionClock t; vsync := vsync t;
     vblank := vblank t; hblank := hblank t; hsync := v; wsync := wsync t;
     calls := calls t |}.

Definition set_wsync (v : bool) (t : TIA) : TIA :=
  {| colorClock := colorClock t; motionClock := motionClock t; vsync := vsync t;
     vblank := vblank t; hblank := hblank t; hsync := hsync t; wsync := v;
     calls := calls t |}.

Definition set_calls (v : list Call) (t : TIA) : TIA :=
  {| colorClock := colorClock t; motionClock := motionClock t; vsync := vsync t;
     vblank := vblank t; hblank := hblank t; hsync := hsync t; wsync := wsync t;
     calls := v |}.

(** [NewTIA]: the color clock resets at 56 and the line starts blanked. *)
Definition NewTIA : TIA :=
  {| colorClock := {| Count := 0; ResetPoint := 56 |}; motionClock := false;
     vsync := false; vblank := false; hblank := true; hsync := false;
     wsync := false; calls := [] |}.

(** ** The step, block by block *)

Section Step.
Context `{P : Parts}.

(** A block of the step: a function of the chip that returns the new chip
    and a value. *)
Definition St (X : Type) : Type := TIA -> TIA * X.

Definition ret {X} (a : X) : St X := fun t => (t, a).

Definition bind {X Y} (c : St X) (k : X -> St Y) : St Y :=
  fun t => let (t', a) := c t in k a t'.

Definition get {X} (f : TIA -> X) : St X := fun t => (t, f t).

Definition put (f : TIA -> TIA) : St unit := fun t => (f t, tt).

(** A call on a collaborator, and what it answers. *)
Definition ask {X} (c : Call) (answer : list Call -> Polycounter -> X) : St X :=
  fun t => (set_calls (calls t ++ [c]) t, answer (calls t) (colorClock t)).

(** A call on a collaborator that returns nothing. *)
Definition tell (c : Call) : St unit :=
  fun t => (set_calls (calls t ++ [c]) t, tt).

(** [a && b()], where [b] is only called when [a] holds. *)
Definition andThen (a : bool) (b : St bool) : St bool :=
  if a then b else ret false.

Local Notation "v <- c ;; k" := (bind c (fun v => k))
  (at level 100, c at next level, right associativity).
Local Notation "c ;; k" := (bind c (fun _ => k))
  (at level 100, right associativity).

(** Lines 138-151: what the color clock switches; returns [cburst]. *)
Definition colorClockEvents : St bool :=
  cc <- get colorClock ;;
  early <- andThen (MatchEnd cc 16) (a <- ask Hmove_isActive isActive ;; ret (negb a)) ;;
  if early : bool then
    (* HBLANK off (early) *)
    put (set_hblank false) ;; ret false
  else
    late <- andThen (MatchEnd cc 18) (ask Hmove_isActive isActive) ;;
    if late : bool then
      (* HBLANK off (late) *)
      put (set_hblank false) ;; ret false
    else if MatchEnd cc 4 then put (set_hsync true) ;; ret false
    else if MatchEnd cc 8 then put (set_hsync false) ;; ret false
    else if MatchEnd cc 12 then ret true
    else ret false.

(** Lines 153-159: the motion clock is an out-of-phase color clock. *)
Definition motionClockEvents : St unit :=
  cc <- get colorClock ;;
  if MatchEnd cc 15 then put (set_motionClock true)
  else if MatchEnd cc 56 then put (set_motionClock false)
  else ret tt.

(** [tia.colorClock.Tick()] *)
Definition tickColorClock : St bool :=
  fun t => (set_colorClock (fst (Tick (colorClock t))) t, snd (Tick (colorClock t))).

(** Lines 161-177: set up a new scanline if the color clock has ticked its
    way to the reset point or if an rsync has matured; returns
    [frontPorch]. *)
Definition newLine : St bool :=
  matured <- ask Rsync_tick rsync_tick ;;
  if matured : bool then
    put (set_wsync false) ;;
    put (set_hblank true) ;;
    tell Hmove_reset ;;
    tell Video_NewScanline ;;
    put (fun t => set_colorClock (Reset (colorClock t)) t) ;;
    ret true
  else
    wrapped <- tickColorClock ;;
    if wrapped : bool then
      put (set_wsync false) ;;
      put (set_hblank true) ;;
      tell Hmove_reset ;;
      tell Video_NewScanline ;;
      ret true
    else ret false.

(** Lines 179-194: HMOVE clock stuffing, then the sprites according to
    hblank, then the playfield and the scheduled writes. *)
Definition tickVideo : St unit :=
  r <- ask Hmove_tick hmove_tick ;;
  (let '(ct, ok) := r in
   if ok : bool then tell (Video_TickSpritesForHMOVE ct) else ret tt) ;;
  hb <- get hblank ;;
  (if hb : bool then ret tt else tell Video_TickSprites) ;;
  tell Video_TickPlayfield ;;
  mc <- get motionClock ;;
  tell (Video_TickFutures mc).

(** Lines 196-200: decide on pixel color. *)
Definition pixelColor : St ColorSignal :=
  hb <- get hblank ;;
  if hb : bool then ret VideoBlack
  else ask Video_Pixel video_Pixel.

(** Lines 202-209: the signal for the television. *)
Definition signal (frontPorch cburst : bool) (px : ColorSignal) : St SignalAttributes :=
  vs <- get vsync ;;
  vb <- get vblank ;;
  hs <- get hsync ;;
  ret {| VSync := vs; VBlank := vb; FrontPorch := frontPorch; HSync := hs;
         CBurst := cburst; Pixel := px |}.

(** The chip when the television is signalled, with the signal. *)
Definition beforeSignal : St SignalAttributes :=
  cburst <- colorClockEvents ;;
  motionClockEvents ;;
  frontPorch <- newLine ;;
  tickVideo ;;
  px <- pixelColor ;;
  signal frontPorch cburst px.

(** StepVideoCycle returns the state of the CPU, [Some ready], or panics with
    the error of the television, [None]. *)
Definition StepVideoCycle : St (option bool) :=
  sg <- beforeSignal ;;
  err <- (fun t => (set_calls (calls t ++ [TV_Signal sg]) t, tv_Signal (calls t) sg)) ;;
  if err : bool then ret None
  else
    (* set collision registers *)
    tell Collisions_SetMemory ;;
    ws <- get wsync ;;
    ret (Some (negb ws)).

(** The chip at the start of the new-line block of a step. *)
Definition atNewLine : St unit :=
  colorClockEvents ;;
  motionClockEvents.

End Step.

(** ** Properties of the step *)

Section StepProperties.
Context `{P : Parts}.

Lemma step_split t :
  StepVideoCycle t =
    (let '(ta, cburst) := colorClockEvents t in
     let '(t0, _) := motionClockEvents ta in
     let '(t1, frontPorch) := newLine t0 in
     let '(t2, _) := tickVideo t1 in
     let '(t3, px) := pixelColor t2 in
     let sg := {| VSync := vsync t3; VBlank := vblank t3; FrontPorch := frontPorch;
                  HSync := hsync t3; CBurst := cburst; Pixel := px |} in
     let t4 := set_calls (calls t3 ++ [TV_Signal sg]) t3 in
     if tv_Signal (calls t3) sg then (t4, None)
     else (set_calls (calls t4 ++ [Collisions_SetMemory]) t4, Some (negb (wsync t4)))).
Proof.
  unfold StepVideoCycle, beforeSignal, bind at 1 2 3 4 5 6 7.
  destruct (colorClockEvents t) as [ta cb].
  destruct (motionClockEvents ta) as [t0 []].
  destruct (newLine t0) as [t1 fp].
  destruct (tickVideo t1) as [t2 []].
  destruct (pixelColor t2) as [t3 px].
  unfold signal, bind, get, ret, tell. cbn.
  by destruct (tv_Signal _ _).
Qed.

Lemma beforeSignal_split t :
  beforeSignal t =
    (let '(ta, cburst) := colorClockEvents t in
     let '(t0, _) := motionClockEvents ta in
     let '(t1, frontPorch) := newLine t0 in
     let '(t2, _) := tickVideo t1 in
     let '(t3, px) := pixelColor t2 in
     (t3, {| VSync := vsync t3; VBlank := vblank t3; FrontPorch := frontPorch;
             HSync := hsync t3; CBurst := cburst; Pixel := px |})).
Proof.
  unfold beforeSignal, bind at 1 2 3 4 5.
  destruct (colorClockEvents t) as [ta cb].
  destruct (motionClockEvents ta) as [t0 []].
  destruct (newLine t0) as [t1 fp].
  destruct (tickVideo t1) as [t2 []].
  by destruct (pixelColor t2) as [t3 px].
Qed.

Lemma atNewLine_split t :
  atNewLine t = motionClockEvents (fst (colorClockEvents t)).
Proof.
  unfold atNewLine, bind. by destruct (colorClockEvents t) as [ta cb].
Qed.

(** The calls that tick the video sub-system and read the pixel. *)
Definition ticks_video (c : Call) : bool :=
  match c with
  | Hmove_tick | Video_TickSpritesForHMOVE _ | Video_TickSprites
  | Video_TickPlayfield | Video_TickFutures _ | Video_Pixel => true
  | _ => false
  end.

(** The new-line block: whether a new line begins, and what it does. *)
Lemma newLine_spec t0 :
  let matured := rsync_tick (calls t0) (colorClock t0) in
  let wrapped := snd (Tick (colorClock t0)) in
  let t1 := fst (newLine t0) in
  snd (newLine t0) = matured || wrapped /\
  calls t1 = (calls t0 ++ [Rsync_tick]) ++
             (if matured || wrapped then [Hmove_reset; Video_NewScanline] else []) /\
  (if matured || wrapped then
     colorClock t1 =
       (if matured then Reset (colorClock t0) else fst (Tick (colorClock t0))) /\
     Count (colorClock t1) = 0 /\ hblank t1 = true /\ wsync t1 = false
   else
     colorClock t1 = fst (Tick (colorClock t0)) /\ hblank t1 = hblank t0 /\
     wsync t1 = wsync t0).
Proof.
  cbv zeta. unfold newLine, bind, ask, tickColorClock, put, tell, ret. cbn.
  destruct (rsync_tick (calls t0) (colorClock t0)); cbn.
  - by rewrite <- !app_assoc.
  - unfold Tick. destruct (Count (colorClock t0) =? ResetPoint (colorClock t0)); cbn.
    + by rewrite <- !app_assoc.
    + by rewrite app_nil_r.
Qed.

(** The blocks between the new line and the signal. *)
Lemma video_spec t1 :
  let t3 := fst (pixelColor (fst (tickVideo t1))) in
  let px := snd (pixelColor (fst (tickVideo t1))) in
  colorClock t3 = colorClock t1 /\ hblank t3 = hblank t1 /\ wsync t3 = wsync t1 /\
  (exists cs, calls t3 = calls t1 ++ cs /\ forallb ticks_video cs = true) /\
  (hblank t1 = true -> px = VideoBlack) /\
  (hblank t1 = false -> exists h, px = video_Pixel h (colorClock t1)).
Proof.
  cbv zeta. unfold tickVideo, pixelColor, bind, ask, get, tell, ret. cbn.
  destruct (hmove_tick (calls t1) (colorClock t1)) as [ct [|]]; cbn;
    destruct (hblank t1) eqn:Hb; cbn; rewrite ?Hb; cbn.
  all: repeat split; try done.
  all: try (rewrite <- ?app_assoc; eexists; split; [ reflexivity | done ]).
  all: intros _; eauto.
Qed.

(** C7. In a step a new line begins exactly when the tick of the forced
    resync fires or the color clock wraps: the marker of the signal sent to
    the television says so, the move unit is reset and the video sub-system
    told of the new scanline exactly then, and the step ends with the clock
    at its first count (put there by Reset after the forced resync, by the
    wrapping Tick otherwise), hblank on and the WSYNC hold off; without a new line
    the clock has advanced by one and hblank and the hold are as they were.
    The step returns ready exactly when the hold is off at its end; it
    panics when the television returns an error. *)
Theorem new_line_resets_and_releases (t : TIA) :
  let t0 := fst (atNewLine t) in
  let matured := rsync_tick (calls t0) (colorClock t0) in
  let wrapped := snd (Tick (colorClock t0)) in
  let newline := matured || wrapped in
  let sg := snd (beforeSignal t) in
  let err := tv_Signal (calls (fst (beforeSignal t))) sg in
  let t' := fst (StepVideoCycle t) in
  FrontPorch sg = newline /\
  (exists cs,
     forallb ticks_video cs = true /\
     calls t' =
       calls t0 ++ [Rsync_tick] ++
       (if newline then [Hmove_reset; Video_NewScanline] else []) ++
       cs ++ [TV_Signal sg] ++ (if err then [] else [Collisions_SetMemory])) /\
  (if newline then
     colorClock t' =
       (if matured then Reset (colorClock t0) else fst (Tick (colorClock t0))) /\
     Count (colorClock t') = 0 /\ hblank t' = true /\ wsync t' = false
   else
     colorClock t' = fst (Tick (colorClock t0)) /\ hblank t' = hblank t0 /\
     wsync t' = wsync t0) /\
  snd (StepVideoCycle t) = if err then None else Some (negb (wsync t')).
Proof.
  cbv zeta. rewrite step_split, beforeSignal_split, atNewLine_split.
  destruct (colorClockEvents t) as [ta cb]. cbn [fst].
  destruct (motionClockEvents ta) as [t0 []]. cbn [fst].
  pose proof (newLine_spec t0) as (Hfp & Hcalls & Hnew). cbv zeta in *.
  destruct (newLine t0) as [t1 fp]. cbn [fst snd] in *.
  pose proof (video_spec t1) as (Hc & Hh & Hw & (cs & Hcs & Hticks) & _). cbv zeta in *.
  destruct (tickVideo t1) as [t2 []]. cbn [fst snd] in *.
  destruct (pixelColor t2) as [t3 px]. cbn [fst snd FrontPorch] in *.
  subst fp. split; [ done | ].
  match goal with |- context [tv_Signal ?h ?s] => destruct (tv_Signal h s) end;
    cbn [fst snd calls colorClock hblank wsync set_calls];
    rewrite Hc, Hh, Hw, Hcs, Hcalls;
    (split; [ exists cs; split; [ done | by rewrite <- ?app_assoc, ?app_nil_r ] | ]);
    by split.
Qed.

(** The color-clock block and hblank. *)
Lemma colorClockEvents_hblank t :
  let active := isActive (calls t) (colorClock t) in
  let off := (MatchEnd (colorClock t) 16 && negb active) ||
             (MatchEnd (colorClock t) 18 && active) in
  hblank (fst (colorClockEvents t)) = (if off then false else hblank t) /\
  colorClock (fst (colorClockEvents t)) = colorClock t.
Proof.
  cbv zeta. unfold colorClockEvents, bind, get, andThen, ask, put, ret, MatchEnd. cbn.
  destruct (Count (colorClock t) =? 16) eqn:H16; cbn.
  - apply Z.eqb_eq in H16. rewrite H16. cbn.
    destruct (isActive (calls t) (colorClock t)); cbn; [ | done ].
    by repeat (case_match; cbn).
  - destruct (Count (colorClock t) =? 18) eqn:H18; cbn.
    + destruct (isActive (calls t) (colorClock t)); cbn; [ done | ].
      by repeat (case_match; cbn).
    + by repeat (case_match; cbn).
Qed.

Lemma colorClockEvents_calls t :
  exists ca, calls (fst (colorClockEvents t)) = calls t ++ ca /\
             forall s, ~ In (TV_Signal s) ca.
Proof.
  unfold colorClockEvents, bind, get, andThen, ask, put, ret. cbn.
  destruct (MatchEnd (colorClock t) 16); cbn;
    [ destruct (isActive (calls t) (colorClock t)); cbn | ];
    (destruct (MatchEnd (colorClock t) 18); cbn;
      [ try destruct (isActive _ (colorClock t)); cbn | ]);
    repeat (case_match; cbn);
    first [ exists []; split; [ by rewrite app_nil_r | by intros s [] ]
          | eexists; split;
            [ rewrite <- ?app_assoc; reflexivity | intros s; cbn; intuition congruence ] ].
Qed.

Lemma motionClockEvents_keeps t :
  hblank (fst (motionClockEvents t)) = hblank t /\
  colorClock (fst (motionClockEvents t)) = colorClock t /\
  calls (fst (motionClockEvents t)) = calls t.
Proof.
  unfold motionClockEvents, bind, get, put, ret. cbn.
  by repeat (case_match; cbn).
Qed.

(** C8. The color-clock block of a step switches hblank off at count 16
    when the move unit is not active and at count 18 when it is, and at no
    other count; hblank at the end of the step is on when a new line has
    begun in the step and is what that block left otherwise. The television
    is signalled once, and the color of the signal is the blanked value
    whenever hblank is on at the end of the step; it is the pixel of the
    video sub-system otherwise. *)
Theorem hblank_off_and_blanked_pixel (t : TIA) :
  let active := isActive (calls t) (colorClock t) in
  let off := (MatchEnd (colorClock t) 16 && negb active) ||
             (MatchEnd (colorClock t) 18 && active) in
  let sg := snd (beforeSignal t) in
  let t' := fst (StepVideoCycle t) in
  hblank (fst (colorClockEvents t)) = (if off then false else hblank t) /\
  hblank t' = (if FrontPorch sg then true else if off then false else hblank t) /\
  (exists cs cs',
     calls t' = calls t ++ cs ++ [TV_Signal sg] ++ cs' /\
     (forall s, ~ In (TV_Signal s) (cs ++ cs'))) /\
  (hblank t' = true -> Pixel sg = VideoBlack) /\
  (hblank t' = false -> exists h, Pixel sg = video_Pixel h (colorClock t')).
Proof.
  cbv zeta. rewrite step_split, beforeSignal_split.
  pose proof (colorClockEvents_hblank t) as (Hoff & Hcc). cbv zeta in *.
  pose proof (colorClockEvents_calls t) as (ca & Hca & Hna).
  destruct (colorClockEvents t) as [ta cb]. cbn [fst] in *.
  pose proof (motionClockEvents_keeps ta) as (Hmh & Hmc & Hmcalls).
  destruct (motionClockEvents ta) as [t0 []]. cbn [fst] in *.
  pose proof (newLine_spec t0) as (Hfp & Hcalls & Hnew). cbv zeta in *.
  destruct (newLine t0) as [t1 fp]. cbn [fst snd] in *.
  pose proof (video_spec t1) as (Hc & Hh & Hw & (cs & Hcs & Hticks) & Hblack & Hpix).
  cbv zeta in *.
  destruct (tickVideo t1) as [t2 []]. cbn [fst snd] in *.
  destruct (pixelColor t2) as [t3 px]. cbn [fst snd FrontPorch Pixel] in *.
  split; [ done | ].
  assert (forall s, ~ In (TV_Signal s) cs) as Hncs.
  { intros s Hin. rewrite forallb_forall in Hticks. by specialize (Hticks _ Hin). }
  assert (hblank t3 = (if fp then true else if
            (MatchEnd (colorClock t) 16 && negb (isActive (calls t) (colorClock t))) ||
            (MatchEnd (colorClock t) 18 && isActive (calls t) (colorClock t))
            then false else hblank t)) as Hend.
  { rewrite Hh. rewrite <- Hfp in Hnew. destruct fp; [ tauto | ].
    destruct Hnew as (_ & -> & _). by rewrite Hmh, Hoff. }
  assert (calls t3 = calls t ++ (ca ++ [Rsync_tick] ++
            (if fp then [Hmove_reset; Video_NewScanline] else []) ++ cs)) as Hlog.
  { rewrite Hcs, Hcalls, <- Hfp, Hmcalls, Hca. by rewrite <- !app_assoc. }
  assert (forall s, ~ In (TV_Signal s) (ca ++ [Rsync_tick] ++
            (if fp then [Hmove_reset; Video_NewScanline] else []) ++ cs)) as Hnone.
  { intros s. rewrite !in_app_iff. intros [Hin | [Hin | [Hin | Hin]]].
    - by apply (Hna s).
    - cbn in Hin. intuition congruence.
    - destruct fp; cbn in Hin; intuition congruence.
    - by apply (Hncs s). }
  set (mid := ca ++ [Rsync_tick] ++
                (if fp then [Hmove_reset; Video_NewScanline] else []) ++ cs) in *.
  match goal with |- context [tv_Signal ?h ?s] => destruct (tv_Signal h s) end;
    cbn [fst snd calls colorClock hblank wsync set_calls];
    (split; [ exact Hend | ]);
    (split; [ | rewrite Hh, Hc; split; [ exact Hblack | exact Hpix ] ]).
  - exists mid, []. split; [ by rewrite Hlog, app_nil_r, <- app_assoc | ].
    rewrite app_nil_r. exact Hnone.
  - exists mid, [Collisions_SetMemory].
    split; [ by rewrite Hlog, <- !app_assoc | ].
    intros s. rewrite in_app_iff. intros [Hin | Hin]; [ by apply (Hnone s) | ].
    cbn in Hin. intuition congruence.
Qed.

End StepProperties.

End TIA.

(** * A television with the figures of the NTSC and PAL standards

    An instance of what the television is linked against, on which the
    theorems above are applied and the behaviours they do not cover are
    run. *)

Module Example.
Import GoInt Television.

Definition upper_ascii (c : Ascii.ascii) : Ascii.ascii :=
  let n := Ascii.nat_of_ascii c in
  if ((97 <=? n) && (n <=? 122))%nat then Ascii.ascii_of_nat (n - 32) else c.

(** [strings.ToUpper], on ASCII. *)
Fixpoint upper (s : string) : string :=
  match s with
  | EmptyString => EmptyString
  | String c r => String (upper_ascii c) (upper r)
  end.

Definition ntsc : Spec :=
  {| ID := "NTSC"; ScanlinesTotal := 262; ScanlineTop := 40; ScanlineBottom := 232 |}.

Definition pal : Spec :=
  {| ID := "PAL"; ScanlinesTotal := 312; ScanlineTop := 48; ScanlineBottom := 276 |}.

(** A resizer that keeps the bounds it is shown and never resizes,
    collaborators that never fail, and an [append] that doubles. *)
#[export] Instance env : Env := {|
  HorizClksScanline := 228;
  HorizClksHBlank := 68;
  SpecNTSC := ntsc;
  SpecPAL := pal;
  getColor := fun _ c => {| R := c; G := c; B := c |};
  ToUpper := upper;
  Resizer := unit;
  simpleResizer := tt;
  rz_examine := fun r s _ => (r, (top s, bottom s));
  rz_commit := fun r s => (r, (top s, bottom s), false);
  rz_prepare := fun r s => (r, (top s, bottom s));
  fails := fun _ _ => false;
  spare := fun n => Z.to_nat n;
|}.

#[export] Instance env_ok : EnvOk env.
Proof. split; vm_compute; (done || (split; congruence)). Qed.

(** A signal with the two sync lines as given and nothing else. *)
Definition pulse (v h : bool) : SignalAttributes :=
  {| VSync := v; VBlank := false; CBurst := false; HSync := h; Pixel := 0;
     AudioUpdate := false; AudioData := 0 |}.

Definition idle : SignalAttributes := pulse false false.

(** The shortest synced frame: VSYNC on, an HSYNC rising edge under VSYNC,
    VSYNC off. *)
Definition frame : list SignalAttributes :=
  [pulse true false; pulse true true; pulse false false].


Definition idles (n : Z) : list SignalAttributes := replicate (Z.to_nat n) idle.

Lemma outcome_eta {X Y} (p : X * Y) (b : Y) : snd p = b -> p = (fst p, b).
Proof. destruct p. simpl. by intros ->. Qed.

(** The new televisions. *)
Definition tvNTSC : machine := fst (NewReference "ntsc").
Definition tvAUTO : machine := fst (NewReference "auto").


(** ** The theorems at work *)






Lemma snapshot_copies_and_restores_witness :
  let m := fst (run frame tvNTSC) in
  exists m1 p,
    Snapshot m = (m1, Ret (Some p)) /\
    forall sgs,
      snd (run sgs (fst (RestoreSnapshot (Some p) m1))) = snd (run sgs m) /\
      scalars (live (fst (run sgs (fst (RestoreSnapshot (Some p) m1))))) =
        scalars (live (fst (run sgs m))).
Proof.
  cbv zeta.
  assert (forall h c, fails h c = fails (List.filter not_refresh h) c) as deaf
    by reflexivity.
  assert (wf (fst (run frame tvNTSC))) as Hwf
    by (apply keeps_run; apply wf_NewReference).
  destruct (snapshot_copies_and_restores deaf _ Hwf)
    as (m1 & p & a & HS & _ & _ & _ & _ & _ & _ & _ & _ & _ & _ & Hround).
  exists m1, p. split; [ exact HS | ].
  intros sgs. destruct (Hround sgs) as (_ & Ho & Hs & _). by split.
Defined.

Lemma unsupported_requests_are_errors_witness :
  SetSpec "secam" tvNTSC = (tvNTSC, Err (UnsupportedSpec "secam")) /\
  GetState 3 tvNTSC = (tvNTSC, (0, Some (UnhandledRequest 3))) /\
  forall tv, Headless.RequestTVState 0 1 2 3 tv =
             (tv, (None, Some (Headless.UnknownTVRequest 3))).
Proof.
  destruct (unsupported_requests_are_errors (E := env) 0 1 2) as (Hs & Hg & Hr).
  split; [ apply Hs; vm_compute; intros H; discriminate H | ].
  split; [ apply Hg; vm_compute; intros H; discriminate H | ].
  intros tv. apply Hr; intros H; discriminate H.
Defined.

(** ** What the theorems do not cover *)






End Example.


(** * More of the reference television

    What Signal, newFrame, SetSpec, Reset, NewReference, RestoreSnapshot and
    End do beyond the coordinates: how they end, which collaborators they
    call and with what, and what they write to the signal history. *)

Module Reference.
Import GoInt Television.
Local Open Scope go_scope.

(** ** The stages of Signal *)

Section Stages.
Context `{E : Env}.

(** Signal, up to the rendering of the pixel. *)
Definition upToPixels (sg : SignalAttributes) : M unit :=
  mixAudio sg ;; examine sg ;; colorClock ;; checkVSync sg ;; checkHSync sg.

Lemma Signal_stages sg m m' :
  Signal sg m = (m', Ret tt) ->
  exists m5 m6,
    upToPixels sg m = (m5, Ret tt) /\ setPixels sg m5 = (m6, Ret tt) /\
    recordSignal sg m6 = (m', Ret tt).
Proof.
  unfold Signal, upToPixels, bind.
  destruct (mixAudio sg m) as [m1 [[]|?|]]; try done.
  destruct (examine sg m1) as [m2 [[]|?|]]; try done.
  destruct (colorClock m2) as [m3 [[]|?|]]; try done.
  destruct (checkVSync sg m3) as [m4 [[]|?|]]; try done.
  destruct (checkHSync sg m4) as [m5 [[]|?|]]; try done.
  destruct (setPixels sg m5) as [m6 [[]|?|]] eqn:H6; try done.
  intros H. by exists m5, m6.
Qed.

Lemma recordSignal_unfold sg m :
  let m1 := upd (set_lastSignal sg) m in
  let e := {| x := horizPos (live m1); y := scanline (live m1); sig := sg |} in
  let r := writeHistory (signalHistoryIdx (live m1)) e m1 in
  recordSignal sg m =
    match snd r with
    | Ret _ =>
      (upd (fun s => set_signalHistoryIdx (incr (signalHistoryIdx s)) s) (fst r), Ret tt)
    | Err e => (fst r, Err e)
    | Panic => (fst r, Panic)
    end.
Proof.
  cbv zeta. unfold recordSignal, bind, modify, gets. cbn beta iota.
  by destruct (writeHistory _ _ _) as [m2 [[]|e|]].
Qed.

Lemma run_snoc sgs sg m m' :
  run (sgs ++ [sg]) m = (m', Ret tt) ->
  exists m1, run sgs m = (m1, Ret tt) /\ Signal sg m1 = (m', Ret tt).
Proof.
  revert m. induction sgs as [|sg0 sgs IH]; intros m; simpl.
  - unfold bind. destruct (Signal sg m) as [m1 [[]|?|]] eqn:H1; try done.
    intros [= <-]. by exists m.
  - unfold bind.
    destruct (Signal sg0 m) as [m0 [[]|?|]]; try done.
    apply IH.
Qed.

End Stages.

(** ** How a call ends *)

(** What the allocation of the signal history needs: a screen of
    [b - t] scanlines has a size that [make] accepts. *)
Definition room `{Env} (t b : Z) : Prop := 0 <= mul HorizClksScanline (sub b t).

(** The two specifications have room for their screen, and the resizer's
    [prepare] keeps the room it is shown. *)
Class RoomOk (E : Env) : Prop := {
  room_NTSC : room (ScanlineTop SpecNTSC) (ScanlineBottom SpecNTSC);
  room_PAL : room (ScanlineTop SpecPAL) (ScanlineBottom SpecPAL);
  room_prepare r s :
    room (top s) (bottom s) ->
    room (fst (snd (rz_prepare r s))) (snd (snd (rz_prepare r s)));
}.

Section Outcomes.
Context `{E : Env}.

(** The call returned, with nil or with the error of a collaborator that
    failed: it did not panic, and the error is not one of the television's
    own. *)
Definition benign {X} (o : outcome X) : Prop :=
  match o with
  | Ret _ => True
  | Err e => exists h c, e = CollaboratorError c /\ fails h c = true
  | Panic => False
  end.

(** The history is a slice of non-negative length, and the write cursor
    lies in [0, k] and not beyond the end of the history. *)
Definition steady (k : Z) (m : machine) : Prop :=
  slice_wf (signalHistory (live m)) /\
  0 <= signalHistoryIdx (live m) <= k /\
  signalHistoryIdx (live m) <= s_len (signalHistory (live m)).

Definition hoare {X} (P : machine -> Prop) (c : M X) (Q : machine -> Prop) : Prop :=
  forall m, P m -> Q (fst (c m)) /\ benign (snd (c m)).

Definition calm {X} (k : Z) (c : M X) : Prop := hoare (steady k) c (steady k).

Lemma hoare_bind {X Y} P R Q (c : M X) (f : X -> M Y) :
  hoare P c R -> (forall a, hoare R (f a) Q) -> (forall m, R m -> Q m) ->
  hoare P (bind c f) Q.
Proof.
  intros Hc Hf HRQ m HP. unfold bind. destruct (Hc m HP) as [HR Ho].
  destruct (c m) as [m1 [a|e|]]; cbn [fst snd] in *; auto.
  by apply Hf.
Qed.

Section Calm.
Variable k : Z.

Lemma calm_ret {X} (a : X) : calm k (ret a).
Proof. by intros m H. Qed.

Lemma calm_gets {X} (f : state -> X) : calm k (gets f).
Proof. by intros m H. Qed.

Lemma calm_reads {X} (f : machine -> X) : calm k (reads f).
Proof. by intros m H. Qed.

Lemma calm_bind {X Y} (c : M X) (f : X -> M Y) :
  calm k c -> (forall a, calm k (f a)) -> calm k (bind c f).
Proof. intros Hc Hf. by apply (hoare_bind _ (steady k)). Qed.

Lemma calm_discard c : calm k c -> calm k (discard c).
Proof.
  intros Hc m H. unfold discard. destruct (Hc m H) as [Hs Ho].
  by destruct (c m) as [m1 [a|e|]].
Qed.

Lemma calm_modify f :
  (forall s, signalHistory (f s) = signalHistory s) ->
  (forall s, signalHistoryIdx (f s) = signalHistoryIdx s \/ signalHistoryIdx (f s) = 0) ->
  calm k (modify f).
Proof.
  intros Hh Hi m (Hw & Hx & Hl). split; [ | done ]. unfold modify, steady. cbn [fst].
  rewrite live_upd, Hh. destruct Hw as [Hpos Hnil].
  split; [ done | ]. destruct (Hi (live m)) as [-> | ->]; lia.
Qed.

Lemma calm_call c : calm k (call c).
Proof.
  intros m H. split; [ done | ]. unfold call. cbn [snd].
  destruct (fails (calls m) c) eqn:Hf; [ | done ]. by exists (calls m), c.
Qed.

Lemma calm_notify c : calm k (notify c).
Proof. by intros m H. Qed.

Lemma calm_set_resizer r : calm k (fun m => (set_resizer r m, Ret tt)).
Proof. by intros m H. Qed.

Lemma calm_forEach {X} (l : list X) (body : X -> M unit) :
  (forall i, calm k (body i)) -> calm k (forEach l body).
Proof.
  intros Hb. induction l as [|i l IH]; simpl.
  - apply calm_ret.
  - apply calm_bind; auto.
Qed.

End Calm.

Ltac calm_step :=
  lazymatch goal with
  | |- calm _ (bind _ _) => apply calm_bind; [ | intros ? ]
  | |- calm _ (ret _) => apply calm_ret
  | |- calm _ (gets _) => apply calm_gets
  | |- calm _ (reads _) => apply calm_reads
  | |- calm _ (discard _) => apply calm_discard
  | |- calm _ (call _) => apply calm_call
  | |- calm _ (notify _) => apply calm_notify
  | |- calm _ (fun m => (set_resizer _ m, Ret tt)) => apply calm_set_resizer
  | |- calm _ (modify _) =>
      apply calm_modify; intros ?; simp_state; first [ reflexivity | by left | by right ]
  | |- calm _ (forEach _ _) => apply calm_forEach; intros ?
  | |- calm _ (let '(_, _) := ?p in _) => destruct p as [? ?]
  | |- calm _ (match ?p with (_, _) => _ end) => destruct p as [? ?]
  | |- calm _ (if ?b then _ else _) => destruct b
  end.

(** A computation that only calls collaborators ends as the calls do. *)
Definition chatty {X} (c : M X) : Prop :=
  forall m, exists cs, fst (c m) = emit cs m /\ benign (snd (c m)).

Lemma chatty_ret {X} (a : X) : chatty (ret a).
Proof. intros m. exists []. by rewrite emit_nil. Qed.

Lemma chatty_gets {X} (f : state -> X) : chatty (gets f).
Proof. intros m. exists []. by rewrite emit_nil. Qed.

Lemma chatty_reads {X} (f : machine -> X) : chatty (reads f).
Proof. intros m. exists []. by rewrite emit_nil. Qed.

Lemma chatty_call c : chatty (call c).
Proof.
  intros m. exists [c]. split; [ done | ]. unfold call. cbn [snd].
  destruct (fails (calls m) c) eqn:Hf; [ | done ]. by exists (calls m), c.
Qed.

Lemma chatty_bind {X Y} (c : M X) (f : X -> M Y) :
  chatty c -> (forall a, chatty (f a)) -> chatty (bind c f).
Proof.
  intros Hc Hf m. unfold bind. destruct (Hc m) as (cs & Hcs & Ho).
  destruct (c m) as [m1 [a|e|]]; cbn [fst snd] in *; subst m1; try by exists cs.
  destruct (Hf a (emit cs m)) as (cs' & Hcs' & Ho'). exists (cs ++ cs').
  by rewrite Hcs', emit_emit.
Qed.

Lemma chatty_forEach {X} (l : list X) (body : X -> M unit) :
  (forall i, chatty (body i)) -> chatty (forEach l body).
Proof.
  intros Hb. induction l as [|i l IH]; simpl.
  - apply chatty_ret.
  - apply chatty_bind; auto.
Qed.

Lemma chatty_wp {X} (c : M X) m Q :
  chatty c -> (forall cs o, benign o -> Q (emit cs m) o) -> wp c m Q.
Proof. unfold wp. intros Hc HQ. destruct (Hc m) as (cs & -> & Ho). by apply HQ. Qed.

Ltac chatty_step :=
  lazymatch goal with
  | |- chatty (bind _ _) => apply chatty_bind; [ | intros ? ]
  | |- chatty (ret _) => apply chatty_ret
  | |- chatty (gets _) => apply chatty_gets
  | |- chatty (reads _) => apply chatty_reads
  | |- chatty (call _) => apply chatty_call
  | |- chatty (forEach _ _) => apply chatty_forEach; intros ?
  | |- chatty (if ?b then _ else _) => destruct b
  end.

(** The loops over the collaborators, in a statement-by-statement
    analysis. *)
Ltac wp_loop :=
  lazymatch goal with
  | |- wp (forEach _ _) _ _ =>
      apply chatty_wp;
      [ solve [ repeat chatty_step ]
      | let Hb := fresh "Hb" in intros ? [[]|?|] Hb; [ clear Hb | | destruct Hb ] ]
  end; cbv beta iota.

Context `{!EnvOk E} `{!RoomOk E}.

(** SetSpec, whatever is requested: no panic, and no error but its own or
    a renderer's. *)
Lemma SetSpec_ends requested k m :
  0 <= k -> steady k m ->
  steady k (fst (SetSpec requested m)) /\
  match snd (SetSpec requested m) with
  | Ret _ => signalHistoryIdx (live (fst (SetSpec requested m))) = 0
  | Err e =>
    (e = UnsupportedSpec requested /\
     String.eqb (ToUpper requested) "PAL" = false) \/
    benign (Err e : outcome unit)
  | Panic => False
  end.
Proof.
  intros Hk Hs. pose proof room_NTSC as HN. pose proof room_PAL as HP.
  pose proof room_prepare as Hprep. unfold room in *.
  change (wp (SetSpec requested) m (fun m' o =>
    steady k m' /\
    match o with
    | Ret _ => signalHistoryIdx (live m') = 0
    | Err e =>
      (e = UnsupportedSpec requested /\
       String.eqb (ToUpper requested) "PAL" = false) \/
      benign (Err e : outcome unit)
    | Panic => False
    end)).
  unfold SetSpec, prepare, assignHistory.
  repeat first [ wp_loop | wp_step ].
  all: unfold steady in *; simp_mach.
  all: try done.
  all: try (split; [ exact Hs | ]).
  all: try (left; split; [ reflexivity | first [ reflexivity | assumption ] ]).
  all: try (right; assumption).
  all: try (split;
    [ split; [ split; [ cbn [s_len]; bool_facts; lia | by intros [=] ]
             | cbn [s_len]; bool_facts; lia ]
    | reflexivity ]).
  all: exfalso.
  all: lazymatch goal with
       | Hr : rz_prepare ?r ?s = _ |- _ => pose proof (Hprep r s) as Hq; rewrite Hr in Hq
       end; cbn [fst snd] in Hq; simp_mach_in Hq.
  all: lazymatch goal with
       | Hlt : (_ <? 0) = true |- _ => apply Z.ltb_lt in Hlt
       end.
  all: first [ specialize (Hq HN) | specialize (Hq HP) ]; lia.
Qed.

Lemma calm_SetSpec_PAL k : 0 <= k -> calm k (SetSpec "PAL").
Proof.
  intros Hk m Hs. destruct (SetSpec_ends "PAL" k m Hk Hs) as [H1 H2].
  split; [ done | ].
  destruct (snd (SetSpec "PAL" m)) as [[]|e|]; try done.
  destruct H2 as [[_ H2] | H2]; [ | done ].
  rewrite upper_PAL in H2. discriminate H2.
Qed.

Lemma calm_newFrame k synced : 0 <= k -> calm k (newFrame synced).
Proof.
  intros Hk. unfold newFrame, commit, prepare, IsStable.
  repeat first [ calm_step | by apply calm_SetSpec_PAL ].
Qed.

(** Everything Signal does before it records the signal. *)
Lemma calm_mixAudio k sg : calm k (mixAudio sg).
Proof. unfold mixAudio. repeat calm_step. Qed.

Lemma calm_examine k sg : calm k (examine sg).
Proof. unfold examine. repeat calm_step. Qed.

Lemma calm_colorClock k : 0 <= k -> calm k colorClock.
Proof.
  intros Hk. unfold colorClock, newScanline.
  repeat first [ calm_step | by apply calm_newFrame ].
Qed.

Lemma calm_checkVSync k sg : 0 <= k -> calm k (checkVSync sg).
Proof.
  intros Hk. unfold checkVSync.
  repeat first [ calm_step | by apply calm_newFrame ].
Qed.

Lemma calm_checkHSync k sg : calm k (checkHSync sg).
Proof. unfold checkHSync. repeat calm_step. Qed.

Lemma calm_setPixels k sg : calm k (setPixels sg).
Proof. unfold setPixels. repeat calm_step. Qed.

(** Recording the signal moves the cursor by one. *)
Lemma recordSignal_ends k sg :
  0 <= k < max_int ->
  hoare (steady k) (recordSignal sg) (steady (k + 1)).
Proof.
  intros Hk m (Hw & Hi & Hl). rewrite recordSignal_unfold. cbv zeta.
  set (m1 := upd (set_lastSignal sg) m).
  assert (slice_wf (signalHistory (live m1))) as Hw1 by (unfold m1; by simp_mach).
  assert (signalHistoryIdx (live m1) = signalHistoryIdx (live m)) as Hi1
    by (unfold m1; by simp_mach).
  assert (signalHistory (live m1) = signalHistory (live m)) as Hh1
    by (unfold m1; by simp_mach).
  set (e := Build_signalHistoryEntry _ _ _).
  pose proof (writeHistory_view (signalHistoryIdx (live m1)) e m1 Hw1)
    as (Hsc & _ & _ & _ & _ & _ & _ & _ & Hw2 & Hcase).
  cbv zeta in *.
  set (w := writeHistory (signalHistoryIdx (live m1)) e m1) in *.
  unfold len in Hcase. rewrite Hi1, Hh1 in Hcase.
  assert (signalHistoryIdx (live (fst w)) = signalHistoryIdx (live m)) as Hi2.
  { rewrite <- Hi1.
    change (signalHistoryIdx (scalars (live (fst w))) =
            signalHistoryIdx (scalars (live m1))).
    by rewrite Hsc. }
  assert (snd w = Ret tt /\
          signalHistoryIdx (live m) + 1 <= s_len (signalHistory (live (fst w))))
    as [Ho Hl2].
  { destruct (s_len (signalHistory (live m)) <=? signalHistoryIdx (live m)) eqn:Hc.
    - apply Z.leb_le in Hc. destruct Hcase as (? & -> & _). split; [ done | lia ].
    - apply Z.leb_gt in Hc.
      replace (0 <=? signalHistoryIdx (live m)) with true in Hcase
        by (symmetry; apply Z.leb_le; lia).
      destruct Hcase as (? & -> & _). split; [ done | lia ]. }
  rewrite Ho. cbn [fst snd].
  split; [ | exact I ]. unfold steady. simp_mach.
  split; [ done | ].
  rewrite Hi2, incr_small by (unfold min_int; lia). lia.
Qed.

Lemma steady_mono k k' m : k <= k' -> steady k m -> steady k' m.
Proof. intros Hk (Hw & Hi & Hl). split; [ done | lia ]. Qed.

Lemma Signal_ends k sg :
  0 <= k < max_int -> hoare (steady k) (Signal sg) (steady (k + 1)).
Proof.
  intros Hk. unfold Signal.
  assert (forall m, steady k m -> steady (k + 1) m) as Hm
    by (intros m; apply steady_mono; lia).
  apply (hoare_bind _ (steady k)); [ apply calm_mixAudio | intros _ | done ].
  apply (hoare_bind _ (steady k)); [ apply calm_examine | intros _ | done ].
  apply (hoare_bind _ (steady k)); [ apply calm_colorClock; lia | intros _ | done ].
  apply (hoare_bind _ (steady k)); [ apply calm_checkVSync; lia | intros _ | done ].
  apply (hoare_bind _ (steady k)); [ apply calm_checkHSync | intros _ | done ].
  apply (hoare_bind _ (steady k)); [ apply calm_setPixels | intros _ | done ].
  by apply recordSignal_ends.
Qed.

Lemma run_ends k sgs :
  0 <= k -> k + Z.of_nat (length sgs) <= max_int ->
  hoare (steady k) (run sgs) (steady (k + Z.of_nat (length sgs))).
Proof.
  revert k. induction sgs as [|sg sgs IH]; intros k Hk Hn; simpl.
  - intros m H. split; [ | done ]. cbn [fst ret]. eapply steady_mono; [ | exact H ]. lia.
  - cbn [length] in *. rewrite Nat2Z.inj_succ in *.
    assert (0 <= k + 1) as Hk1 by lia.
    assert (k + 1 + Z.of_nat (length sgs) <= max_int) as Hn1 by lia.
    apply (hoare_bind _ (steady (k + 1))).
    + apply Signal_ends. lia.
    + intros _. intros m H. destruct (IH (k + 1) Hk1 Hn1 m H) as [H1 H2].
      split; [ | done ]. eapply steady_mono; [ | exact H1 ]. lia.
    + intros m. apply steady_mono. lia.
Qed.

Lemma NewReference_steady requested m0 :
  NewReference requested = (m0, Ret tt) -> steady 0 m0.
Proof.
  unfold NewReference. set (tv0 := Build_machine _ _ _ _ _ _ _ _ _ _ _).
  assert (live tv0 = zeroState) as Hz by apply lookup_total_singleton_eq.
  assert (steady 0 tv0) as H0.
  { unfold steady, slice_wf. rewrite Hz. cbn. repeat split; first [ lia | done ]. }
  destruct (SetSpec_ends requested 0 tv0 ltac:(lia) H0) as [H1 _].
  unfold bind. destruct (SetSpec requested tv0) as [m1 [[]|e|]]; try done.
  by intros [= <-].
Qed.

(** ** What a signal leaves in the history *)

Lemma calm_upToPixels k sg : 0 <= k -> calm k (upToPixels sg).
Proof.
  intros Hk. unfold upToPixels.
  repeat first
    [ apply calm_mixAudio | apply calm_examine | by apply calm_colorClock
    | by apply calm_checkVSync | apply calm_checkHSync
    | apply calm_bind; [ | intros _ ] ].
Qed.

(** A television made by NewReference and sent [n] signals since. *)
Definition running (n : nat) (m : machine) : Prop :=
  exists requested m0 sgs,
    NewReference requested = (m0, Ret tt) /\ run sgs m0 = (m, Ret tt) /\
    length sgs = n.

Lemma running_steady n m :
  running n m -> Z.of_nat n <= max_int -> steady (Z.of_nat n) m.
Proof.
  intros (requested & m0 & sgs & H0 & Hr & <-) Hn.
  apply NewReference_steady in H0.
  destruct (run_ends 0 sgs ltac:(lia) ltac:(lia) m0 H0) as [Hs _].
  by rewrite Hr in Hs.
Qed.

(** A Signal call that returns nil has recorded the signal: it is the last
    signal of the state, the write cursor has moved by one and stays within
    the history, and the entry under the cursor's old place holds the signal
    with the coordinates the call has left. *)
Theorem signal_is_recorded n sg m m' :
  running n m -> Z.of_nat n < max_int ->
  Signal sg m = (m', Ret tt) ->
  let s' := live m' in
  lastSignal s' = sg /\
  0 < signalHistoryIdx s' <= s_len (signalHistory s') /\
  contents m' (signalHistory s') !! Z.to_nat (signalHistoryIdx s' - 1) =
    Some {| x := horizPos s'; y := scanline s'; sig := sg |}.
Proof.
  intros Hrun Hn H. cbv zeta.
  apply running_steady in Hrun; [ | lia ]. set (k := Z.of_nat n) in *.
  assert (0 <= k) as Hk by lia.
  apply Signal_stages in H as (m5 & m6 & H5 & H6 & H7).
  pose proof (calm_upToPixels k sg Hk m Hrun) as [Hs5 _]. rewrite H5 in Hs5.
  pose proof (calm_setPixels k sg m5 Hs5) as [Hs6 _]. rewrite H6 in Hs6.
  cbn [fst] in *. clear H5 H6 Hrun. destruct Hs6 as (Hw & Hi & Hl).
  rewrite recordSignal_unfold in H7. cbv zeta in H7.
  set (m1 := upd (set_lastSignal sg) m6) in *.
  assert (slice_wf (signalHistory (live m1))) as Hw1 by (unfold m1; by simp_mach).
  assert (signalHistoryIdx (live m1) = signalHistoryIdx (live m6)) as Hi1
    by (unfold m1; by simp_mach).
  assert (signalHistory (live m1) = signalHistory (live m6)) as Hh1
    by (unfold m1; by simp_mach).
  assert (lastSignal (live m1) = sg) as Hg1 by (unfold m1; by simp_mach).
  set (e := Build_signalHistoryEntry _ _ _) in *.
  pose proof (writeHistory_view (signalHistoryIdx (live m1)) e m1 Hw1)
    as (Hsc & _ & _ & _ & _ & _ & _ & _ & Hw2 & Hcase).
  cbv zeta in *.
  set (w := writeHistory (signalHistoryIdx (live m1)) e m1) in *.
  unfold len in Hcase. rewrite Hi1, Hh1 in Hcase.
  assert (forall f : state -> Z, f (scalars (live (fst w))) = f (scalars (live m1))) as Hf
    by (intros f; by rewrite Hsc).
  pose proof (Hf signalHistoryIdx) as Hx. pose proof (Hf horizPos) as Hhp.
  pose proof (Hf scanline) as Hsl. simp_state_all.
  assert (lastSignal (live (fst w)) = sg) as Hg.
  { rewrite <- Hg1. change (lastSignal (scalars (live (fst w))) = lastSignal (scalars (live m1))).
    by rewrite Hsc. }
  assert (snd w = Ret tt /\
          signalHistoryIdx (live m6) + 1 <= s_len (signalHistory (live (fst w))) /\
          contents (fst w) (signalHistory (live (fst w))) !!
            Z.to_nat (signalHistoryIdx (live m6)) = Some e) as (Ho & Hl2 & He).
  { destruct Hw as [Hpos _].
    destruct (s_len (signalHistory (live m6)) <=? signalHistoryIdx (live m6)) eqn:Hc.
    - apply Z.leb_le in Hc. destruct Hcase as (? & Hlen & ->).
      rewrite Hlen. split; [ done | ]. split; [ lia | ].
      replace (signalHistoryIdx (live m6)) with (s_len (signalHistory (live m6))) by lia.
      rewrite <- (contents_length m1 (signalHistory (live m6))) by lia.
      by rewrite list_lookup_middle.
    - apply Z.leb_gt in Hc.
      replace (0 <=? signalHistoryIdx (live m6)) with true in Hcase
        by (symmetry; apply Z.leb_le; lia).
      destruct Hcase as (? & Hlen & ->). rewrite Hlen.
      split; [ done | ]. split; [ lia | ].
      apply list_lookup_insert_eq. rewrite contents_length by lia. lia. }
  rewrite Ho in H7. injection H7 as <-.
  rewrite contents_upd. simp_mach.
  rewrite Hx, Hi1, incr_small by (unfold min_int; lia).
  split; [ done | ]. split; [ lia | ].
  replace (signalHistoryIdx (live m6) + 1 - 1) with (signalHistoryIdx (live m6)) by lia.
  rewrite He. unfold e. by rewrite Hhp, Hsl.
Qed.

End Outcomes.

(** ** Which collaborators are called *)

Section Wiring.
Context `{E : Env}.

(** The fields of the television that no call of Signal assigns to. *)
Definition wiring (m : machine) :=
  (reqSpecID m, renderers m, refreshers m, frameTriggers m, mixers m, tv_state m).

(** A computation that leaves the wiring alone and whose calls on
    collaborators all satisfy [P]. *)
Definition logs {X} (P : Call -> Prop) (c : M X) : Prop :=
  forall m,
    wiring (fst (c m)) = wiring m /\
    exists cs, calls (fst (c m)) = calls m ++ cs /\ Forall P cs.

Section Logs.
Variable P : Call -> Prop.

Lemma logs_emits {X} (c : M X) : emits P c -> logs P c.
Proof. intros Hc m. destruct (Hc m) as (cs & -> & HP). split; [ done | by exists cs ]. Qed.

Lemma logs_still {X} (c : M X) :
  (forall m, wiring (fst (c m)) = wiring m /\ calls (fst (c m)) = calls m) -> logs P c.
Proof.
  intros Hc m. destruct (Hc m) as [Hw Hl]. split; [ done | ].
  exists []. by rewrite app_nil_r.
Qed.

Lemma logs_ret {X} (a : X) : logs P (ret a).
Proof. by apply logs_still. Qed.

Lemma logs_fail {X} e : logs P (fail e : M X).
Proof. by apply logs_still. Qed.

Lemma logs_gets {X} (f : state -> X) : logs P (gets f).
Proof. by apply logs_still. Qed.

Lemma logs_reads {X} (f : machine -> X) : logs P (reads f).
Proof. by apply logs_still. Qed.

Lemma logs_modify f : logs P (modify f).
Proof. by apply logs_still. Qed.

Lemma logs_set_resizer r : logs P (fun m => (set_resizer r m, Ret tt)).
Proof. by apply logs_still. Qed.

Lemma logs_call c : P c -> logs P (call c).
Proof. intros Hc. apply logs_emits. by apply emits_call. Qed.

Lemma logs_bind {X Y} (c : M X) (f : X -> M Y) :
  logs P c -> (forall a, logs P (f a)) -> logs P (bind c f).
Proof.
  intros Hc Hf m. unfold bind. destruct (Hc m) as (Hw & cs & Hcs & HP).
  destruct (c m) as [m1 [a|e|]]; cbn [fst snd] in *; try (split; [ done | by exists cs ]).
  destruct (Hf a m1) as (Hw' & cs' & Hcs' & HP'). split; [ congruence | ].
  exists (cs ++ cs'). split; [ by rewrite Hcs', Hcs, app_assoc | by apply Forall_app ].
Qed.

Lemma logs_discard c : logs P c -> logs P (discard c).
Proof.
  intros Hc m. unfold discard. specialize (Hc m). by destruct (c m) as [m1 [a|e|]].
Qed.

Lemma logs_forEach {X} (l : list X) (body : X -> M unit) :
  (forall i, logs P (body i)) -> logs P (forEach l body).
Proof.
  intros Hb. induction l as [|i l IH]; simpl.
  - apply logs_ret.
  - apply logs_bind; auto.
Qed.

Lemma logs_make n : logs P (assignHistory (make n)).
Proof.
  apply logs_still. intros m. unfold assignHistory, bind, make, modify.
  by destruct (n <? 0).
Qed.

Lemma logs_write i e : logs P (writeHistory i e).
Proof.
  apply logs_still. intros m. unfold writeHistory, assignHistory, bind, gets.
  destruct (len (signalHistory (live m)) <=? i).
  - unfold append, modify.
    destruct (s_ptr (signalHistory (live m))) as [p|]; [ | done ].
    by destruct (len (signalHistory (live m)) <? _).
  - unfold store.
    destruct (s_ptr (signalHistory (live m))) as [p|]; [ | done ].
    by destruct ((0 <=? i) && _).
Qed.

End Logs.

Ltac logs_step :=
  lazymatch goal with
  | |- logs _ (assignHistory (make _)) => apply logs_make
  | |- logs _ (writeHistory _ _) => apply logs_write
  | |- logs _ (bind _ _) => apply logs_bind; [ | intros ? ]
  | |- logs _ (ret _) => apply logs_ret
  | |- logs _ (fail _) => apply logs_fail
  | |- logs _ (gets _) => apply logs_gets
  | |- logs _ (reads _) => apply logs_reads
  | |- logs _ (discard _) => apply logs_discard
  | |- logs _ (call _) => apply logs_call; reflexivity
  | |- logs _ (fun m => (set_resizer _ m, Ret tt)) => apply logs_set_resizer
  | |- logs _ (modify _) => apply logs_modify
  | |- logs _ (forEach _ _) => apply logs_forEach; intros ?
  | |- logs _ (let '(_, _) := ?p in _) => destruct p as [? ?]
  | |- logs _ (match ?p with (_, _) => _ end) => destruct p as [? ?]
  | |- logs _ (if ?b then _ else _) => destruct b
  end.

Definition is_SetPixel (c : Call) : bool :=
  match c with SetPixel _ _ _ _ _ => true | _ => false end.

Definition is_Resize (c : Call) : bool :=
  match c with Resize _ _ _ _ => true | _ => false end.

(** SetSpec calls Resize and nothing else. *)
Lemma logs_SetSpec requested : logs (fun c => is_Resize c = true) (SetSpec requested).
Proof. unfold SetSpec, prepare. repeat logs_step. Qed.

Lemma logs_upToPixels sg : logs (fun c => is_SetPixel c = false) (upToPixels sg).
Proof.
  unfold upToPixels, mixAudio, examine, colorClock, checkVSync, checkHSync,
    newScanline, newFrame, SetSpec, commit, prepare, IsStable.
  repeat logs_step.
Qed.

Lemma logs_Signal sg : logs (fun _ => True) (Signal sg).
Proof.
  unfold Signal, mixAudio, examine, colorClock, checkVSync, checkHSync, setPixels,
    recordSignal, newScanline, newFrame, SetSpec, commit, prepare, IsStable.
  repeat logs_step.
Qed.

Lemma logs_run sgs : logs (fun _ => True) (run sgs).
Proof.
  induction sgs as [|sg sgs IH]; simpl.
  - apply logs_ret.
  - apply logs_bind; [ apply logs_Signal | intros _; apply IH ].
Qed.

(** A loop that calls one method on every collaborator of a list and
    returns nil has called them all, in order. *)
Lemma forEach_calls {X} (l : list X) (body : X -> M unit) (F : X -> Call) m :
  (forall i cs, body i (emit cs m) = call (F i) (emit cs m)) ->
  snd (forEach l body m) = Ret tt ->
  fst (forEach l body m) = emit (map F l) m.
Proof.
  intros Hb.
  assert (forall cs0, snd (forEach l body (emit cs0 m)) = Ret tt ->
            fst (forEach l body (emit cs0 m)) = emit (cs0 ++ map F l) m) as Hgen.
  { induction l as [|i l IH]; intros cs0; simpl.
    - intros _. by rewrite app_nil_r.
    - unfold bind. rewrite Hb. unfold call at 1 2.
      destruct (fails (calls (emit cs0 m)) (F i)); [ done | ].
      rewrite emit_emit. intros Hl. rewrite (IH _ Hl). by rewrite <- app_assoc. }
  intros Hl. specialize (Hgen []). rewrite emit_nil in Hgen. by apply Hgen.
Qed.

(** What a state keeps when the signal is recorded. *)
Lemma recordSignal_keeps sg m :
  let s' := live (fst (recordSignal sg m)) in
  horizPos s' = horizPos (live m) /\ scanline s' = scanline (live m) /\
  spec s' = spec (live m) /\ frameNum s' = frameNum (live m) /\
  lastSignal s' = sg /\
  calls (fst (recordSignal sg m)) = calls m.
Proof.
  cbv zeta. rewrite recordSignal_unfold. cbv zeta.
  set (m1 := upd (set_lastSignal sg) m). set (e := Build_signalHistoryEntry _ _ _).
  assert (forall i,
    let m2 := fst (writeHistory i e m1) in
    horizPos (live m2) = horizPos (live m) /\ scanline (live m2) = scanline (live m) /\
    spec (live m2) = spec (live m) /\ frameNum (live m2) = frameNum (live m) /\
    lastSignal (live m2) = sg /\
    calls m2 = calls m) as Hw.
  { intros i. cbv zeta. unfold writeHistory, assignHistory, bind, gets.
    destruct (len (signalHistory (live m1)) <=? i).
    - unfold append, modify.
      destruct (s_ptr (signalHistory (live m1))) as [p|]; cbn [fst snd].
      + destruct (len (signalHistory (live m1)) <? _); cbn [fst snd];
          unfold m1; by simp_mach.
      + unfold m1. by simp_mach.
    - unfold store.
      destruct (s_ptr (signalHistory (live m1))) as [p|];
        [ | cbn [fst]; unfold m1; by simp_mach ].
      destruct ((0 <=? i) && _); cbn [fst]; unfold m1; by simp_mach. }
  specialize (Hw (signalHistoryIdx (live m1))). cbv zeta in Hw.
  destruct (snd (writeHistory _ e m1)); cbn [fst]; try done.
  by simp_mach.
Qed.

(** Signal calls SetPixel once on every renderer, in the order of their
    registration and after any other call it makes, with the coordinates
    that the call leaves and the color of the signal in the specification
    that the call leaves. *)
Theorem pixel_reaches_every_renderer sg m m' :
  Signal sg m = (m', Ret tt) ->
  let s' := live m' in
  exists before,
    calls m' =
      calls m ++ before ++
      map (fun f => SetPixel f (horizPos s') (scanline s')
                      (getColor (spec s') (Pixel sg)) (VBlank sg))
          (renderers m) /\
    Forall (fun c => is_SetPixel c = false) before /\
    renderers m' = renderers m.
Proof.
  intros H. cbv zeta.
  destruct (logs_Signal sg m) as (Hw & _). rewrite H in Hw. cbn [fst] in Hw.
  apply Signal_stages in H as (m5 & m6 & H5 & H6 & H7).
  destruct (logs_upToPixels sg m) as (Hw5 & before & Hc5 & HP5).
  rewrite H5 in Hw5, Hc5. cbn [fst] in *.
  assert (renderers m5 = renderers m) as Hr5 by (unfold wiring in Hw5; congruence).
  pose proof (forEach_calls (renderers m5)
    (fun f => hp <- gets horizPos ;; sl <- gets scanline ;;
              call (SetPixel f hp sl (getColor (spec (live m5)) (Pixel sg)) (VBlank sg)))
    (fun f => SetPixel f (horizPos (live m5)) (scanline (live m5))
                (getColor (spec (live m5)) (Pixel sg)) (VBlank sg))
    m5 ltac:(reflexivity)) as Hall.
  change (forEach _ _ m5) with (setPixels sg m5) in Hall.
  rewrite H6 in Hall. specialize (Hall eq_refl). cbn [fst] in Hall. subst m6.
  destruct (recordSignal_keeps sg (emit (map
      (fun f => SetPixel f (horizPos (live m5)) (scanline (live m5))
                  (getColor (spec (live m5)) (Pixel sg)) (VBlank sg))
      (renderers m5)) m5)) as (Hh & Hl & Hs & _ & _ & Hc).
  rewrite H7 in Hh, Hl, Hs, Hc. cbn [fst] in *. simp_mach_in Hh. simp_mach_in Hl.
  simp_mach_in Hs.
  exists before. rewrite Hh, Hl, Hs, Hc.
  split; [ | split; [ done | ] ].
  - unfold emit. cbn [calls set_calls]. by rewrite Hc5, Hr5, app_assoc.
  - unfold wiring in Hw. congruence.
Qed.

(** How such a loop ends: with nil after the last call, or with the error
    of the first collaborator that fails, the collaborators after it not
    being called. *)
Lemma forEach_calls_ends {X} (l : list X) (body : X -> M unit) (F : X -> Call) m :
  (forall i cs, body i (emit cs m) = call (F i) (emit cs m)) ->
  forEach l body m = (emit (map F l) m, Ret tt) \/
  exists l1 i l2,
    l = l1 ++ i :: l2 /\
    forEach l body m = (emit (map F (l1 ++ [i])) m, Err (CollaboratorError (F i))) /\
    fails (calls m ++ map F l1) (F i) = true.
Proof.
  intros Hb.
  assert (forall cs0,
    forEach l body (emit cs0 m) = (emit (cs0 ++ map F l) m, Ret tt) \/
    exists l1 i l2,
      l = l1 ++ i :: l2 /\
      forEach l body (emit cs0 m) =
        (emit (cs0 ++ map F (l1 ++ [i])) m, Err (CollaboratorError (F i))) /\
      fails (calls m ++ cs0 ++ map F l1) (F i) = true) as Hgen.
  { induction l as [|i l IH]; intros cs0; simpl.
    - left. by rewrite app_nil_r.
    - unfold bind. rewrite Hb. unfold call at 1 2.
      destruct (fails (calls (emit cs0 m)) (F i)) eqn:Hf.
      + right. exists [], i, l. simpl. rewrite emit_emit, app_nil_r.
        repeat split; done.
      + rewrite emit_emit. destruct (IH (cs0 ++ [F i])) as [-> | (l1 & j & l2 & -> & -> & Hj)].
        * left. by rewrite <- app_assoc.
        * right. exists (i :: l1), j, l2. simpl. rewrite <- !app_assoc in *.
          repeat split; done. }
  specialize (Hgen []). rewrite emit_nil in Hgen. simpl in Hgen. exact Hgen.
Qed.

(** The loop stops at the first collaborator that fails. *)
Lemma forEach_first_failure {X} (l1 : list X) i l2 (body : X -> M unit)
    (F : X -> Call) m :
  (forall i cs, body i (emit cs m) = call (F i) (emit cs m)) ->
  (forall l0 b r, l1 = l0 ++ b :: r -> fails (calls m ++ map F l0) (F b) = false) ->
  fails (calls m ++ map F l1) (F i) = true ->
  forEach (l1 ++ i :: l2) body m =
    (emit (map F (l1 ++ [i])) m, Err (CollaboratorError (F i))).
Proof.
  intros Hb.
  assert (forall cs0,
    (forall l0 b r, l1 = l0 ++ b :: r ->
       fails (calls m ++ cs0 ++ map F l0) (F b) = false) ->
    fails (calls m ++ cs0 ++ map F l1) (F i) = true ->
    forEach (l1 ++ i :: l2) body (emit cs0 m) =
      (emit (cs0 ++ map F (l1 ++ [i])) m, Err (CollaboratorError (F i)))) as Hgen.
  { induction l1 as [|j l1 IH]; intros cs0 Hok Hi; simpl.
    - unfold bind. rewrite Hb. unfold call at 1. cbn [calls emit set_calls].
      rewrite app_nil_r in Hi. rewrite Hi. by rewrite emit_emit.
    - unfold bind. rewrite Hb. unfold call at 1. cbn [calls emit set_calls].
      pose proof (Hok [] j l1 eq_refl) as Hj. simpl in Hj. rewrite app_nil_r in Hj.
      rewrite Hj. fold (emit cs0 m). fold (emit [F j] (emit cs0 m)).
      rewrite emit_emit. rewrite IH.
      + by rewrite <- app_assoc.
      + intros l0 b r ->. specialize (Hok (j :: l0) b r eq_refl).
        simpl in Hok. by rewrite <- app_assoc.
      + simpl in Hi. by rewrite <- app_assoc. }
  intros Hok Hi. specialize (Hgen []). rewrite emit_nil in Hgen. by apply Hgen.
Qed.

(** ** RestoreSnapshot *)

(** A loop that notifies every collaborator of a list. *)
Lemma forEach_notifies {X} (l : list X) (body : X -> M unit) (F : X -> Call) m cs0 :
  (forall i cs, body i (emit cs m) = notify (F i) (emit cs m)) ->
  forEach l body (emit cs0 m) = (emit (cs0 ++ map F l) m, Ret tt).
Proof.
  intros Hb. revert cs0. induction l as [|i l IH]; intros cs0; simpl.
  - by rewrite app_nil_r.
  - unfold bind. rewrite Hb. unfold notify. rewrite emit_emit, IH.
    by rewrite <- app_assoc.
Qed.

Lemma forRange_notifies {X} (l : list X) (body : Z -> X -> M unit)
    (G : Z -> X -> list Call) m i cs0 :
  (forall j e cs, body j e (emit cs m) = (emit (cs ++ G j e) m, Ret tt)) ->
  forRange i l body (emit cs0 m) =
    (emit (cs0 ++ concat (imap (fun n e => G (i + Z.of_nat n) e) l)) m, Ret tt).
Proof.
  intros Hb. revert i cs0. induction l as [|e l IH]; intros i cs0; simpl.
  - by rewrite app_nil_r.
  - unfold bind. rewrite Hb, IH. rewrite <- app_assoc, Z.add_0_r.
    do 5 f_equal. apply imap_ext. intros n e' _. simpl. f_equal. lia.
Qed.

(** What a refresher is told of the history entry [e] at index [i]: the
    entry is stale when the write cursor has not passed it. *)
Definition refreshPixels (s : state) (rs : list nat) (i : Z) (e : signalHistoryEntry) :
    list Call :=
  map (fun r => RefreshPixel r (x e) (y e) (getColor (spec s) (Pixel (sig e)))
                  (VBlank (sig e)) (signalHistoryIdx s <=? i)) rs.

(** The calls of a RestoreSnapshot of the state object at [p]. *)
Definition replay (p : loc) (m : machine) : list Call :=
  let s := states m !!! p in
  let rs := refreshers m in
  map (fun r => Refresh r true) rs ++
  concat (imap (fun n e => refreshPixels s rs (Z.of_nat n) e)
               (contents m (signalHistory s))) ++
  map (fun r => Refresh r false) rs.

Lemma RestoreSnapshot_replay p m :
  RestoreSnapshot (Some p) m = (emit (replay p m) (set_tv_state p m), Ret tt).
Proof.
  unfold RestoreSnapshot. unfold bind at 1. set (m1 := set_tv_state p m).
  unfold bind at 1, reads at 1. unfold bind at 1.
  pose proof (forEach_notifies (refreshers m1) (fun r => notify (Refresh r true))
                (fun r => Refresh r true) m1 [] ltac:(reflexivity)) as H1.
  rewrite emit_nil in H1. rewrite H1. clear H1. cbn [app].
  unfold bind at 1, gets at 1. unfold bind at 1, reads at 1.
  unfold bind at 1.
  set (s := live (emit _ m1)).
  assert (s = states m !!! p) as Hs by reflexivity.
  rewrite (forRange_notifies _ _ (fun i e => refreshPixels s (refreshers m1) i e) m1 0
             (map (fun r => Refresh r true) (refreshers m1))).
  - unfold bind at 1, reads at 1.
    pose proof (forEach_notifies (refreshers m1) (fun r => notify (Refresh r false))
                  (fun r => Refresh r false) m1) as H3.
    rewrite H3 by reflexivity. unfold replay. rewrite <- app_assoc.
    reflexivity.
  - intros j e cs. unfold bind at 1, gets at 1. cbv zeta. unfold bind at 1, reads at 1.
    apply (forEach_notifies (refreshers m1) _
             (fun r => RefreshPixel r (x e) (y e) (getColor (spec s) (Pixel (sig e)))
                         (VBlank (sig e)) (signalHistoryIdx s <=? j)) m1 cs).
    reflexivity.
Qed.

(** RestoreSnapshot of a snapshot makes the snapshot's state object the
    state of the television, without a copy, and replays the whole of its
    history to the refreshers: a Refresh(true), every entry of the history in
    order, for every refresher, marked stale from the write cursor on, and a
    Refresh(false). It always returns, and touches nothing else. *)
Theorem restore_replays_the_history p m :
  RestoreSnapshot (Some p) m = (emit (replay p m) (set_tv_state p m), Ret tt) /\
  length (replay p m) =
    (length (refreshers m) *
     (2 + length (contents m (signalHistory (states m !!! p)))))%nat.
Proof.
  split; [ apply RestoreSnapshot_replay | ].
  unfold replay. cbv zeta. rewrite !length_app, !length_map.
  assert (forall (l : list signalHistoryEntry) (f : nat -> signalHistoryEntry -> list Call) k,
            (forall n e, length (f n e) = k) ->
            length (concat (imap f l)) = (k * length l)%nat) as Hcount.
  { intros l. induction l as [|e l IH]; intros f k Hf; simpl.
    - lia.
    - rewrite length_app, Hf, (IH _ k); [ lia | ]. intros n e'. apply Hf. }
  rewrite (Hcount _ _ (length (refreshers m))).
  - lia.
  - intros n e. unfold refreshPixels. by rewrite length_map.
Qed.

(** After a RestoreSnapshot the television works on the snapshot's state
    object itself: a run of signals that return nil leaves the pointer
    where it is, and the object holds the last signal sent. A snapshot that
    has been restored is not the state it was taken in any more. *)
Theorem restored_snapshot_is_written p m sgs sg m' :
  run (sgs ++ [sg]) (fst (RestoreSnapshot (Some p) m)) = (m', Ret tt) ->
  tv_state m' = p /\ live m' = states m' !!! p /\ lastSignal (states m' !!! p) = sg.
Proof.
  rewrite RestoreSnapshot_replay. cbn [fst]. intros H.
  destruct (logs_run (sgs ++ [sg]) (emit (replay p m) (set_tv_state p m))) as (Hw & _).
  rewrite H in Hw. cbn [fst] in Hw.
  assert (tv_state m' = p) as Hp by (unfold wiring in Hw; by injection Hw).
  split; [ done | ]. unfold live at 1. rewrite Hp. split; [ done | ].
  apply run_snoc in H as (m1 & _ & H1).
  apply Signal_stages in H1 as (m5 & m6 & _ & _ & H7).
  destruct (recordSignal_keeps sg m6) as (_ & _ & _ & _ & Hl & _).
  rewrite H7 in Hl. cbn [fst] in Hl. unfold live in Hl. by rewrite Hp in Hl.
Qed.

(** ** newFrame and the frame triggers *)

(** One statement of a computation whose calls are collected since [m0]. *)
Lemma wp_logs {X} (P : Call -> Prop) (c : M X) m0 m acc
    (Q : machine -> outcome X -> Prop) :
  logs P c ->
  wiring m = wiring m0 -> calls m = calls m0 ++ acc -> Forall P acc ->
  (forall m1 o acc',
     wiring m1 = wiring m0 -> calls m1 = calls m0 ++ acc' -> Forall P acc' -> Q m1 o) ->
  wp c m Q.
Proof.
  intros Hc Hw Hl HP HQ. unfold wp. destruct (Hc m) as (Hw1 & cs & Hcs & HP1).
  apply (HQ _ _ (acc ++ cs)).
  - congruence.
  - by rewrite Hcs, Hl, app_assoc.
  - by apply Forall_app.
Qed.

Lemma newFrame_calls synced m :
  wp (newFrame synced) m (fun m' o =>
    o = Ret tt ->
    exists before,
      calls m' =
        calls m ++ before ++
        map (fun f => NewFrame f (frameNum (live m'))
                        (stabilityThreshold <=? syncedFrameNum (live m')))
            (frameTriggers m) /\
      Forall (fun c => is_Resize c = true) before).
Proof.
  assert (wiring m = wiring m) as Hw by done.
  assert (calls m = calls m ++ []) as Hl by (by rewrite app_nil_r).
  assert (Forall (fun c => is_Resize c = true) []) as HP by constructor.
  revert Hw Hl HP. generalize (@nil Call) as acc. generalize m at 1 3 5 as m1.
  unfold newFrame.
  repeat lazymatch goal with
  | |- forall _, _ => intros ?
  | Hw : wiring ?m1 = wiring m, Hl : calls ?m1 = calls m ++ ?acc, HP : Forall _ ?acc
    |- wp (bind (reads frameTriggers) _) ?m1 _ => fail
  | Hw : wiring ?m1 = wiring m, Hl : calls ?m1 = calls m ++ ?acc, HP : Forall _ ?acc
    |- wp (bind _ _) ?m1 _ =>
      apply wp_bind;
      apply (wp_logs (fun c => is_Resize c = true) _ m m1 acc);
      [ unfold SetSpec, commit, prepare; solve [ repeat logs_step ]
      | exact Hw | exact Hl | exact HP | ];
      clear Hw Hl HP m1 acc; intros m1 [?|?|] acc Hw Hl HP; [ | by intros ? .. ]
  end.
  apply wp_bind, wp_reads, wp_bind.
  unfold wp.
  match goal with
  | |- context [forEach ?l ?b ?mm] =>
      destruct (forEach l b mm) as [m2 [[]|?|]] eqn:Hloop
  end; cbn [fst snd]; try by intros ?.
  intros _. exists acc.
  pose proof (forEach_calls (frameTriggers m1)
    (fun f => fn <- gets frameNum ;; stable <- IsStable ;; call (NewFrame f fn stable))
    (fun f => NewFrame f (frameNum (live m1)) (stabilityThreshold <=? syncedFrameNum (live m1)))
    m1 ltac:(reflexivity)) as Hall.
  rewrite Hloop in Hall. specialize (Hall eq_refl). cbn [fst] in Hall. subst m2.
  split; [ | done ]. unfold modify. cbn [fst]. simp_mach.
  unfold upd, emit. cbn [calls set_calls set_states].
  unfold wiring in Hw. injection Hw as _ _ _ Hft _ _.
  by rewrite Hl, Hft, <- app_assoc.
Qed.

(** A newFrame that returns nil starts the next frame: the frame counter
    has advanced by one, the scanline and the write cursor of the history
    are back at zero, and every frame trigger has been told, in the order
    of registration and after the resizes of the renderers, the new frame
    number and whether the television is stable. *)
Theorem frame_triggers_hear_every_frame `{!EnvOk E} synced m m' :
  newFrame synced m = (m', Ret tt) ->
  let s' := live m' in
  frameNum s' = incr (frameNum (live m)) /\
  scanline s' = 0 /\ signalHistoryIdx s' = 0 /\ syncedFrame s' = synced /\
  exists before,
    calls m' =
      calls m ++ before ++
      map (fun f => NewFrame f (incr (frameNum (live m)))
                      (stabilityThreshold <=? syncedFrameNum s'))
          (frameTriggers m) /\
    Forall (fun c => is_Resize c = true) before.
Proof.
  intros H s'.
  pose proof (wp_run _ _ _ _ _ (newFrame_post synced m) H) as (_ & _ & _ & _ & _ & _ & Hc).
  apply core_fields in Hc as (_ & _ & _ & Hf & Hl & _ & Hy & _ & _ & Hi); [ | done ].
  destruct (newFrameEffect_frame synced (live m)) as (Ef & El & Ey & Ei).
  rewrite Ef in Hf. rewrite El in Hl. rewrite Ey in Hy. rewrite Ei in Hi.
  repeat split; try done.
  destruct (wp_run _ _ _ _ _ (newFrame_calls synced m) H eq_refl) as (before & Hcs & Hb).
  exists before. fold s' in Hcs. by rewrite <- Hf.
Qed.

(** ** An audio mixer that fails *)

(** A signal with an audio update whose first failing mixer is [a]: Signal
    returns the error of [a] at once. The mixers registered before [a] have
    been given the audio data, those after it have not, and nothing else
    has happened: the beam has not moved, no renderer has been called and
    the signal is not recorded. *)
Theorem failing_mixer_stops_the_signal sg m l1 a l2 :
  let F := fun f => SetAudio f (AudioData sg) in
  AudioUpdate sg = true ->
  mixers m = l1 ++ a :: l2 ->
  (forall l0 b r, l1 = l0 ++ b :: r -> fails (calls m ++ map F l0) (F b) = false) ->
  fails (calls m ++ map F l1) (F a) = true ->
  Signal sg m = (emit (map F (l1 ++ [a])) m, Err (CollaboratorError (F a))).
Proof.
  intros F Hau Hm Hok Ha.
  unfold Signal, mixAudio. rewrite Hau. unfold bind at 1 2. unfold reads at 1.
  rewrite Hm. by rewrite (forEach_first_failure l1 a l2 _ F m).
Qed.

(** ** SetSpec *)

Lemma wp_forEach_calls {X} (l : list X) (body : X -> M unit) (F : X -> Call) m
    (Q : machine -> outcome unit -> Prop) :
  (forall i cs, body i (emit cs m) = call (F i) (emit cs m)) ->
  Q (emit (map F l) m) (Ret tt) ->
  (forall l1 i l2,
     l = l1 ++ i :: l2 -> fails (calls m ++ map F l1) (F i) = true ->
     Q (emit (map F (l1 ++ [i])) m) (Err (CollaboratorError (F i)))) ->
  wp (forEach l body) m Q.
Proof.
  intros Hb Hr He. unfold wp.
  destruct (forEach_calls_ends l body F m Hb) as [-> | (l1 & i & l2 & Hl & -> & Hf)].
  - exact Hr.
  - by apply (He l1 i l2).
Qed.

(** The ids SetSpec accepts, after [strings.ToUpper]. *)
Definition supported (id : string) : bool :=
  String.eqb id "NTSC" || String.eqb id "PAL" || String.eqb id "AUTO".

(** The resize that SetSpec asks of a renderer. *)
Definition resizeTo (s : state) (f : nat) : Call :=
  Resize f (spec s) (top s) (sub (bottom s) (top s)).

Lemma resize_body f cs m :
  (sp <- gets spec ;; t <- gets top ;; b <- gets bottom ;;
   call (Resize f sp t (sub b t))) (emit cs m) =
  call (resizeTo (live m) f) (emit cs m).
Proof. reflexivity. Qed.

(** SetSpec, however it ends. *)
Lemma SetSpec_result requested m :
  wp (SetSpec requested) m (fun m' o =>
    let id := ToUpper requested in
    let s' := live m' in
    wiring m' = wiring m /\
    match o with
    | Ret _ =>
      supported id = true /\
      spec s' = (if String.eqb id "PAL" then SpecPAL else SpecNTSC) /\
      auto s' = String.eqb id "AUTO" /\
      scalar_frame (live m) s' /\
      signalHistoryIdx s' = 0 /\
      s_len (signalHistory s') = mul HorizClksScanline (sub (bottom s') (top s')) /\
      Forall (fun e => e = noEntry) (contents m' (signalHistory s')) /\
      calls m' = calls m ++ map (resizeTo s') (renderers m)
    | Err e =>
      (e = UnsupportedSpec requested /\ supported id = false /\ m' = m) \/
      (supported id = true /\
       signalHistory s' = signalHistory (live m) /\
       signalHistoryIdx s' = signalHistoryIdx (live m) /\
       exists l1 f l2,
         renderers m = l1 ++ f :: l2 /\
         e = CollaboratorError (resizeTo s' f) /\
         calls m' = calls m ++ map (resizeTo s') (l1 ++ [f]))
    | Panic => mul HorizClksScanline (sub (bottom s') (top s')) < 0
    end).
Proof.
  unfold SetSpec, prepare, assignHistory, supported, scalar_frame.
  repeat first
    [ lazymatch goal with
      | |- wp (forEach _ _) ?mk _ =>
          apply (wp_forEach_calls _ _ (resizeTo (live mk)) mk);
          [ intros; apply resize_body | | intros l1 f l2 Hl Hf ]
      end
    | wp_step ].
  all: cbv zeta; bool_facts.
  all: repeat match goal with H : ToUpper _ = _ |- _ => rewrite H in * end.
  all: use_conditions; cbn [orb String.eqb Ascii.eqb Bool.eqb andb].
  all: simp_mach.
  all: try (split; [ reflexivity | ]).
  all: try (left; repeat split; reflexivity).
  all: try (right; split; [ reflexivity | split; [ reflexivity | split; [ reflexivity | ] ] ];
            exists l1, f, l2; simp_mach_in Hl; repeat split; done).
  all: try assumption.
  all: repeat split; try reflexivity.
  all: try (rewrite !contents_upd; unfold contents; rewrite backing_alloc;
            apply Forall_fmap, Forall_forall; intros ? _; apply read_zeros).
Qed.

(** A SetSpec that returns nil: the id, in upper case, is one of NTSC, PAL
    and AUTO; PAL selects the PAL specification and the others NTSC, and
    only AUTO turns auto-detection on; every renderer has been asked, in
    the order of registration and once each, to resize to the new
    specification and bounds; the history is a new one of
    [HorizClksScanline * (bottom - top)] empty entries with the write
    cursor at its start; the counters, the last signal and the
    registrations are as they were. *)
Theorem set_spec_installs_the_specification requested m m' :
  SetSpec requested m = (m', Ret tt) ->
  let id := ToUpper requested in
  let s' := live m' in
  supported id = true /\
  spec s' = (if String.eqb id "PAL" then SpecPAL else SpecNTSC) /\
  auto s' = String.eqb id "AUTO" /\
  scalar_frame (live m) s' /\
  wiring m' = wiring m /\
  calls m' = calls m ++ map (resizeTo s') (renderers m) /\
  signalHistoryIdx s' = 0 /\
  contents m' (signalHistory s') =
    replicate (Z.to_nat (mul HorizClksScanline (sub (bottom s') (top s')))) noEntry.
Proof.
  intros H id s'.
  destruct (wp_run _ _ _ _ _ (SetSpec_result requested m) H)
    as (Hw & Hs & Hsp & Ha & Hf & Hi & Hl & Hz & Hc).
  subst id s'. do 7 (split; [ done | ]).
  symmetry. apply replicate_as_Forall. split.
  - unfold contents. by rewrite length_fmap, length_seqZ, Hl.
  - eapply Forall_impl; [ exact Hz | ]. by intros e ->.
Qed.

(** ** NewReference and Reset *)

Lemma NewReference_result requested m0 :
  NewReference requested = (m0, Ret tt) ->
  let id := ToUpper requested in
  supported id = true /\
  reqSpecID m0 = id /\
  spec (live m0) = (if String.eqb id "PAL" then SpecPAL else SpecNTSC) /\
  auto (live m0) = String.eqb id "AUTO" /\
  calls m0 = [] /\
  renderers m0 = [] /\ refreshers m0 = [] /\ frameTriggers m0 = [] /\ mixers m0 = [].
Proof.
  unfold NewReference. set (tv0 := Build_machine _ _ _ _ _ _ _ _ _ _ _).
  unfold bind. destruct (SetSpec requested tv0) as [m1 [[]|e|]] eqn:HS; try done.
  cbv zeta. intros [= <-].
  destruct (wp_run _ _ _ _ _ (SetSpec_result requested tv0) HS)
    as (Hw & Hs & Hsp & Ha & _ & _ & _ & _ & Hc).
  unfold wiring in Hw. injection Hw as Hid _ Hrf Hft Hmx _.
  change (live (set_renderers [] m1)) with (live m1).
  cbn [reqSpecID renderers refreshers frameTriggers mixers calls set_renderers].
  rewrite Hid, Hrf, Hft, Hmx, Hc. done.
Qed.

Section Lifecycle.
Context `{!EnvOk E} `{!RoomOk E}.

(** NewReference accepts the ids that are NTSC, PAL or AUTO in upper case
    and no other. For one of them it returns a television with that
    specification (NTSC for AUTO, with auto-detection on), nothing
    registered and no call made; for any other id it returns the
    unsupported-specification error. It never panics. *)
Theorem new_reference_accepts_three_ids requested :
  let id := ToUpper requested in
  if supported id then
    exists m0,
      NewReference requested = (m0, Ret tt) /\
      reqSpecID m0 = id /\
      spec (live m0) = (if String.eqb id "PAL" then SpecPAL else SpecNTSC) /\
      auto (live m0) = String.eqb id "AUTO" /\
      core (live m0) = core (set_auto (auto (live m0)) (set_spec (spec (live m0)) zeroState)) /\
      calls m0 = [] /\
      renderers m0 = [] /\ refreshers m0 = [] /\ frameTriggers m0 = [] /\ mixers m0 = []
  else
    snd (NewReference requested) = Err (UnsupportedSpec requested).
Proof.
  intros id.
  destruct (NewReference requested) as [m0 o] eqn:HN.
  assert (o <> Panic /\
          forall e, o = Err e -> e = UnsupportedSpec requested /\ supported id = false)
    as [Hp He].
  { revert HN. unfold NewReference. set (tv0 := Build_machine _ _ _ _ _ _ _ _ _ _ _).
    assert (live tv0 = zeroState) as Hz by apply lookup_total_singleton_eq.
    assert (steady 0 tv0) as H0.
    { unfold steady, slice_wf. rewrite Hz. cbn. repeat split; first [ lia | done ]. }
    destruct (SetSpec_ends requested 0 tv0 ltac:(lia) H0) as [_ H1].
    pose proof (SetSpec_result requested tv0) as H2. unfold wp in H2.
    unfold bind. destruct (SetSpec requested tv0) as [m1 [[]|e|]]; cbn [fst snd] in *.
    - intros [= <- <-]. split; [ done | by intros e ].
    - intros [= <- <-]. split; [ done | ]. intros e' [= <-].
      destruct H2 as (_ & [(-> & Hs & _) | (_ & _ & _ & l1 & f & l2 & Hl & _)]).
      + done.
      + by destruct l1.
    - done. }
  destruct o as [[]|e|]; [ | | done ].
  - destruct (NewReference_result requested m0 HN)
      as (Hs & Hid & Hsp & Ha & Hc & Hr & Hrf & Hft & Hmx).
    fold id in Hs. rewrite Hs. exists m0. repeat split; try done.
    destruct (NewReference_post requested m0 HN)
      as (_ & Hh & Hf & Hl & Hn & Hv & Hg & Hy).
    destruct (NewReference_steady requested m0 HN) as (_ & Hi & _).
    apply core_intro; unfold zeroState; simp_state; first [ done | lia ].
  - destruct (He e eq_refl) as [-> Hs]. by rewrite Hs.
Qed.

(** Reset returns a television that has been running to where
    NewReference left it: the specification and the auto-detection flag are
    those of the requested id again (a switch to PAL that auto-detection
    made is undone), the beam, the frame counters, the vsync count and the
    last signal are zero, the history is empty with the write cursor at
    its start. The flag that tells whether the current frame is synced is
    the one field it leaves as it is. *)
Theorem reset_returns_to_the_start requested m0 sgs m m' :
  ToUpper (ToUpper requested) = ToUpper requested ->
  NewReference requested = (m0, Ret tt) ->
  run sgs m0 = (m, Ret tt) ->
  Reset m = (m', Ret tt) ->
  let s' := live m' in
  spec s' = spec (live m0) /\ auto s' = auto (live m0) /\
  horizPos s' = 0 /\ frameNum s' = 0 /\ scanline s' = 0 /\
  syncedFrameNum s' = 0 /\ vsyncCount s' = 0 /\ lastSignal s' = noSignal /\
  signalHistoryIdx s' = 0 /\
  Forall (fun e => e = noEntry) (contents m' (signalHistory s')) /\
  syncedFrame s' = syncedFrame (live m) /\
  reqSpecID m' = reqSpecID m0.
Proof.
  intros Hup H0 Hr HR s'.
  destruct (NewReference_result requested m0 H0) as (_ & Hid & Hsp & Ha & _).
  destruct (logs_run sgs m0) as [Hw _]. rewrite Hr in Hw. cbn [fst] in Hw.
  unfold wiring in Hw. injection Hw as Hq _ _ _ _ _.
  revert HR. unfold Reset, bind, reads.
  destruct (SetSpec (reqSpecID m) m) as [m1 [[]|e|]] eqn:HS; try done.
  unfold modify. intros [= <-].
  destruct (wp_run _ _ _ _ _ (SetSpec_result (reqSpecID m) m) HS)
    as (_ & _ & Hsp1 & Ha1 & (_ & _ & _ & _ & Hy & _) & Hi & _ & Hz & _).
  rewrite Hq, Hid, Hup in Hsp1, Ha1.
  subst s'. rewrite !contents_upd. simp_mach.
  rewrite Hsp, Ha. repeat split; try done.
  destruct (logs_SetSpec (reqSpecID m) m) as [Hw1 _]. rewrite HS in Hw1.
  cbn [fst] in Hw1. unfold wiring in Hw1. injection Hw1 as Hq1 _ _ _ _ _.
  change (reqSpecID m1 = reqSpecID m0). congruence.
Qed.

(** GetState on a television that was created or reset and has been sent
    signals since: the scanline it reports lies in [0, ScanlinesTotal] of
    the current specification, the horizontal position it reports is the
    beam's position less the width of the horizontal blank, between
    [-HorizClksHBlank] and [HorizClksScanline - HorizClksHBlank], and any
    other request but the frame number is answered with 0 and an error.
    The television is not changed. *)
Theorem get_state_reports_the_beam m0 sgs m request :
  0 <= HorizClksHBlank <= max_int ->
  initial_or_reset m0 ->
  run sgs m0 = (m, Ret tt) ->
  fst (GetState request m) = m /\
  let '(v, e) := snd (GetState request m) in
  if request =? ReqFramenum then v = frameNum (live m) /\ e = None
  else if request =? ReqScanline then
    v = scanline (live m) /\ 0 <= v <= ScanlinesTotal (spec (live m)) /\ e = None
  else if request =? ReqHorizPos then
    v = horizPos (live m) - HorizClksHBlank /\
    - HorizClksHBlank <= v < HorizClksScanline - HorizClksHBlank /\ e = None
  else v = 0 /\ e = Some (UnhandledRequest request).
Proof.
  intros Hb H0 Hr.
  destruct (run_beam sgs m0 m Hr (initial_or_reset_beam m0 H0)) as (_ & Hh & Hl).
  pose proof scanline_clocks as Hc.
  unfold GetState.
  destruct (request =? ReqFramenum); [ done | ].
  destruct (request =? ReqScanline); [ done | ].
  destruct (request =? ReqHorizPos); [ | done ].
  cbn [fst snd]. split; [ done | ].
  assert (sub (horizPos (live m)) HorizClksHBlank = horizPos (live m) - HorizClksHBlank) as ->.
  { unfold sub. apply wrap_in_range. unfold in_range, min_int, max_int in *. lia. }
  repeat split; first [ lia | done ].
Qed.

(** *** How the calls of a session end *)

(** What a session keeps: the history and its cursor, and the id the
    television was made with. *)
Definition settled (requested : string) (k : Z) (m : machine) : Prop :=
  steady k m /\ reqSpecID m = ToUpper requested.

Lemma Reset_ends requested k :
  supported (ToUpper requested) = true ->
  ToUpper (ToUpper requested) = ToUpper requested ->
  0 <= k ->
  hoare (settled requested k) Reset (settled requested k).
Proof.
  intros Hs Hup Hk m [Hst Hid]. unfold Reset, bind, reads.
  destruct (SetSpec_ends (reqSpecID m) k m Hk Hst) as [H1 H2].
  pose proof (SetSpec_result (reqSpecID m) m) as H3. unfold wp in H3.
  destruct (logs_SetSpec (reqSpecID m) m) as [Hw _].
  unfold wiring in Hw. injection Hw as Hq _ _ _ _ _.
  destruct (SetSpec (reqSpecID m) m) as [m1 [[]|e|]]; cbn [fst snd] in *.
  - unfold modify. cbn [fst snd]. split; [ | exact I ]. split.
    + destruct H1 as (Hw1 & Hi1 & Hl1). unfold steady. by simp_mach.
    + change (reqSpecID m1 = ToUpper requested). congruence.
  - split; [ split; [ exact H1 | congruence ] | ].
    destruct H2 as [[-> _] | H2]; [ | exact H2 ].
    destruct H3 as (_ & [(_ & Hn & _) | (_ & _ & _ & l1 & f & l2 & _ & He & _)]).
    + rewrite Hid, Hup, Hs in Hn. discriminate Hn.
    + discriminate He.
  - destruct H2.
Qed.

Lemma deliver_ends requested k e :
  supported (ToUpper requested) = true ->
  ToUpper (ToUpper requested) = ToUpper requested ->
  0 <= k < max_int ->
  hoare (settled requested k) (deliver e) (settled requested (k + 1)).
Proof.
  intros Hs Hup Hk m [Hst Hid].
  assert (steady (k + 1) m) as Hst1 by (eapply steady_mono; [ | exact Hst ]; lia).
  destruct e; cbn [deliver fst snd]; try (split; [ by split | exact I ]).
  - destruct (Signal_ends k sg Hk m Hst) as [H1 H2]. split; [ | exact H2 ].
    split; [ exact H1 | ].
    destruct (logs_Signal sg m) as [Hw _]. unfold wiring in Hw.
    injection Hw as Hq _ _ _ _ _. congruence.
  - destruct (Reset_ends requested k Hs Hup ltac:(lia) m (conj Hst Hid)) as [[H1 H1'] H2].
    split; [ | exact H2 ]. split; [ | exact H1' ].
    eapply steady_mono; [ | exact H1 ]. lia.
Qed.

Lemma session_ends requested es : forall k m,
  supported (ToUpper requested) = true ->
  ToUpper (ToUpper requested) = ToUpper requested ->
  0 <= k -> k + Z.of_nat (length es) <= max_int ->
  settled requested k m ->
  Forall (fun o => benign o) (snd (session es m)).
Proof.
  induction es as [|e es IH]; intros k m Hs Hup Hk Hn Hm; [ constructor | ].
  cbn [length] in Hn. rewrite Nat2Z.inj_succ in Hn. simpl.
  destruct (deliver_ends requested k e Hs Hup ltac:(lia) m Hm) as [H1 H2].
  destruct (deliver e m) as [m1 o]. cbn [fst snd] in *.
  specialize (IH (k + 1) m1 Hs Hup ltac:(lia) ltac:(lia) H1).
  destruct (session es m1) as [m' os]. cbn [snd] in *. by constructor.
Qed.

(** A television made by NewReference, with which fewer than 2^63 things
    are done in any order: it is signalled, renderers, refreshers, frame
    triggers and mixers are registered with it, it is reset, and the caller
    goes on whatever a call returns. No call panics (no index is out of
    range, no allocation has a negative size), the only error a call
    returns is the error of a collaborator that failed, and when no
    collaborator fails every call returns nil. *)
Theorem signals_end_well requested m0 es :
  NewReference requested = (m0, Ret tt) ->
  ToUpper (ToUpper requested) = ToUpper requested ->
  Z.of_nat (length es) <= max_int ->
  Forall (fun o => benign o) (snd (session es m0)) /\
  ((forall h c, fails h c = false) ->
   Forall (fun o => o = Ret tt) (snd (session es m0))).
Proof.
  intros H0 Hup Hn.
  destruct (NewReference_result requested m0 H0) as (Hs & Hid & _).
  pose proof (NewReference_steady requested m0 H0) as Hst.
  pose proof (session_ends requested es 0 m0 Hs Hup ltac:(lia) ltac:(lia)
                (conj Hst Hid)) as Hall.
  split; [ exact Hall | ]. intros Hf.
  eapply Forall_impl; [ exact Hall | ].
  intros [[]|e|] Ho; try done.
  destruct Ho as (h & c & _ & Hc). by rewrite Hf in Hc.
Qed.

End Lifecycle.

(** ** The start of a scanline *)

Definition is_SetAudio (c : Call) : bool :=
  match c with SetAudio _ _ => true | _ => false end.

Definition is_NewScanline (c : Call) : bool :=
  match c with NewScanline _ _ => true | _ => false end.

(** Signal after the color clock. *)
Definition afterClock (sg : SignalAttributes) : M unit :=
  checkVSync sg ;; checkHSync sg ;; setPixels sg ;; recordSignal sg.

Lemma logs_afterClock sg : logs (fun c => is_NewScanline c = false) (afterClock sg).
Proof.
  unfold afterClock, checkVSync, checkHSync, setPixels, recordSignal,
    newFrame, SetSpec, commit, prepare, IsStable.
  repeat logs_step.
Qed.

Lemma logs_newFrame synced : logs (fun c => is_NewScanline c = false) (newFrame synced).
Proof. unfold newFrame, SetSpec, commit, prepare, IsStable. repeat logs_step. Qed.

Lemma Signal_clock sg m m' :
  Signal sg m = (m', Ret tt) ->
  exists m1 m2 m3,
    mixAudio sg m = (m1, Ret tt) /\ examine sg m1 = (m2, Ret tt) /\
    colorClock m2 = (m3, Ret tt) /\ afterClock sg m3 = (m', Ret tt).
Proof.
  unfold Signal, afterClock. unfold bind at 1 2 3.
  destruct (mixAudio sg m) as [m1 [[]|?|]] eqn:H1; try done.
  destruct (examine sg m1) as [m2 [[]|?|]] eqn:H2; try done.
  destruct (colorClock m2) as [m3 [[]|?|]] eqn:H3; try done.
  intros H4. by exists m1, m2, m3.
Qed.

Lemma mixAudio_emits sg : emits (fun c => is_SetAudio c = true) (mixAudio sg).
Proof.
  unfold mixAudio. destruct (AudioUpdate sg); [ | apply emits_ret ].
  apply emits_bind; [ apply emits_reads | intros ms ].
  apply emits_forEach. intros f. by apply emits_call.
Qed.

(** The color clock, and the renderers at the start of a scanline. *)
Lemma colorClock_calls m m' :
  colorClock m = (m', Ret tt) ->
  let sl := incr (scanline (live m)) in
  if (HorizClksScanline <=? incr (horizPos (live m))) &&
     negb (ScanlinesTotal (spec (live m)) <? sl)
  then calls m' = calls m ++ map (fun f => NewScanline f sl) (renderers m)
  else exists cs, calls m' = calls m ++ cs /\ Forall (fun c => is_NewScanline c = false) cs.
Proof.
  unfold colorClock. unfold bind at 1 2. unfold modify at 1. unfold gets at 1.
  cbn [fst snd]. simp_mach.
  destruct (HorizClksScanline <=? incr (horizPos (live m))); cbn [andb].
  - unfold bind at 1 2 3 4. unfold modify at 1 2. unfold gets at 1 2.
    cbn [fst snd]. simp_mach.
    destruct (ScanlinesTotal (spec (live m)) <? incr (scanline (live m))); cbn [negb].
    + intros H. match type of H with newFrame _ ?mk = _ =>
        destruct (logs_newFrame false mk) as (_ & cs & Hcs & HP) end.
      rewrite H in Hcs. cbn [fst] in Hcs. exists cs. split; [ exact Hcs | exact HP ].
    + unfold newScanline, bind at 1, reads at 1. cbn [fst snd].
      intros H. match type of H with forEach ?l ?b ?mk = _ =>
        pose proof (forEach_calls l b
          (fun f => NewScanline f (incr (scanline (live m)))) mk) as Hall end.
      rewrite H in Hall. cbn [fst snd] in Hall.
      rewrite Hall; [ done | | done ].
      intros f cs. unfold bind, gets. cbn [fst snd]. by simp_mach.
  - unfold ret. intros [= <-]. exists []. split; [ by rewrite app_nil_r | constructor ].
Qed.

(** A Signal that returns nil tells the renderers of a new scanline exactly
    when the beam passes the end of a line that is not the last of the
    screen: then every renderer is called once, in the order of
    registration, with the number of the new scanline, after the audio
    mixers and before anything else. At the end of the screen, where a new
    frame starts, and within a line, no renderer is told of a scanline. *)
Theorem scanline_is_announced sg m m' :
  Signal sg m = (m', Ret tt) ->
  let sl := incr (scanline (live m)) in
  if (HorizClksScanline <=? incr (horizPos (live m))) &&
     negb (ScanlinesTotal (spec (live m)) <? sl)
  then
    exists audio rest,
      calls m' = calls m ++ audio ++
                 map (fun f => NewScanline f sl) (renderers m) ++ rest /\
      Forall (fun c => is_SetAudio c = true) audio /\
      Forall (fun c => is_NewScanline c = false) rest
  else
    exists cs, calls m' = calls m ++ cs /\ Forall (fun c => is_NewScanline c = false) cs.
Proof.
  intros H sl. apply Signal_clock in H as (m1 & m2 & m3 & H1 & H2 & H3 & H4).
  destruct (mixAudio_emits sg m) as (audio & Ha & HPa). rewrite H1 in Ha.
  cbn [fst] in Ha. subst m1.
  pose proof (wp_run _ _ _ _ _ (examine_post sg (emit audio m)) H2) as (_ & tb & Hl).
  rewrite live_emit in Hl.
  assert (calls m2 = calls m ++ audio /\ renderers m2 = renderers m) as [Hc2 Hr2].
  { revert H2. unfold examine, bind, reads, gets, modify. cbn [fst snd].
    destruct (rz_examine _ _ _) as [r' tb']. cbn [fst snd]. by intros [= <-]. }
  pose proof (colorClock_calls m2 m3 H3) as Hcc. cbv zeta in Hcc.
  rewrite Hl in Hcc. simp_state_all. rewrite Hc2, Hr2 in Hcc.
  destruct (logs_afterClock sg m3) as (_ & rest & Hrest & HPr).
  rewrite H4 in Hrest. cbn [fst] in Hrest. fold sl in Hcc.
  destruct ((HorizClksScanline <=? incr (horizPos (live m))) &&
            negb (ScanlinesTotal (spec (live m)) <? sl)).
  - exists audio, rest. rewrite Hrest, Hcc. by rewrite <- !app_assoc.
  - destruct Hcc as (cs & Hcs & HPc). exists (audio ++ cs ++ rest).
    split; [ by rewrite Hrest, Hcs, <- !app_assoc | ].
    apply Forall_app. split.
    + eapply Forall_impl; [ exact HPa | ]. by intros [].
    + by apply Forall_app.
Qed.

End Wiring.

(** ** End (lines 237-251)

    The calls End makes on the renderers and the mixers are not calls of
    the television at work; each returns an [error], nil or not. The
    receiver is a copy of the television: nothing is assigned to it. *)

Inductive EndCall :=
| EndRendering (renderer : nat)
| EndMixing (mixer : nat).

Section Ending.
Context `{E : Env} {Error : Type}.

(** What a collaborator returns, given the calls made so far. *)
Variable answer : list EndCall -> EndCall -> option Error.

(** [for f := range l { err = l[f].End...() }], with the calls made so far
    and the value of [err]. *)
Fixpoint endAll (l : list EndCall) (log : list EndCall) (err : option Error) :
    list EndCall * option Error :=
  match l with
  | [] => (log, err)
  | c :: l' => endAll l' (log ++ [c]) (answer log c)
  end.

(** The calls made, and the error returned. *)
Definition End (m : machine) : list EndCall * option Error :=
  let '(log, err) := endAll (map EndRendering (renderers m)) [] None in
  endAll (map EndMixing (mixers m)) log err.

Lemma endAll_snoc l c log err :
  endAll (l ++ [c]) log err = (log ++ l ++ [c], answer (log ++ l) c).
Proof.
  revert log err. induction l as [|d l IH]; intros log err; simpl.
  - by rewrite app_nil_r.
  - by rewrite IH, <- !app_assoc.
Qed.

Lemma endAll_app l1 l2 log err :
  endAll (l1 ++ l2) log err =
  endAll l2 (fst (endAll l1 log err)) (snd (endAll l1 log err)).
Proof.
  revert log err. induction l1 as [|d l1 IH]; intros log err; simpl; [ done | ].
  by rewrite IH.
Qed.

(** End calls every renderer and then every mixer, whatever they return,
    and returns what the last of these calls returned: an error of any
    other collaborator is lost, and with nothing registered End returns
    nil. *)
Theorem end_returns_the_last_answer m :
  let all := map EndRendering (renderers m) ++ map EndMixing (mixers m) in
  fst (End m) = all /\
  snd (End m) =
    match last all with
    | Some c => answer (removelast all) c
    | None => None
    end.
Proof.
  intros all.
  assert (End m = endAll all [] None) as ->.
  { unfold End, all. rewrite endAll_app.
    by destruct (endAll (map EndRendering (renderers m)) [] None). }
  destruct (decide (all = [])) as [-> | Hne]; [ done | ].
  destruct (exists_last Hne) as (l & c & ->).
  rewrite endAll_snoc. cbn [fst snd app]. by rewrite last_snoc, removelast_last.
Qed.

End Ending.

End Reference.

(** * The registers of the TIA (tia.TIA.ReadTIAMemory)

    What a write of the CPU to a register of the chip does to the chip,
    and what the next video cycle makes of it. *)

Module Chip.
Import TIA.

Definition vblankMask : Z := 2.
Definition vsyncMask : Z := 2.
Definition vsyncLatchTriggerMask : Z := 64.
Definition vsyncGroundedPaddleMask : Z := 128.

Definition set_vsync (v : bool) (t : TIA) : TIA :=
  {| colorClock := colorClock t; motionClock := motionClock t; vsync := v;
     vblank := vblank t; hblank := hblank t; hsync := hsync t; wsync := wsync t;
     calls := calls t |}.

Definition set_vblank (v : bool) (t : TIA) : TIA :=
  {| colorClock := colorClock t; motionClock := motionClock t; vsync := vsync t;
     vblank := v; hblank := hblank t; hsync := hsync t; wsync := wsync t;
     calls := calls t |}.

(** The calls ReadTIAMemory makes on the units of the chip. None of them
    is a call of the video cycle. *)
Inductive MemCall :=
| Rsync_set
| Video_PrepareSpritesForHMOVE
| Hmove_set
| Video_ReadVideoMemory (register : string) (value : Z).

(** ReadTIAMemory (lines 94-129). [read] is what [tia.mem.ChipRead()]
    returns: whether a register has been written since the last call, its
    name and the byte written. The function returns the chip and the calls
    made on its units. *)
Definition ReadTIAMemory (read : bool * string * Z) (t : TIA) : TIA * list MemCall :=
  let '(service, register, value) := read in
  if negb service then (t, [])
  else if String.eqb register "VSYNC" then
    (set_vsync (Z.land value vsyncMask =? vsyncMask) t, [])
  else if String.eqb register "VBLANK" then
    (set_vblank (Z.land value vblankMask =? vblankMask) t, [])
  else if String.eqb register "WSYNC" then
    (set_wsync true t, [])
  else if String.eqb register "RSYNC" then
    (t, [Rsync_set])
  else if String.eqb register "HMOVE" then
    (t, [Video_PrepareSpritesForHMOVE; Hmove_set])
  else
    (t, [Video_ReadVideoMemory register value]).

Section Registers.
Context `{P : Parts}.

(** The latches of the CPU through the blocks of a video cycle. *)
Lemma colorClockEvents_latches t :
  let t' := fst (colorClockEvents t) in
  vsync t' = vsync t /\ vblank t' = vblank t /\ wsync t' = wsync t.
Proof.
  cbv zeta. unfold colorClockEvents, bind, get, andThen, ask, put, ret. cbn.
  destruct (MatchEnd (colorClock t) 16); cbn;
    [ destruct (isActive (calls t) (colorClock t)); cbn | ];
    (destruct (MatchEnd (colorClock t) 18); cbn;
      [ try destruct (isActive _ (colorClock t)); cbn | ]);
    by repeat (case_match; cbn).
Qed.

Lemma motionClockEvents_latches t :
  let t' := fst (motionClockEvents t) in
  vsync t' = vsync t /\ vblank t' = vblank t /\ wsync t' = wsync t.
Proof.
  cbv zeta. unfold motionClockEvents, bind, get, put, ret. cbn.
  by repeat (case_match; cbn).
Qed.

Lemma newLine_latches t :
  let t' := fst (newLine t) in
  vsync t' = vsync t /\ vblank t' = vblank t /\
  wsync t' = wsync t && negb (snd (newLine t)).
Proof.
  cbv zeta. unfold newLine, bind, ask, tickColorClock, put, tell, ret. cbn.
  destruct (rsync_tick (calls t) (colorClock t)); cbn.
  - by rewrite andb_false_r.
  - destruct (snd (Tick (colorClock t))); cbn; by rewrite ?andb_false_r, ?andb_true_r.
Qed.

Lemma video_latches t :
  let t' := fst (pixelColor (fst (tickVideo t))) in
  vsync t' = vsync t /\ vblank t' = vblank t /\ wsync t' = wsync t.
Proof.
  cbv zeta. unfold tickVideo, pixelColor, bind, ask, get, tell, ret. cbn.
  destruct (hmove_tick (calls t) (colorClock t)) as [ct [|]]; cbn;
    destruct (hblank t) eqn:Hb; cbn; rewrite ?Hb; by cbn.
Qed.

(** The signal of a cycle carries the two latches as the cycle found them;
    the hold of the CPU is released by a new line and by nothing else. *)
Lemma beforeSignal_latches t :
  let t3 := fst (beforeSignal t) in
  let sg := snd (beforeSignal t) in
  VSync sg = vsync t /\ VBlank sg = vblank t /\
  wsync t3 = wsync t && negb (FrontPorch sg).
Proof.
  cbv zeta. rewrite beforeSignal_split.
  pose proof (colorClockEvents_latches t) as (Ha1 & Ha2 & Ha3). cbv zeta in *.
  destruct (colorClockEvents t) as [ta cb]. cbn [fst] in *.
  pose proof (motionClockEvents_latches ta) as (Hb1 & Hb2 & Hb3). cbv zeta in *.
  destruct (motionClockEvents ta) as [t0 []]. cbn [fst] in *.
  pose proof (newLine_latches t0) as (Hc1 & Hc2 & Hc3). cbv zeta in *.
  destruct (newLine t0) as [t1 fp]. cbn [fst snd] in *.
  pose proof (video_latches t1) as (Hd1 & Hd2 & Hd3). cbv zeta in *.
  destruct (tickVideo t1) as [t2 []]. cbn [fst snd] in *.
  destruct (pixelColor t2) as [t3 px]. cbn [fst snd VSync VBlank FrontPorch] in *.
  repeat split; congruence.
Qed.

Lemma step_after_signal t :
  let t3 := fst (beforeSignal t) in
  wsync (fst (StepVideoCycle t)) = wsync t3 /\
  (snd (StepVideoCycle t) = Some (negb (wsync t3)) \/ snd (StepVideoCycle t) = None).
Proof.
  cbv zeta. unfold StepVideoCycle, bind, tell, get, ret.
  destruct (beforeSignal t) as [t3 sg]. cbn.
  destruct (tv_Signal (calls t3) sg); cbn; auto.
Qed.

(** Bit 1 of a byte, as the masks of the chip test it. *)
Lemma mask_bit v : (Z.land v 2 =? 2) = Z.testbit v 1.
Proof.
  change 2 with (2 ^ 1) at 1 2.
  destruct (Z.testbit v 1) eqn:Hb.
  - apply Z.eqb_eq. apply Z.bits_inj'. intros n Hn.
    rewrite Z.land_spec, Z.pow2_bits_eqb by lia.
    destruct (Z.eqb_spec 1 n) as [<- | Hne]; [ by rewrite Hb | by rewrite andb_false_r ].
  - apply Z.eqb_neq. intros Heq.
    assert (Z.testbit (Z.land v (2 ^ 1)) 1 = true) as Ht.
    { rewrite Heq. by rewrite Z.pow2_bits_eqb. }
    rewrite Z.land_spec, Hb in Ht. done.
Qed.

(** A write to VSYNC or VBLANK sets the latch to bit 1 of the byte written,
    whatever its other bits, and changes nothing else of the chip; the
    signal of the next video cycle carries the latch to the television,
    with the other latch as it was. *)
Theorem sync_writes_reach_the_television (value : Z) (t : TIA) :
  let tv := fst (ReadTIAMemory (true, "VSYNC"%string, value) t) in
  let tb := fst (ReadTIAMemory (true, "VBLANK"%string, value) t) in
  tv = set_vsync (Z.testbit value 1) t /\
  tb = set_vblank (Z.testbit value 1) t /\
  VSync (snd (beforeSignal tv)) = Z.testbit value 1 /\
  VBlank (snd (beforeSignal tv)) = vblank t /\
  VSync (snd (beforeSignal tb)) = vsync t /\
  VBlank (snd (beforeSignal tb)) = Z.testbit value 1.
Proof.
  cbv zeta. unfold ReadTIAMemory. cbn [negb String.eqb Ascii.eqb Bool.eqb fst].
  unfold vsyncMask, vblankMask. rewrite mask_bit.
  destruct (beforeSignal_latches (set_vsync (Z.testbit value 1) t)) as (H1 & H2 & _).
  destruct (beforeSignal_latches (set_vblank (Z.testbit value 1) t)) as (H3 & H4 & _).
  by rewrite H1, H2, H3, H4.
Qed.

(** The CPU is held by a write to WSYNC and by nothing else, and from
    then on until the video cycle in which a new line begins: after a read
    of the chip's memory and one video cycle, the hold is on exactly when it
    was on before or WSYNC was written, and no new line has begun in the
    cycle; the cycle returns ready exactly when the hold is off, unless the
    television has failed. *)
Theorem only_a_wsync_write_holds_the_cpu (read : bool * string * Z) (t : TIA) :
  let t1 := fst (ReadTIAMemory read t) in
  let written := fst (fst read) && String.eqb (snd (fst read)) "WSYNC" in
  let sg := snd (beforeSignal t1) in
  let held := (wsync t || written) && negb (FrontPorch sg) in
  wsync t1 = wsync t || written /\
  wsync (fst (StepVideoCycle t1)) = held /\
  (snd (StepVideoCycle t1) = Some (negb held) \/ snd (StepVideoCycle t1) = None).
Proof.
  cbv zeta.
  assert (wsync (fst (ReadTIAMemory read t)) =
          wsync t || (fst (fst read) && String.eqb (snd (fst read)) "WSYNC")) as Hw.
  { destruct read as [[service register] value]. unfold ReadTIAMemory. cbn [fst snd].
    destruct service; cbn [negb andb]; [ | by rewrite orb_false_r ].
    destruct (String.eqb register "VSYNC") eqn:H1.
    { apply String.eqb_eq in H1. subst register. cbn. by rewrite orb_false_r. }
    destruct (String.eqb register "VBLANK") eqn:H2.
    { apply String.eqb_eq in H2. subst register. cbn. by rewrite orb_false_r. }
    destruct (String.eqb register "WSYNC") eqn:H3.
    { cbn. by rewrite orb_true_r. }
    rewrite orb_false_r. by repeat case_match. }
  split; [ exact Hw | ].
  destruct (beforeSignal_latches (fst (ReadTIAMemory read t))) as (_ & _ & H3).
  destruct (step_after_signal (fst (ReadTIAMemory read t))) as (H4 & H5).
  cbv zeta in *. rewrite Hw in H3. rewrite H3 in H4, H5. by split.
Qed.

End Registers.

End Chip.

(** * The headless television at work (television.HeadlessTV.Signal)

    The television without a screen, as the chip of the same version
    signals it: its construction, Reset and Signal, with the [TVState]
    objects behind its three pointers and the hooks of the structs that
    embed it. *)

Module HeadlessSignal.
Import GoInt.
Import Television.Headless.

Definition loc := Television.loc.

(** The signal is the one the chip builds. *)
Definition SignalAttributes := TIA.SignalAttributes.

(** [SignalAttributes{}] *)
Definition noSignal : SignalAttributes :=
  {| TIA.VSync := false; TIA.VBlank := false; TIA.FrontPorch := false;
     TIA.HSync := false; TIA.CBurst := false; TIA.Pixel := 0 |}.

(** [Specification] is declared outside the sources at hand: these are the
    fields of it that the headless television reads. *)
Record Specification := {
  ID : string;
  ClocksPerHblank : Z;
  ClocksPerVisible : Z;
  VsyncClocks : Z;
  ScanlinesPerVSync : Z;
  ScanlinesPerVBlank : Z;
  ScanlinesPerOverscan : Z;
  ScanlinesTotal : Z;
  Colors : list Z;
}.

(** The callback hooks of Signal. InitHeadlessTV installs callbacks that
    return nil; a struct that embeds the television installs its own.
    Every call of a hook is recorded, in order. *)
Inductive Hook :=
| HookNewFrame
| HookNewScanline
| HookSetPixel (x y : Z) (red green blue : Z) (vblank : bool).

Inductive error :=
| UnsupportedType (tvType : string)
| HookError (h : Hook).

(** Why Signal panics. *)
Inductive panicked :=
| BadHSyncOn (at_ : Z)
| BadHSyncOff (at_ : Z)
| BadCBurstOn
| BadCBurstOff
| NoFrontPorch
| IndexOutOfRange.

Inductive outcome (A : Type) :=
| Ret (a : A)
| Err (e : error)
| Panic (p : panicked).
Arguments Ret {A} a.
Arguments Err {A} e.
Arguments Panic {A} p.

(** What the television is linked against. *)
Class Linked := {
  ToUpper : string -> string;
  SpecNTSC : Specification;
  SpecPAL : Specification;
  (** Whether a hook returns a non-nil error, given the hooks called so
      far. *)
  hookFails : list Hook -> Hook -> bool;
}.

(** The television: the plain fields of the struct, the specification it
    points to, the last signal, the store of the [TVState] values, and the
    hooks called so far. *)
Record headless := {
  tv : HeadlessTV;
  Spec : Specification;
  prevSignal : SignalAttributes;
  values : gmap loc Z;
  hooks : list Hook;
}.

Definition set_tv (v : HeadlessTV) (h : headless) : headless :=
  {| tv := v; Spec := Spec h; prevSignal := prevSignal h; values := values h;
     hooks := hooks h |}.
Definition set_prevSignal (v : SignalAttributes) (h : headless) : headless :=
  {| tv := tv h; Spec := Spec h; prevSignal := v; values := values h;
     hooks := hooks h |}.
Definition set_values (v : gmap loc Z) (h : headless) : headless :=
  {| tv := tv h; Spec := Spec h; prevSignal := prevSignal h; values := v;
     hooks := hooks h |}.
Definition set_hooks (v : list Hook) (h : headless) : headless :=
  {| tv := tv h; Spec := Spec h; prevSignal := prevSignal h; values := values h;
     hooks := v |}.

Definition set_outOfSpec (v : bool) (h : headless) : headless :=
  set_tv {| outOfSpec := v; HorizPos := HorizPos (tv h); FrameNum := FrameNum (tv h);
            Scanline := Scanline (tv h); vsyncCount := vsyncCount (tv h);
            VBlankOff := VBlankOff (tv h); VBlankOn := VBlankOn (tv h) |} h.
Definition set_vsyncCount (v : Z) (h : headless) : headless :=
  set_tv {| outOfSpec := outOfSpec (tv h); HorizPos := HorizPos (tv h);
            FrameNum := FrameNum (tv h); Scanline := Scanline (tv h); vsyncCount := v;
            VBlankOff := VBlankOff (tv h); VBlankOn := VBlankOn (tv h) |} h.
Definition set_VBlankOff (v : Z) (h : headless) : headless :=
  set_tv {| outOfSpec := outOfSpec (tv h); HorizPos := HorizPos (tv h);
            FrameNum := FrameNum (tv h); Scanline := Scanline (tv h);
            vsyncCount := vsyncCount (tv h); VBlankOff := v;
            VBlankOn := VBlankOn (tv h) |} h.
Definition set_VBlankOn (v : Z) (h : headless) : headless :=
  set_tv {| outOfSpec := outOfSpec (tv h); HorizPos := HorizPos (tv h);
            FrameNum := FrameNum (tv h); Scanline := Scanline (tv h);
            vsyncCount := vsyncCount (tv h); VBlankOff := VBlankOff (tv h);
            VBlankOn := v |} h.

(** [p.value] and [p.value = v] *)
Definition value (p : loc) (h : headless) : Z := values h !!! p.
Definition set_value (p : loc) (v : Z) (h : headless) : headless :=
  set_values (<[p := v]> (values h)) h.

(** [int32(z)] and [byte(z)] *)
Definition int32 (z : Z) : Z := (z + 2 ^ 31) mod 2 ^ 32 - 2 ^ 31.
Definition byte (z : Z) : Z := z mod 256.

Section Signal.
Context `{L : Linked}.

Definition H (X : Type) : Type := headless -> headless * outcome X.

Definition ret {X} (a : X) : H X := fun h => (h, Ret a).

Definition bind {X Y} (c : H X) (k : X -> H Y) : H Y :=
  fun h =>
    match c h with
    | (h', Ret a) => k a h'
    | (h', Err e) => (h', Err e)
    | (h', Panic p) => (h', Panic p)
    end.

Definition get {X} (f : headless -> X) : H X := fun h => (h, Ret (f h)).

Definition put (f : headless -> headless) : H unit := fun h => (f h, Ret tt).

Definition panic {X} (p : panicked) : H X := fun h => (h, Panic p).

(** [err := tv.Hook...(); if err != nil { return err }] *)
Definition hook (c : Hook) : H unit :=
  fun h => (set_hooks (hooks h ++ [c]) h,
            if hookFails (hooks h) c then Err (HookError c) else Ret tt).

Local Notation "v <- c ;; k" := (bind c (fun v => k))
  (at level 100, c at next level, right associativity).
Local Notation "c ;; k" := (bind c (fun _ => k))
  (at level 100, right associativity).

(** Lines 145-162: the sync and color-burst edges arrive where the
    protocol expects them, or Signal panics. *)
Definition checkEdges (attr : SignalAttributes) : H unit :=
  prev <- get prevSignal ;;
  hp <- get (fun h => value (HorizPos (tv h)) h) ;;
  (if TIA.HSync attr && negb (TIA.HSync prev) then
     if (hp <? -52) || (-49 <? hp) then panic (BadHSyncOn hp) else ret tt
   else if negb (TIA.HSync attr) && TIA.HSync prev then
     if (hp <? -36) || (-33 <? hp) then panic (BadHSyncOff hp) else ret tt
   else ret tt) ;;
  if TIA.CBurst attr && negb (TIA.CBurst prev) then
    if (hp <? -28) || (-17 <? hp) then panic BadCBurstOn else ret tt
  else if negb (TIA.CBurst attr) && TIA.CBurst prev then
    if (hp <? -19) || (-16 <? hp) then panic BadCBurstOff else ret tt
  else ret tt.

(** Lines 164-189: simple implementation of vsync. *)
Definition countVSync (attr : SignalAttributes) : H unit :=
  if TIA.VSync attr then
    put (fun h => set_vsyncCount (incr (vsyncCount (tv h))) h)
  else
    vc <- get (fun h => vsyncCount (tv h)) ;;
    sp <- get Spec ;;
    if VsyncClocks sp <=? vc then
      put (set_outOfSpec (negb (vc =? VsyncClocks sp))) ;;
      put (fun h => set_value (FrameNum (tv h)) (incr (value (FrameNum (tv h)) h)) h) ;;
      put (fun h => set_value (Scanline (tv h)) 0 h) ;;
      put (set_vsyncCount 0) ;;
      hook HookNewFrame ;;
      (* reset the VBlankOff value at the end of the frame *)
      put (set_VBlankOff (-1))
    else ret tt.

(** Lines 191-216: start a new scanline if a frontporch signal has been
    received. *)
Definition moveBeam (attr : SignalAttributes) : H unit :=
  if TIA.FrontPorch attr then
    put (fun h => set_value (HorizPos (tv h)) (sub 0 (ClocksPerHblank (Spec h))) h) ;;
    put (fun h => set_value (Scanline (tv h)) (incr (value (Scanline (tv h)) h)) h) ;;
    hook HookNewScanline ;;
    sl <- get (fun h => value (Scanline (tv h)) h) ;;
    sp <- get Spec ;;
    if ScanlinesTotal sp <? sl then
      (* continue with an implied VSYNC *)
      put (set_outOfSpec true) ;;
      (* repeat the last scanline (over and over if necessary) *)
      put (fun h => set_value (Scanline (tv h)) (sub (value (Scanline (tv h)) h) 1) h)
    else ret tt
  else
    put (fun h => set_value (HorizPos (tv h)) (incr (value (HorizPos (tv h)) h)) h) ;;
    hp <- get (fun h => value (HorizPos (tv h)) h) ;;
    sp <- get Spec ;;
    (* check to see if frontporch has been encountered *)
    if ClocksPerVisible sp <? hp then panic NoFrontPorch else ret tt.

(** Lines 218-235: note the scanline when vblank is turned on/off. *)
Definition noteVBlank (attr : SignalAttributes) : H unit :=
  prev <- get prevSignal ;;
  off <- get (fun h => VBlankOff (tv h)) ;;
  (if (off =? -1) && negb (TIA.VBlank attr) && TIA.VBlank prev then
     put (fun h => set_VBlankOff (value (Scanline (tv h)) h) h)
   else ret tt) ;;
  if TIA.VBlank attr && negb (TIA.VBlank prev) then
    sl <- get (fun h => value (Scanline (tv h)) h) ;;
    if sl =? 0 then put (fun h => set_VBlankOn (incr (ScanlinesTotal (Spec h))) h)
    else put (set_VBlankOn sl)
  else ret tt.

(** Lines 240-245: decode color. An index beyond the palette panics. *)
Definition decodeColor (attr : SignalAttributes) : H (Z * Z * Z) :=
  if TIA.Pixel attr <=? 256 then
    sp <- get Spec ;;
    if TIA.Pixel attr <? 0 then panic IndexOutOfRange
    else
      match Colors sp !! Z.to_nat (TIA.Pixel attr) with
      | Some col =>
        ret (byte (Z.shiftr (Z.land col 16711680) 16),
             byte (Z.shiftr (Z.land col 65280) 8),
             byte (Z.land col 255))
      | None => panic IndexOutOfRange
      end
  else ret (0, 0, 0).

(** Lines 247-251: current coordinates, and the pixel hook. *)
Definition setPixel (attr : SignalAttributes) (rgb : Z * Z * Z) : H unit :=
  hp <- get (fun h => value (HorizPos (tv h)) h) ;;
  sp <- get Spec ;;
  sl <- get (fun h => value (Scanline (tv h)) h) ;;
  let x := int32 (int32 hp + int32 (ClocksPerHblank sp)) in
  let y := int32 sl in
  let '(red, green, blue) := rgb in
  hook (HookSetPixel x y red green blue (TIA.VBlank attr)).

Definition Signal (attr : SignalAttributes) : H unit :=
  checkEdges attr ;;
  countVSync attr ;;
  moveBeam attr ;;
  noteVBlank attr ;;
  (* record the current signal settings so they can be used for reference *)
  put (set_prevSignal attr) ;;
  rgb <- decodeColor attr ;;
  setPixel attr rgb.

(** Reset (lines 125-134) *)
Definition Reset : H unit :=
  put (fun h => set_value (HorizPos (tv h)) (sub 0 (ClocksPerHblank (Spec h))) h) ;;
  put (fun h => set_value (FrameNum (tv h)) 0 h) ;;
  put (fun h => set_value (Scanline (tv h)) 0 h) ;;
  put (set_vsyncCount 0) ;;
  put (set_prevSignal noSignal) ;;
  put (set_VBlankOff (-1)) ;;
  put (set_VBlankOn (-1)).

(** InitHeadlessTV (lines 68-93) on the [new(HeadlessTV)] of NewHeadlessTV
    (lines 54-63), in a store of its own: the three [TVState] objects are
    allocated one after the other. When InitHeadlessTV fails Go returns no
    television at all; here the outcome is the error. *)
Definition NewHeadlessTV (tvType : string) : outcome headless :=
  let id := ToUpper tvType in
  let chosen :=
    if String.eqb id "NTSC" then Some SpecNTSC
    else if String.eqb id "PAL" then Some SpecPAL
    else None in
  match chosen with
  | None => Err (UnsupportedType tvType)
  | Some sp =>
    let hp : loc := fresh (∅ : gset loc) in
    let fr : loc := fresh ({[ hp ]} : gset loc) in
    let sl : loc := fresh ({[ hp; fr ]} : gset loc) in
    Ret {| tv := {| outOfSpec := false; HorizPos := hp; FrameNum := fr; Scanline := sl;
                    vsyncCount := 0;
                    VBlankOff := wrap (ScanlinesPerVBlank sp + ScanlinesPerVSync sp);
                    VBlankOn := sub (ScanlinesTotal sp) (ScanlinesPerOverscan sp) |};
           Spec := sp;
           prevSignal := noSignal;
           values := {[ hp := sub 0 (ClocksPerHblank sp); fr := 0; sl := 0 ]};
           hooks := [] |}
  end.

(** What is done with a television: it is signalled, or reset. *)
Inductive op :=
| DoSignal (attr : SignalAttributes)
| DoReset.

Definition perform (o : op) : H unit :=
  match o with
  | DoSignal attr => Signal attr
  | DoReset => Reset
  end.

(** The operations stop at the first that does not return nil. *)
Fixpoint run (ops : list op) : H unit :=
  match ops with
  | [] => ret tt
  | o :: rest => perform o ;; run rest
  end.

End Signal.

(** ** Properties of the headless television *)

Section SignalProperties.
Context `{L : Linked}.

Local Notation "v <- c ;; k" := (bind c (fun v => k))
  (at level 100, c at next level, right associativity).
Local Notation "c ;; k" := (bind c (fun _ => k))
  (at level 100, right associativity).

(** The three pointers of the television point to three objects. *)
Definition wired (h : headless) : Prop :=
  HorizPos (tv h) <> FrameNum (tv h) /\
  HorizPos (tv h) <> Scanline (tv h) /\
  FrameNum (tv h) <> Scanline (tv h).

(** The fields of a television after an assignment. *)
Ltac simp_tv :=
  cbn [tv Spec prevSignal values hooks set_tv set_prevSignal set_values set_hooks
       set_outOfSpec set_vsyncCount set_VBlankOff set_VBlankOn set_value
       outOfSpec HorizPos FrameNum Scanline vsyncCount VBlankOff VBlankOn
       fst snd] in *.

Ltac simp_values :=
  unfold value in *; simp_tv;
  repeat first
    [ rewrite lookup_total_insert_eq
    | rewrite lookup_total_insert_ne by congruence ].

(** The number of new frames that the hooks have been told of. *)
Definition is_frame (c : Hook) : bool :=
  match c with HookNewFrame => true | _ => false end.

Definition framesTold (l : list Hook) : nat := length (List.filter is_frame l).

Lemma framesTold_app l1 l2 : framesTold (l1 ++ l2) = (framesTold l1 + framesTold l2)%nat.
Proof. unfold framesTold. by rewrite List.filter_app, length_app. Qed.

Lemma incr_wrap z : incr (wrap z) = wrap (z + 1).
Proof.
  unfold incr, wrap.
  replace (z + 1 + 2 ^ 63) with ((z + 2 ^ 63) + 1) by lia.
  rewrite <- (Zplus_mod_idemp_l (z + 2 ^ 63) 1).
  f_equal. f_equal.
  pose proof (Z.mod_pos_bound (z + 2 ^ 63) (2 ^ 64) ltac:(lia)). lia.
Qed.

(** The frame counter counts the calls of the new-frame hook. *)
Definition counted (h : headless) : Prop :=
  wired h /\ value (FrameNum (tv h)) h = wrap (Z.of_nat (framesTold (hooks h))).

Definition always (I : headless -> Prop) {X} (c : H X) : Prop :=
  forall h, I h -> I (fst (c h)).

Lemma always_bind I {X Y} (c : H X) (k : X -> H Y) :
  always I c -> (forall a, always I (k a)) -> always I (bind c k).
Proof.
  intros Hc Hk h Hh. unfold bind. specialize (Hc h Hh).
  destruct (c h) as [h1 [a|e|p]]; cbn [fst] in *; auto. by apply Hk.
Qed.

Lemma always_ret I {X} (a : X) : always I (ret a).
Proof. by intros h. Qed.

Lemma always_get I {X} (f : headless -> X) : always I (get f).
Proof. by intros h. Qed.

Lemma always_panic I {X} p : always I (panic p : H X).
Proof. by intros h. Qed.

Lemma counted_put f :
  (forall h, tv (f h) = tv h \/
             (HorizPos (tv (f h)) = HorizPos (tv h) /\
              FrameNum (tv (f h)) = FrameNum (tv h) /\
              Scanline (tv (f h)) = Scanline (tv h))) ->
  (forall h, wired h -> value (FrameNum (tv h)) (f h) = value (FrameNum (tv h)) h) ->
  (forall h, hooks (f h) = hooks h) ->
  always counted (put f).
Proof.
  intros Ht Hv Hh h [Hw Hc]. unfold put, counted, wired in *. cbn [fst].
  assert (HorizPos (tv (f h)) = HorizPos (tv h) /\
          FrameNum (tv (f h)) = FrameNum (tv h) /\
          Scanline (tv (f h)) = Scanline (tv h)) as (E1 & E2 & E3).
  { destruct (Ht h) as [-> | ?]; [ done | done ]. }
  rewrite E1, E2, E3, Hh, Hv; done.
Qed.

Lemma counted_hook c : is_frame c = false -> always counted (hook c).
Proof.
  intros Hc h [Hw Hn]. unfold hook, counted, wired in *. cbn [fst]. simp_tv.
  split; [ done | ]. rewrite framesTold_app. unfold framesTold at 2. cbn. rewrite Hc. cbn.
  unfold value in *. cbn. rewrite Hn. f_equal. lia.
Qed.

Ltac counted_step :=
  lazymatch goal with
  | |- always _ (bind _ _) => apply always_bind; [ | intros ? ]
  | |- always _ (ret _) => apply always_ret
  | |- always _ (get _) => apply always_get
  | |- always _ (panic _) => apply always_panic
  | |- always _ (hook _) => apply counted_hook; reflexivity
  | |- always _ (put _) =>
      apply counted_put;
      [ intros ?; simp_tv; auto
      | intros ? (? & ? & ?); simp_values; done
      | intros ?; reflexivity ]
  | |- always _ (if ?b then _ else _) => destruct b
  | |- always _ (match ?o with Some _ => _ | None => _ end) => destruct o
  | |- always _ (let '(_, _) := ?p in _) => destruct p as [? ?]
  end.

Lemma counted_checkEdges attr : always counted (checkEdges attr).
Proof. unfold checkEdges. repeat counted_step. Qed.

(** The block that starts a frame: the counter and the hook move
    together. *)
Lemma counted_countVSync attr : always counted (countVSync attr).
Proof.
  unfold countVSync. destruct (TIA.VSync attr); [ repeat counted_step | ].
  apply always_bind; [ apply always_get | intros vc ].
  apply always_bind; [ apply always_get | intros sp ].
  destruct (VsyncClocks sp <=? vc); [ | apply always_ret ].
  intros h [Hw Hn]. destruct Hw as (W1 & W2 & W3).
  unfold bind, put, hook. simp_tv.
  match goal with |- context [hookFails ?a ?b] => destruct (hookFails a b) end.
  all: unfold counted, wired; simp_tv; (split; [ done | ]).
  all: simp_values; rewrite framesTold_app; unfold framesTold at 2; cbn.
  all: rewrite Hn, incr_wrap; f_equal; lia.
Qed.

Lemma counted_moveBeam attr : always counted (moveBeam attr).
Proof. unfold moveBeam. repeat counted_step. Qed.

Lemma counted_noteVBlank attr : always counted (noteVBlank attr).
Proof. unfold noteVBlank. repeat counted_step. Qed.

Lemma counted_decodeColor attr : always counted (decodeColor attr).
Proof. unfold decodeColor. repeat counted_step. Qed.

Lemma counted_setPixel attr rgb : always counted (setPixel attr rgb).
Proof. unfold setPixel. destruct rgb as [[? ?] ?]. repeat counted_step. Qed.

Lemma counted_Signal attr : always counted (Signal attr).
Proof.
  unfold Signal.
  repeat first
    [ apply counted_checkEdges | apply counted_countVSync | apply counted_moveBeam
    | apply counted_noteVBlank | apply counted_decodeColor | apply counted_setPixel
    | counted_step ].
Qed.

Lemma counted_NewHeadlessTV tvType h0 :
  NewHeadlessTV tvType = Ret h0 -> counted h0 /\ hooks h0 = [].
Proof.
  unfold NewHeadlessTV.
  set (hp := fresh (∅ : gset loc)).
  set (fr := fresh ({[ hp ]} : gset loc)).
  set (sl := fresh ({[ hp; fr ]} : gset loc)).
  assert (fr <> hp) as H1.
  { pose proof (is_fresh ({[ hp ]} : gset loc)) as Hf. fold fr in Hf. set_solver. }
  assert (sl <> hp /\ sl <> fr) as [H2 H3].
  { pose proof (is_fresh ({[ hp; fr ]} : gset loc)) as Hf. fold sl in Hf. set_solver. }
  intros H0.
  assert (exists sp, h0 =
    {| tv := {| outOfSpec := false; HorizPos := hp; FrameNum := fr; Scanline := sl;
                vsyncCount := 0;
                VBlankOff := wrap (ScanlinesPerVBlank sp + ScanlinesPerVSync sp);
                VBlankOn := sub (ScanlinesTotal sp) (ScanlinesPerOverscan sp) |};
       Spec := sp; prevSignal := noSignal;
       values := {[ hp := sub 0 (ClocksPerHblank sp); fr := 0; sl := 0 ]};
       hooks := [] |}) as [sp ->].
  { repeat case_match; simplify_eq; eauto. }
  split; [ | done ]. unfold counted, wired. simp_values.
  split; [ by repeat split | ]. by simp_values.
Qed.

Lemma counted_run sgs : always counted (run (map DoSignal sgs)).
Proof.
  induction sgs as [|sg sgs IH]; simpl.
  - apply always_ret.
  - apply always_bind; [ apply counted_Signal | by intros _ ].
Qed.

(** A television made by NewHeadlessTV and signalled since: however the
    last call has ended, with nil, with the error of a hook or with a
    panic, the frame number is the number of calls of the new-frame hook
    (counted as a 64-bit integer counts). *)
Theorem frames_are_counted_by_the_hook tvType h0 sgs :
  NewHeadlessTV tvType = Ret h0 ->
  let h := fst (run (map DoSignal sgs) h0) in
  value (FrameNum (tv h)) h = wrap (Z.of_nat (framesTold (hooks h))) /\
  (Z.of_nat (framesTold (hooks h)) <= max_int ->
   value (FrameNum (tv h)) h = Z.of_nat (framesTold (hooks h))).
Proof.
  intros H0 h. apply counted_NewHeadlessTV in H0 as [H0 _].
  destruct (counted_run sgs h0 H0) as [_ Hn]. fold h in Hn.
  split; [ exact Hn | ]. intros Hle. rewrite Hn. apply wrap_in_range.
  unfold in_range, min_int, max_int in *. lia.
Qed.

(** *** The beam stays on the screen *)

(** The figures of a specification fit the screen coordinates. *)
Definition sane (sp : Specification) : Prop :=
  0 <= ClocksPerHblank sp < 2 ^ 31 /\
  0 <= ClocksPerVisible sp /\
  ClocksPerHblank sp + ClocksPerVisible sp < 2 ^ 31 /\
  0 <= ScanlinesTotal sp < 2 ^ 31.

Definition onScreen (h : headless) : Prop :=
  wired h /\ sane (Spec h) /\
  - ClocksPerHblank (Spec h) <= value (HorizPos (tv h)) h <= ClocksPerVisible (Spec h) /\
  0 <= value (Scanline (tv h)) h <= ScanlinesTotal (Spec h).

Definition preserves (I : headless -> Prop) {X} (c : H X) : Prop :=
  forall h h' a, I h -> c h = (h', Ret a) -> I h'.

Lemma preserves_bind I {X Y} (c : H X) (k : X -> H Y) :
  preserves I c -> (forall a, preserves I (k a)) -> preserves I (bind c k).
Proof.
  intros Hc Hk h h' b Hh. unfold bind. specialize (Hc h).
  destruct (c h) as [h1 [a|e|p]]; try done.
  intros Hr. eapply Hk; [ | exact Hr ]. by eapply Hc.
Qed.

Lemma preserves_still I {X} (c : H X) : (forall h, fst (c h) = h) -> preserves I c.
Proof. intros Hc h h' a Hh Hr. specialize (Hc h). rewrite Hr in Hc. cbn in Hc. by subst h'. Qed.

Lemma preserves_put I f : (forall h, I h -> I (f h)) -> preserves I (put f).
Proof. intros Hf h h' a Hh [= <-]. by apply Hf. Qed.

Lemma onScreen_hook c : preserves onScreen (hook c).
Proof. intros h h' a Hh. unfold hook. by intros [= <- _]. Qed.

Lemma neg_small z : 0 <= z < 2 ^ 31 -> sub 0 z = - z.
Proof.
  intros Hz. unfold sub. rewrite wrap_in_range; [ lia | ].
  unfold in_range, min_int, max_int. lia.
Qed.

Ltac screen_put :=
  apply preserves_put; intros ? (Hw & Hs & Hx & Hy);
  unfold onScreen, wired, sane in *; destruct Hw as (? & ? & ?);
  simp_values; repeat split; first [ done | lia ].

Ltac screen_step :=
  lazymatch goal with
  | |- preserves _ (bind _ _) => apply preserves_bind; [ | intros ? ]
  | |- preserves _ (ret _) => by apply preserves_still
  | |- preserves _ (get _) => by apply preserves_still
  | |- preserves _ (panic _) => by apply preserves_still
  | |- preserves _ (hook _) => apply onScreen_hook
  | |- preserves _ (put _) => screen_put
  | |- preserves _ (if ?b then _ else _) => destruct b
  | |- preserves _ (match ?o with Some _ => _ | None => _ end) => destruct o
  end.

Lemma onScreen_checkEdges attr : preserves onScreen (checkEdges attr).
Proof. unfold checkEdges. repeat screen_step. Qed.

Lemma onScreen_countVSync attr : preserves onScreen (countVSync attr).
Proof. unfold countVSync. repeat screen_step. Qed.

Lemma onScreen_moveBeam attr : preserves onScreen (moveBeam attr).
Proof.
  intros h h' a (Hw & Hs & Hx & Hy). unfold onScreen, wired, sane in *.
  destruct Hw as (W1 & W2 & W3). destruct Hs as (S1 & S2 & S3 & S4).
  pose proof (neg_small (ClocksPerHblank (Spec h)) S1) as Hn.
  unfold value in *.
  match type of Hy with
  | _ <= ?sl <= _ =>
    assert (incr sl = sl + 1) as Hi
      by (apply incr_small; unfold min_int, max_int; lia);
    assert (sub (sl + 1) 1 = sl) as Hd
      by (unfold sub; rewrite wrap_in_range;
          [ lia | unfold in_range, min_int, max_int; lia ])
  end.
  match type of Hx with
  | _ <= ?hp <= _ =>
    assert (incr hp = hp + 1) as Hj
      by (apply incr_small; unfold min_int, max_int; lia)
  end.
  unfold moveBeam. destruct (TIA.FrontPorch attr).
  - unfold bind, put, hook, get, ret. simp_tv.
    match goal with |- context [hookFails ?u ?v] => destruct (hookFails u v) end;
      [ done | ].
    simp_values. rewrite Hi, Hn.
    match goal with |- context [?u <? ?v] => destruct (u <? v) eqn:Hlt end;
      intros [= <-]; simp_values; rewrite ?Hi, ?Hn, ?Hd.
    + apply Z.ltb_lt in Hlt. repeat split; first [ done | lia ].
    + apply Z.ltb_ge in Hlt. repeat split; first [ done | lia ].
  - unfold bind, put, get, ret, panic. simp_tv. simp_values. rewrite Hj.
    match goal with |- context [?u <? ?v] => destruct (u <? v) eqn:Hlt end;
      [ done | ].
    apply Z.ltb_ge in Hlt. intros [= <-]. simp_values. rewrite ?Hj.
    repeat split; first [ done | lia ].
Qed.

Lemma onScreen_noteVBlank attr : preserves onScreen (noteVBlank attr).
Proof. unfold noteVBlank. repeat screen_step. Qed.

(** Signal up to the pixel. *)
Definition beforePixel (attr : SignalAttributes) : H unit :=
  checkEdges attr ;;
  countVSync attr ;;
  moveBeam attr ;;
  noteVBlank attr ;;
  put (set_prevSignal attr).

Lemma onScreen_beforePixel attr : preserves onScreen (beforePixel attr).
Proof.
  unfold beforePixel.
  repeat first
    [ apply onScreen_checkEdges | apply onScreen_countVSync | apply onScreen_moveBeam
    | apply onScreen_noteVBlank | screen_step ].
Qed.

Lemma onScreen_decodeColor attr : preserves onScreen (decodeColor attr).
Proof. unfold decodeColor. repeat screen_step. Qed.

Lemma onScreen_setPixel attr rgb : preserves onScreen (setPixel attr rgb).
Proof. unfold setPixel. destruct rgb as [[? ?] ?]. repeat screen_step. Qed.

Lemma Signal_parts attr h h' :
  Signal attr h = (h', Ret tt) ->
  exists h1 rgb,
    beforePixel attr h = (h1, Ret tt) /\
    decodeColor attr h1 = (h1, Ret rgb) /\
    setPixel attr rgb h1 = (h', Ret tt).
Proof.
  unfold Signal, beforePixel. unfold bind.
  destruct (checkEdges attr h) as [ha [[]|?|?]]; try done.
  destruct (countVSync attr ha) as [hb [[]|?|?]]; try done.
  destruct (moveBeam attr hb) as [hc [[]|?|?]]; try done.
  destruct (noteVBlank attr hc) as [hd [[]|?|?]]; try done.
  unfold put at 1 2. cbn [fst snd].
  assert (fst (decodeColor attr (set_prevSignal attr hd)) = set_prevSignal attr hd) as Hd.
  { unfold decodeColor, bind, get, ret, panic. by repeat case_match. }
  destruct (decodeColor attr (set_prevSignal attr hd)) as [he [rgb|?|?]] eqn:Hdc;
    try done.
  cbn [fst] in Hd. subst he. intros Hp. by exists (set_prevSignal attr hd), rgb.
Qed.

Lemma onScreen_Signal attr : preserves onScreen (Signal attr).
Proof.
  intros h h' [] Hh Hs. apply Signal_parts in Hs as (h1 & rgb & H1 & _ & H3).
  eapply onScreen_setPixel; [ | exact H3 ].
  eapply onScreen_beforePixel; [ exact Hh | exact H1 ].
Qed.

Lemma onScreen_Reset : preserves onScreen Reset.
Proof.
  intros h h' a (Hw & Hs & Hx & Hy). unfold Reset, bind, put. simp_tv.
  intros [= <-]. unfold onScreen, wired, sane in *.
  destruct Hw as (W1 & W2 & W3). destruct Hs as (S1 & S2 & S3 & S4).
  pose proof (neg_small (ClocksPerHblank (Spec h)) S1) as Hn.
  simp_values. rewrite Hn. repeat split; first [ done | lia ].
Qed.

Lemma onScreen_run ops : preserves onScreen (run ops).
Proof.
  induction ops as [|o ops IH]; simpl.
  - by apply preserves_still.
  - apply preserves_bind; [ | by intros _ ].
    destruct o; [ apply onScreen_Signal | apply onScreen_Reset ].
Qed.

Lemma onScreen_NewHeadlessTV tvType h0 :
  sane SpecNTSC -> sane SpecPAL ->
  NewHeadlessTV tvType = Ret h0 ->
  onScreen h0 /\ (Spec h0 = SpecNTSC \/ Spec h0 = SpecPAL).
Proof.
  intros HN HP H0. destruct (counted_NewHeadlessTV tvType h0 H0) as [[Hw _] _].
  revert H0. unfold NewHeadlessTV.
  set (hp := fresh (∅ : gset loc)).
  set (fr := fresh ({[ hp ]} : gset loc)).
  set (sl := fresh ({[ hp; fr ]} : gset loc)).
  intros H0.
  assert (exists sp, sane sp /\ (sp = SpecNTSC \/ sp = SpecPAL) /\ h0 =
    {| tv := {| outOfSpec := false; HorizPos := hp; FrameNum := fr; Scanline := sl;
                vsyncCount := 0;
                VBlankOff := wrap (ScanlinesPerVBlank sp + ScanlinesPerVSync sp);
                VBlankOn := sub (ScanlinesTotal sp) (ScanlinesPerOverscan sp) |};
       Spec := sp; prevSignal := noSignal;
       values := {[ hp := sub 0 (ClocksPerHblank sp); fr := 0; sl := 0 ]};
       hooks := [] |}) as (sp & Hs & Hsp & ->).
  { repeat case_match; simplify_eq; eauto. }
  split; [ | exact Hsp ].
  unfold onScreen. split; [ exact Hw | ]. split; [ exact Hs | ].
  unfold wired in Hw. simp_tv. destruct Hw as (W1 & W2 & W3).
  destruct Hs as (S1 & S2 & S3 & S4).
  unfold value. simp_tv.
  rewrite lookup_total_insert_eq.
  rewrite lookup_total_insert_ne by congruence.
  rewrite lookup_total_insert_ne by congruence.
  rewrite lookup_total_singleton_eq.
  rewrite (neg_small _ S1). lia.
Qed.

Lemma Spec_always sp : always (fun h => Spec h = sp) (perform (DoReset)) /\
  forall attr, always (fun h => Spec h = sp) (Signal attr).
Proof.
  assert (forall f, (forall h, Spec (f h) = Spec h) ->
            always (fun h => Spec h = sp) (put f)) as Hput.
  { intros f Hf h Hh. unfold put. cbn [fst]. by rewrite Hf. }
  assert (forall c, always (fun h => Spec h = sp) (hook c)) as Hhook.
  { by intros c h Hh. }
  split.
  - unfold perform, Reset.
    repeat first [ apply always_bind; [ | intros ? ] | apply Hput; by intros ? ].
  - intros attr.
    unfold Signal, checkEdges, countVSync, moveBeam, noteVBlank, decodeColor, setPixel.
    repeat first
      [ apply always_bind; [ | intros ? ]
      | apply always_ret | apply always_get | apply always_panic
      | apply Hhook
      | apply Hput; by intros ?
      | lazymatch goal with
        | |- always _ (if ?b then _ else _) => destruct b
        | |- always _ (match ?o with Some _ => _ | None => _ end) => destruct o
        | |- always _ (let '(_, _) := ?p in _) => destruct p as [? ?]
        end ].
Qed.

Lemma Spec_run sp ops : always (fun h => Spec h = sp) (run ops).
Proof.
  induction ops as [|o ops IH]; simpl.
  - apply always_ret.
  - apply always_bind; [ | by intros _ ].
    destruct o; [ apply Spec_always | apply (Spec_always sp) ].
Qed.

(** A television made by NewHeadlessTV from a specification whose figures
    fit the screen, then signalled and reset in any order, every call
    returning nil: the horizontal position lies between [-ClocksPerHblank]
    and [ClocksPerVisible] and the scanline between 0 and [ScanlinesTotal]
    of the specification, which is the one the television was made with. *)
Theorem headless_beam_stays_on_screen tvType h0 ops h :
  sane SpecNTSC -> sane SpecPAL ->
  NewHeadlessTV tvType = Ret h0 ->
  run ops h0 = (h, Ret tt) ->
  let sp := Spec h in
  - ClocksPerHblank sp <= value (HorizPos (tv h)) h <= ClocksPerVisible sp /\
  0 <= value (Scanline (tv h)) h <= ScanlinesTotal sp /\
  sp = Spec h0 /\
  (sp = if String.eqb (ToUpper tvType) "NTSC" then SpecNTSC else SpecPAL).
Proof.
  intros HN HP H0 Hr sp.
  destruct (onScreen_NewHeadlessTV tvType h0 HN HP H0) as [Hs _].
  destruct (onScreen_run ops h0 h tt Hs Hr) as (_ & _ & Hx & Hy).
  pose proof (Spec_run (Spec h0) ops h0 eq_refl) as Hsp.
  rewrite Hr in Hsp. cbn [fst] in Hsp.
  split; [ exact Hx | ]. split; [ exact Hy | ]. split; [ exact Hsp | ].
  subst sp. rewrite Hsp. revert H0. unfold NewHeadlessTV.
  repeat case_match; intros; by simplify_eq.
Qed.

(** *** The pixel hook *)

(** The hooks that a computation calls. *)
Definition tells (P : Hook -> Prop) {X} (c : H X) : Prop :=
  forall base, always (fun h => exists cs, hooks h = base ++ cs /\ Forall P cs) c.

Lemma tells_bind P {X Y} (c : H X) (k : X -> H Y) :
  tells P c -> (forall a, tells P (k a)) -> tells P (bind c k).
Proof. intros Hc Hk base. apply always_bind; [ apply Hc | intros a; apply Hk ]. Qed.

Lemma tells_put P f : (forall h, hooks (f h) = hooks h) -> tells P (put f).
Proof. intros Hf base h Hh. unfold put. cbn [fst]. by rewrite Hf. Qed.

Lemma tells_hook (P : Hook -> Prop) c : P c -> tells P (hook c).
Proof.
  intros Hc base h (cs & Hcs & HP). unfold hook. cbn [fst]. simp_tv.
  exists (cs ++ [c]). split; [ by rewrite Hcs, app_assoc | ].
  apply Forall_app. split; [ done | by constructor ].
Qed.

Lemma tells_beforePixel attr :
  tells (fun c => c = HookNewFrame \/ c = HookNewScanline) (beforePixel attr).
Proof.
  unfold beforePixel, checkEdges, countVSync, moveBeam, noteVBlank.
  repeat first
    [ apply tells_bind; [ | intros ? ]
    | apply tells_hook; auto
    | apply tells_put; by intros ?
    | lazymatch goal with
      | |- tells _ (ret _) => intros ?; apply always_ret
      | |- tells _ (get _) => intros ?; apply always_get
      | |- tells _ (panic _) => intros ?; apply always_panic
      | |- tells _ (if ?b then _ else _) => destruct b
      end ].
Qed.

Lemma int32_small z : - 2 ^ 31 <= z < 2 ^ 31 -> int32 z = z.
Proof. intros Hz. unfold int32. rewrite Z.mod_small; lia. Qed.

(** A television as above and one more Signal that returns nil: the call
    has called the pixel hook once, as the last hook and after at most the
    new-frame and new-scanline hooks, with the vblank of the signal and the
    coordinates the call has left: the horizontal position counted from the
    start of the horizontal blank, in [0, ClocksPerHblank +
    ClocksPerVisible], and the scanline, in [0, ScanlinesTotal]. *)
Theorem each_signal_sets_one_pixel tvType h0 ops h attr h' :
  sane SpecNTSC -> sane SpecPAL ->
  NewHeadlessTV tvType = Ret h0 ->
  run ops h0 = (h, Ret tt) ->
  Signal attr h = (h', Ret tt) ->
  let sp := Spec h' in
  let x := value (HorizPos (tv h')) h' + ClocksPerHblank sp in
  let y := value (Scanline (tv h')) h' in
  0 <= x <= ClocksPerHblank sp + ClocksPerVisible sp /\
  0 <= y <= ScanlinesTotal sp /\
  exists before red green blue,
    hooks h' = hooks h ++ before ++ [HookSetPixel x y red green blue (TIA.VBlank attr)] /\
    Forall (fun c => c = HookNewFrame \/ c = HookNewScanline) before.
Proof.
  intros HN HP H0 Hr Hs sp x y.
  destruct (onScreen_NewHeadlessTV tvType h0 HN HP H0) as [Hi _].
  pose proof (onScreen_run ops h0 h tt Hi Hr) as Hh.
  apply Signal_parts in Hs as (h1 & rgb & H1 & _ & H3).
  pose proof (onScreen_beforePixel attr h h1 tt Hh H1) as (Hw & Hsane & Hx & Hy).
  destruct (tells_beforePixel attr (hooks h) h) as (before & Hb & HP').
  { exists []. split; [ by rewrite app_nil_r | constructor ]. }
  rewrite H1 in Hb. cbn [fst] in Hb.
  revert H3. unfold setPixel, bind, get, hook. simp_tv. destruct rgb as [[red green] blue].
  match goal with |- context [hookFails ?u ?v] => destruct (hookFails u v) end;
    [ done | ].
  intros [= <-]. subst sp x y. unfold value in *. simp_tv.
  destruct Hsane as (S1 & S2 & S3 & S4).
  split; [ lia | ]. split; [ lia | ].
  exists before, red, green, blue. split; [ | exact HP' ].
  rewrite Hb, <- app_assoc. do 3 f_equal.
  rewrite (int32_small (ClocksPerHblank (Spec h1))) by lia.
  match type of Hx with _ <= ?hp <= _ => rewrite (int32_small hp) by lia end.
  match type of Hy with _ <= ?sl <= _ => rewrite (int32_small sl) by lia end.
  by rewrite int32_small by lia.
Qed.

(** *** The vsync pulse *)

Lemma wired_Reset : always wired Reset.
Proof.
  assert (forall f, (forall h, HorizPos (tv (f h)) = HorizPos (tv h) /\
                               FrameNum (tv (f h)) = FrameNum (tv h) /\
                               Scanline (tv (f h)) = Scanline (tv h)) ->
            always wired (put f)) as Hput.
  { intros f Hf h Hh. unfold put, wired in *. cbn [fst].
    destruct (Hf h) as (-> & -> & ->). exact Hh. }
  unfold Reset.
  repeat first [ apply always_bind; [ | intros ? ] | apply Hput; by intros ? ].
Qed.

Lemma counted_wired h : counted h -> wired h.
Proof. by intros [Hw _]. Qed.

Lemma wired_Signal attr : always wired (Signal attr).
Proof.
  assert (forall f, (forall h, HorizPos (tv (f h)) = HorizPos (tv h) /\
                               FrameNum (tv (f h)) = FrameNum (tv h) /\
                               Scanline (tv (f h)) = Scanline (tv h)) ->
            always wired (put f)) as Hput.
  { intros f Hf h Hh. unfold put, wired in *. cbn [fst].
    destruct (Hf h) as (-> & -> & ->). exact Hh. }
  assert (forall c, always wired (hook c)) as Hhook by (by intros c h Hh).
  unfold Signal, checkEdges, countVSync, moveBeam, noteVBlank, decodeColor, setPixel.
  repeat first
    [ apply always_bind; [ | intros ? ]
    | apply always_ret | apply always_get | apply always_panic
    | apply Hhook
    | apply Hput; by intros ?
    | lazymatch goal with
      | |- always _ (if ?b then _ else _) => destruct b
      | |- always _ (match ?o with Some _ => _ | None => _ end) => destruct o
      | |- always _ (let '(_, _) := ?p in _) => destruct p as [? ?]
      end ].
Qed.

Lemma wired_run ops : always wired (run ops).
Proof.
  induction ops as [|o ops IH]; simpl.
  - apply always_ret.
  - apply always_bind; [ | by intros _ ].
    destruct o; [ apply wired_Signal | apply wired_Reset ].
Qed.

Lemma run_app ops1 ops2 h h' :
  run (ops1 ++ ops2) h = (h', Ret tt) ->
  exists h1, run ops1 h = (h1, Ret tt) /\ run ops2 h1 = (h', Ret tt).
Proof.
  revert h. induction ops1 as [|o ops1 IH]; intros h; simpl.
  - intros Hr. by exists h.
  - unfold bind. destruct (perform o h) as [h2 [[]|?|?]]; try done.
    apply IH.
Qed.


(** The frame counter, the vsync count and what they depend on. *)
Definition pinned (fr : loc) (sp : Specification) (vc fn : Z) (h : headless) : Prop :=
  wired h /\ FrameNum (tv h) = fr /\ Spec h = sp /\
  vsyncCount (tv h) = vc /\ value fr h = fn.

Lemma pinned_put fr sp vc fn f :
  (forall h, HorizPos (tv (f h)) = HorizPos (tv h) /\
             FrameNum (tv (f h)) = FrameNum (tv h) /\
             Scanline (tv (f h)) = Scanline (tv h) /\
             vsyncCount (tv (f h)) = vsyncCount (tv h) /\
             Spec (f h) = Spec h) ->
  (forall h, wired h -> value (FrameNum (tv h)) (f h) = value (FrameNum (tv h)) h) ->
  always (pinned fr sp vc fn) (put f).
Proof.
  intros Hf Hv h (Hw & Hfr & Hsp & Hvc & Hfn). unfold put. cbn [fst].
  destruct (Hf h) as (E1 & E2 & E3 & E4 & E5).
  assert (value fr (f h) = fn) as Hfn' by (subst fr; by rewrite Hv).
  unfold pinned, wired in *. rewrite E1, E2, E3, E4, E5.
  destruct Hw as (? & ? & ?). by repeat split.
Qed.

Lemma pinned_hook fr sp vc fn c : always (pinned fr sp vc fn) (hook c).
Proof. by intros h Hh. Qed.

Ltac pinned_step :=
  lazymatch goal with
  | |- always _ (bind _ _) => apply always_bind; [ | intros ? ]
  | |- always _ (ret _) => apply always_ret
  | |- always _ (get _) => apply always_get
  | |- always _ (panic _) => apply always_panic
  | |- always _ (hook _) => apply pinned_hook
  | |- always _ (put _) =>
      apply pinned_put;
      [ intros ?; simp_tv; done
      | intros ? (? & ? & ?); simp_values; done ]
  | |- always _ (if ?b then _ else _) => destruct b
  | |- always _ (match ?o with Some _ => _ | None => _ end) => destruct o
  | |- always _ (let '(_, _) := ?p in _) => destruct p as [? ?]
  end.

(** Signal after the vsync block. *)
Definition afterVSync (attr : SignalAttributes) : H unit :=
  moveBeam attr ;;
  noteVBlank attr ;;
  put (set_prevSignal attr) ;;
  rgb <- decodeColor attr ;;
  setPixel attr rgb.

Lemma pinned_checkEdges fr sp vc fn attr : always (pinned fr sp vc fn) (checkEdges attr).
Proof. unfold checkEdges. repeat pinned_step. Qed.

Lemma pinned_afterVSync fr sp vc fn attr : always (pinned fr sp vc fn) (afterVSync attr).
Proof.
  unfold afterVSync, moveBeam, noteVBlank, decodeColor, setPixel.
  repeat pinned_step.
Qed.

Lemma Signal_phases attr h h' :
  Signal attr h = (h', Ret tt) ->
  exists ha hb,
    checkEdges attr h = (ha, Ret tt) /\
    countVSync attr ha = (hb, Ret tt) /\
    afterVSync attr hb = (h', Ret tt).
Proof.
  unfold Signal, afterVSync. unfold bind at 1 2.
  destruct (checkEdges attr h) as [ha [[]|?|?]] eqn:Ha; try done.
  destruct (countVSync attr ha) as [hb [[]|?|?]] eqn:Hb; try done.
  intros Hr. by exists ha, hb.
Qed.

(** What one Signal that returns nil does to the vsync count and to the
    frame number. *)
Lemma Signal_vsync attr h h' :
  wired h ->
  Signal attr h = (h', Ret tt) ->
  let vc := vsyncCount (tv h) in
  let fn := value (FrameNum (tv h)) h in
  pinned (FrameNum (tv h)) (Spec h)
    (if TIA.VSync attr then incr vc
     else if VsyncClocks (Spec h) <=? vc then 0 else vc)
    (if TIA.VSync attr then fn
     else if VsyncClocks (Spec h) <=? vc then incr fn else fn) h'.
Proof.
  intros Hw Hs vc fn. apply Signal_phases in Hs as (ha & hb & Ha & Hb & Hc).
  pose proof (pinned_checkEdges (FrameNum (tv h)) (Spec h) vc fn attr h) as Pa.
  rewrite Ha in Pa. cbn [fst] in Pa. specialize (Pa ltac:(split; [ exact Hw | by repeat split ])).
  destruct Pa as (Hwa & Hfa & Hsa & Hva & Hna).
  eassert (pinned _ _ _ _ hb) as Pb; [ | 
    pose proof (pinned_afterVSync _ _ _ _ attr hb Pb) as Pc;
    rewrite Hc in Pc; exact Pc ].
  revert Hb. unfold countVSync. destruct (TIA.VSync attr).
  - unfold put. intros [= <-]. unfold pinned, wired in *. simp_tv.
    unfold value in *. simp_tv. by rewrite Hva.
  - unfold bind, get, put, hook. simp_tv. rewrite Hsa, Hva.
    destruct (VsyncClocks (Spec h) <=? vc).
    + match goal with |- context [hookFails ?u ?v] => destruct (hookFails u v) end;
        [ done | ].
      intros [= <-]. unfold pinned, wired in *. destruct Hwa as (W1 & W2 & W3).
      simp_values. rewrite Hfa in *. simp_values.
      repeat split; try done. by rewrite Hna.
    + unfold ret. intros [= <-]. split; [ exact Hwa | by repeat split ].
Qed.

Lemma pulse_counts pulse : forall h h1 k,
  wired h -> vsyncCount (tv h) = k -> 0 <= k ->
  k + Z.of_nat (length pulse) <= max_int ->
  Forall (fun sg => TIA.VSync sg = true) pulse ->
  run (map DoSignal pulse) h = (h1, Ret tt) ->
  pinned (FrameNum (tv h)) (Spec h) (k + Z.of_nat (length pulse))
    (value (FrameNum (tv h)) h) h1.
Proof.
  induction pulse as [|sg pulse IH]; intros h h1 k Hw Hk H0 Hn Hall; simpl.
  - unfold ret. intros [= <-]. rewrite Z.add_0_r.
    split; [ exact Hw | by repeat split ].
  - unfold bind. destruct (Signal sg h) as [h2 [[]|?|?]] eqn:Hs; try done.
    intros Hr. apply Forall_cons in Hall as [Hsg Hall].
    pose proof (Signal_vsync sg h h2 Hw Hs) as P2. cbv zeta in P2.
    rewrite Hsg, Hk in P2. destruct P2 as (Hw2 & Hf2 & Hs2 & Hv2 & Hn2).
    cbn [length] in Hn. rewrite Nat2Z.inj_succ in *.
    rewrite incr_small in Hv2 by (unfold min_int, max_int in *; lia).
    pose proof (IH h2 h1 (k + 1) Hw2 Hv2 ltac:(lia) ltac:(lia) Hall Hr) as P1.
    rewrite Hf2, Hs2, Hn2 in P1.
    replace (k + Z.succ (Z.of_nat (length pulse)))
      with (k + 1 + Z.of_nat (length pulse)) by lia.
    exact P1.
Qed.

(** A television made by NewHeadlessTV, signalled and reset, whose vsync
    count is zero, is sent a pulse of [n] signals with VSYNC on and then a
    signal with VSYNC off, every call returning nil. When [n] reaches the
    [VsyncClocks] of the specification, the signal that ends the pulse
    starts one new frame and clears the count. When it does not, no frame
    starts and the count is kept: a later pulse adds to it. *)
Theorem vsync_pulse_starts_a_frame tvType h0 ops h pulse last h' :
  NewHeadlessTV tvType = Ret h0 ->
  run ops h0 = (h, Ret tt) ->
  vsyncCount (tv h) = 0 ->
  Forall (fun sg => TIA.VSync sg = true) pulse ->
  TIA.VSync last = false ->
  Z.of_nat (length pulse) <= max_int ->
  run (map DoSignal (pulse ++ [last])) h = (h', Ret tt) ->
  let n := Z.of_nat (length pulse) in
  let fn := value (FrameNum (tv h)) h in
  if VsyncClocks (Spec h) <=? n then
    value (FrameNum (tv h')) h' = incr fn /\ vsyncCount (tv h') = 0
  else
    value (FrameNum (tv h')) h' = fn /\ vsyncCount (tv h') = n.
Proof.
  intros H0 Hr Hv Hall Hlast Hn Hrun n fn.
  assert (wired h) as Hw.
  { destruct (counted_NewHeadlessTV tvType h0 H0) as [Hc0 _].
    pose proof (wired_run ops h0 (counted_wired _ Hc0)) as Hc. rewrite Hr in Hc. exact Hc. }
  rewrite map_app in Hrun. apply run_app in Hrun as (h1 & Hp & Hl).
  pose proof (pulse_counts pulse h h1 0 Hw Hv ltac:(lia) ltac:(lia) Hall Hp)
    as (Hw1 & Hf1 & Hs1 & Hv1 & Hn1).
  simpl in Hl. unfold bind in Hl.
  destruct (Signal last h1) as [h2 [[]|?|?]] eqn:Hs; try done.
  unfold ret in Hl. injection Hl as <-.
  pose proof (Signal_vsync last h1 h2 Hw1 Hs) as P2. cbv zeta in P2.
  rewrite Hlast, Hs1, Hv1, Hf1, Hn1, Z.add_0_l in P2.
  destruct P2 as (_ & Hf2 & _ & Hv2 & Hn2). rewrite Hf2. fold n in Hv2, Hn2.
  by destruct (VsyncClocks (Spec h) <=? n).
Qed.

End SignalProperties.

End HeadlessSignal.

(** * The added properties at work

    The television of the example with renderers, frame triggers and mixers
    registered, a television one of whose mixers fails, and a headless
    television with the figures of NTSC and PAL. *)

Module Tour.
Import GoInt Television Reference Example.

#[export] Instance room_ok : RoomOk env.
Proof.
  split.
  - vm_compute. intros H. discriminate H.
  - vm_compute. intros H. discriminate H.
  - intros r s H. exact H.
Qed.

Lemma tvNTSC_new : NewReference "ntsc" = (tvNTSC, Ret tt).
Proof. apply (outcome_eta (NewReference "ntsc")). vm_compute. reflexivity. Qed.

Lemma tvAUTO_new : NewReference "auto" = (tvAUTO, Ret tt).
Proof. apply (outcome_eta (NewReference "auto")). vm_compute. reflexivity. Qed.

Lemma signal_is_recorded_witness :
  let m' := fst (Signal idle tvNTSC) in
  lastSignal (live m') = idle /\
  0 < signalHistoryIdx (live m') <= s_len (signalHistory (live m')) /\
  contents m' (signalHistory (live m')) !! Z.to_nat (signalHistoryIdx (live m') - 1) =
    Some {| x := horizPos (live m'); y := scanline (live m'); sig := idle |}.
Proof.
  cbv zeta.
  assert (running 0 tvNTSC) as Hr.
  { exists "ntsc"%string, tvNTSC, []. split; [ exact tvNTSC_new | ]. split; reflexivity. }
  assert (Z.of_nat 0 < max_int) as Hn by (vm_compute; reflexivity).
  assert (Signal idle tvNTSC = (fst (Signal idle tvNTSC), Ret tt)) as H
    by (apply (outcome_eta (Signal idle tvNTSC)); vm_compute; reflexivity).
  exact (signal_is_recorded 0 idle tvNTSC _ Hr Hn H).
Defined.

(** The television with two renderers. *)
Definition tvRendered : machine := AddPixelRenderer 7 (AddPixelRenderer 3 tvNTSC).

Lemma pixel_reaches_every_renderer_witness :
  let m' := fst (Signal idle tvRendered) in
  exists before,
    calls m' =
      calls tvRendered ++ before ++
      map (fun f => SetPixel f (horizPos (live m')) (scanline (live m'))
                      (getColor (spec (live m')) (Pixel idle)) (VBlank idle))
          (renderers tvRendered) /\
    Forall (fun c => is_SetPixel c = false) before /\
    renderers m' = renderers tvRendered.
Proof.
  cbv zeta.
  assert (Signal idle tvRendered = (fst (Signal idle tvRendered), Ret tt)) as H
    by (apply (outcome_eta (Signal idle tvRendered)); vm_compute; reflexivity).
  exact (pixel_reaches_every_renderer idle tvRendered _ H).
Defined.

(** A snapshot of the new television with an empty history, in the store
    the snapshot leaves. *)
Definition tvBare : machine := upd (set_signalHistory nilSlice) tvNTSC.
Definition tvSnapped : machine := fst (Snapshot tvBare).
Definition snap : loc :=
  match snd (Snapshot tvBare) with
  | Ret (Some p) => p
  | _ => tv_state tvBare
  end.

Lemma restored_snapshot_is_written_witness :
  let m' := fst (run ([idle] ++ [pulse true false])
                   (fst (RestoreSnapshot (Some snap) tvSnapped))) in
  tv_state m' = snap /\ live m' = states m' !!! snap /\
  lastSignal (states m' !!! snap) = pulse true false.
Proof.
  cbv zeta.
  set (m := fst (RestoreSnapshot (Some snap) tvSnapped)).
  assert (run ([idle] ++ [pulse true false]) m =
          (fst (run ([idle] ++ [pulse true false]) m), Ret tt)) as H
    by (apply (outcome_eta (run ([idle] ++ [pulse true false]) m));
        vm_compute; reflexivity).
  exact (restored_snapshot_is_written snap tvSnapped [idle] (pulse true false) _ H).
Defined.

(** The television with a frame trigger. *)
Definition tvTriggered : machine := AddFrameTrigger 5 tvNTSC.

Lemma frame_triggers_hear_every_frame_witness :
  let m' := fst (newFrame true tvTriggered) in
  frameNum (live m') = 1 /\ scanline (live m') = 0 /\
  calls m' = [NewFrame 5 1 false].
Proof.
  cbv zeta.
  assert (newFrame true tvTriggered = (fst (newFrame true tvTriggered), Ret tt)) as H
    by (apply (outcome_eta (newFrame true tvTriggered)); vm_compute; reflexivity).
  destruct (frame_triggers_hear_every_frame true tvTriggered _ H)
    as (Hf & Hl & _ & _ & _).
  split; [ rewrite Hf; vm_compute; reflexivity | ].
  split; [ exact Hl | vm_compute; reflexivity ].
Defined.

(** A television whose mixer 2 fails. *)
Definition faulty : Env := {|
  HorizClksScanline := 228;
  HorizClksHBlank := 68;
  SpecNTSC := ntsc;
  SpecPAL := pal;
  getColor := fun _ c => {| R := c; G := c; B := c |};
  ToUpper := upper;
  Resizer := unit;
  simpleResizer := tt;
  rz_examine := fun r s _ => (r, (top s, bottom s));
  rz_commit := fun r s => (r, (top s, bottom s), false);
  rz_prepare := fun r s => (r, (top s, bottom s));
  fails := fun _ c => match c with SetAudio 2 _ => true | _ => false end;
  spare := fun n => Z.to_nat n;
|}.

Definition tvFaulty : @machine faulty :=
  @AddAudioMixer faulty 3
    (@AddAudioMixer faulty 2
       (@AddAudioMixer faulty 1 (fst (@NewReference faulty "ntsc")))).

Definition beep : SignalAttributes :=
  {| VSync := false; VBlank := false; CBurst := false; HSync := false; Pixel := 0;
     AudioUpdate := true; AudioData := 9 |}.

Lemma failing_mixer_stops_the_signal_witness :
  @Signal faulty beep tvFaulty =
    (@emit faulty [SetAudio 1 9; SetAudio 2 9] tvFaulty,
     Err (CollaboratorError (SetAudio 2 9))).
Proof.
  apply (@failing_mixer_stops_the_signal faulty beep tvFaulty [1%nat] 2%nat [3%nat]).
  - reflexivity.
  - reflexivity.
  - intros [|b0 [|b1 l0]] b r Hl; simpl in Hl; inversion Hl; reflexivity.
  - reflexivity.
Defined.

Lemma faulty_ok : EnvOk faulty.
Proof. split; vm_compute; (done || (split; congruence)). Qed.

Lemma faulty_room : RoomOk faulty.
Proof.
  split.
  - vm_compute. intros H. discriminate H.
  - vm_compute. intros H. discriminate H.
  - intros r s H. exact H.
Qed.

(** The mixers are registered, the television is signalled with and without
    audio, and it is reset: the call that reaches mixer 2 returns its
    error, the others return nil. *)
Definition faultySession : list event :=
  [AudioMixerAdded 1; AudioMixerAdded 2; Signalled idle; Signalled beep;
   ResetCalled; Signalled idle].

Lemma signals_end_well_witness :
  let os := snd (@session faulty faultySession (fst (@NewReference faulty "ntsc"))) in
  os = [Ret tt; Ret tt; Ret tt; Err (CollaboratorError (SetAudio 2 9)); Ret tt; Ret tt] /\
  Forall (fun o => @benign faulty unit o) os.
Proof.
  cbv zeta. split; [ vm_compute; reflexivity | ].
  assert (@NewReference faulty "ntsc" = (fst (@NewReference faulty "ntsc"), Ret tt)) as H0
    by (apply (outcome_eta (@NewReference faulty "ntsc")); vm_compute; reflexivity).
  assert (@ToUpper faulty (@ToUpper faulty "ntsc") = @ToUpper faulty "ntsc") as Hup
    by reflexivity.
  assert (Z.of_nat (length faultySession) <= max_int) as Hn
    by (vm_compute; intros H; discriminate H).
  exact (proj1 (@signals_end_well faulty faulty_ok faulty_room "ntsc" _ faultySession
                  H0 Hup Hn)).
Defined.

Lemma set_spec_installs_the_specification_witness :
  let m' := fst (SetSpec "pal" tvRendered) in
  spec (live m') = SpecPAL /\ auto (live m') = false /\
  calls m' = [Resize 3 pal 48 228; Resize 7 pal 48 228] /\
  signalHistoryIdx (live m') = 0 /\
  contents m' (signalHistory (live m')) = replicate (Z.to_nat 51984) noEntry.
Proof.
  cbv zeta.
  assert (SetSpec "pal" tvRendered = (fst (SetSpec "pal" tvRendered), Ret tt)) as H
    by (apply (outcome_eta (SetSpec "pal" tvRendered)); vm_compute; reflexivity).
  destruct (set_spec_installs_the_specification "pal" tvRendered _ H)
    as (_ & Hs & Ha & _ & _ & Hc & Hi & Hz).
  split; [ exact Hs | ]. split; [ exact Ha | ].
  split; [ rewrite Hc; vm_compute; reflexivity | ].
  split; [ exact Hi | ].
  rewrite Hz. reflexivity.
Defined.

Lemma new_reference_accepts_three_ids_witness :
  (exists m0, NewReference "auto" = (m0, Ret tt) /\
              spec (live m0) = SpecNTSC /\ auto (live m0) = true) /\
  snd (NewReference "secam") = Err (UnsupportedSpec "secam").
Proof.
  split.
  - pose proof (new_reference_accepts_three_ids "auto") as H. cbv zeta in H.
    change (supported (ToUpper "auto")) with true in H. cbv iota in H.
    destruct H as (m0 & H0 & _ & Hs & Ha & _). exists m0.
    split; [ exact H0 | ]. split; [ exact Hs | exact Ha ].
  - exact (new_reference_accepts_three_ids "secam").
Defined.

Lemma reset_returns_to_the_start_witness :
  let m := fst (run frame tvAUTO) in
  let m' := fst (Reset m) in
  spec (live m') = spec (live tvAUTO) /\ auto (live m') = true /\
  frameNum (live m') = 0 /\ syncedFrame (live m') = syncedFrame (live m).
Proof.
  cbv zeta. set (m := fst (run frame tvAUTO)).
  assert (ToUpper (ToUpper "auto") = ToUpper "auto") as Hu by reflexivity.
  assert (run frame tvAUTO = (m, Ret tt)) as Hr
    by (apply (outcome_eta (run frame tvAUTO)); vm_compute; reflexivity).
  assert (Reset m = (fst (Reset m), Ret tt)) as HR
    by (apply (outcome_eta (Reset m)); vm_compute; reflexivity).
  destruct (reset_returns_to_the_start "auto" tvAUTO frame m _ Hu tvAUTO_new Hr HR)
    as (Hs & Ha & _ & Hf & _ & _ & _ & _ & _ & _ & Hy & _).
  split; [ exact Hs | ]. split; [ rewrite Ha; vm_compute; reflexivity | ].
  split; [ exact Hf | exact Hy ].
Defined.

Lemma get_state_reports_the_beam_witness :
  let m := fst (run frame tvNTSC) in
  snd (GetState ReqHorizPos m) = (horizPos (live m) - 68, None) /\
  - 68 <= horizPos (live m) - 68 < 160.
Proof.
  cbv zeta. set (m := fst (run frame tvNTSC)).
  assert (0 <= HorizClksHBlank <= max_int) as Hb
    by (split; vm_compute; intros H; discriminate H).
  assert (initial_or_reset tvNTSC) as H0.
  { left. exists "ntsc"%string. exact tvNTSC_new. }
  assert (run frame tvNTSC = (m, Ret tt)) as Hr
    by (apply (outcome_eta (run frame tvNTSC)); vm_compute; reflexivity).
  destruct (get_state_reports_the_beam tvNTSC frame m ReqHorizPos Hb H0 Hr) as [_ H].
  destruct (snd (GetState ReqHorizPos m)) as [v e].
  change (ReqHorizPos =? ReqFramenum) with false in H.
  change (ReqHorizPos =? ReqScanline) with false in H.
  change (ReqHorizPos =? ReqHorizPos) with true in H. cbv iota in H.
  destruct H as (-> & Hv & ->). split; [ reflexivity | exact Hv ].
Defined.

(** The television with two renderers at the end of its first line. *)
Definition tvLineEnd : machine := fst (run (idles 227) tvRendered).

Lemma scanline_is_announced_witness :
  let m' := fst (Signal idle tvLineEnd) in
  exists audio rest,
    calls m' =
      calls tvLineEnd ++ audio ++
      map (fun f => NewScanline f (incr (scanline (live tvLineEnd))))
          (renderers tvLineEnd) ++ rest /\
    Forall (fun c => is_SetAudio c = true) audio /\
    Forall (fun c => is_NewScanline c = false) rest.
Proof.
  cbv zeta.
  assert (Signal idle tvLineEnd = (fst (Signal idle tvLineEnd), Ret tt)) as H
    by (apply (outcome_eta (Signal idle tvLineEnd)); vm_compute; reflexivity).
  pose proof (scanline_is_announced idle tvLineEnd _ H) as Hx. cbv zeta in Hx.
  assert ((HorizClksScanline <=? incr (horizPos (live tvLineEnd))) &&
          negb (ScanlinesTotal (spec (live tvLineEnd)) <?
                incr (scanline (live tvLineEnd))) = true) as Hc
    by (vm_compute; reflexivity).
  rewrite Hc in Hx. exact Hx.
Defined.

(** ** A headless television *)

Import HeadlessSignal.

Definition palette : list Z := [0; 4473924; 8947848; 16777215].

Definition ntscHeadless : Specification :=
  {| HeadlessSignal.ID := "NTSC"; ClocksPerHblank := 68; ClocksPerVisible := 160;
     VsyncClocks := 3; ScanlinesPerVSync := 3; ScanlinesPerVBlank := 37;
     ScanlinesPerOverscan := 30; HeadlessSignal.ScanlinesTotal := 262;
     Colors := palette |}.

Definition palHeadless : Specification :=
  {| HeadlessSignal.ID := "PAL"; ClocksPerHblank := 68; ClocksPerVisible := 160;
     VsyncClocks := 3; ScanlinesPerVSync := 3; ScanlinesPerVBlank := 45;
     ScanlinesPerOverscan := 36; HeadlessSignal.ScanlinesTotal := 312;
     Colors := palette |}.

#[export] Instance linked : Linked := {|
  HeadlessSignal.ToUpper := upper;
  HeadlessSignal.SpecNTSC := ntscHeadless;
  HeadlessSignal.SpecPAL := palHeadless;
  hookFails := fun _ _ => false;
|}.

Definition tvHeadless : headless :=
  match NewHeadlessTV "ntsc" with
  | HeadlessSignal.Ret h => h
  | _ => {| tv := {| Headless.outOfSpec := false; Headless.HorizPos := 1%positive;
                     Headless.FrameNum := 1%positive; Headless.Scanline := 1%positive;
                     Headless.vsyncCount := 0; Headless.VBlankOff := 0;
                     Headless.VBlankOn := 0 |};
            Spec := ntscHeadless; prevSignal := HeadlessSignal.noSignal;
            values := ∅; hooks := [] |}
  end.

Lemma tvHeadless_new : NewHeadlessTV "ntsc" = HeadlessSignal.Ret tvHeadless.
Proof. vm_compute. reflexivity. Qed.

Lemma sane_ntsc : sane HeadlessSignal.SpecNTSC.
Proof. vm_compute. repeat split; intros H; discriminate H. Qed.

Lemma sane_pal : sane HeadlessSignal.SpecPAL.
Proof. vm_compute. repeat split; intros H; discriminate H. Qed.

(** A signal with VSYNC and the front porch as given and nothing else. *)
Definition sync (v fp : bool) : TIA.SignalAttributes :=
  {| TIA.VSync := v; TIA.VBlank := false; TIA.FrontPorch := fp; TIA.HSync := false;
     TIA.CBurst := false; TIA.Pixel := 1 |}.

Lemma frames_are_counted_by_the_hook_witness :
  let h := fst (HeadlessSignal.run
                  (map DoSignal [sync true false; sync true false; sync true false;
                                 sync false false]) tvHeadless) in
  value (Headless.FrameNum (tv h)) h = Z.of_nat (framesTold (hooks h)).
Proof.
  cbv zeta.
  destruct (frames_are_counted_by_the_hook "ntsc" tvHeadless
              [sync true false; sync true false; sync true false; sync false false]
              tvHeadless_new) as [_ H].
  apply H. vm_compute. intros H0. discriminate H0.
Defined.

Definition visit : list op :=
  [DoSignal (sync false false); DoSignal (sync false true); DoReset;
   DoSignal (sync false false)].

Lemma visit_runs :
  HeadlessSignal.run visit tvHeadless =
    (fst (HeadlessSignal.run visit tvHeadless), HeadlessSignal.Ret tt).
Proof. apply (outcome_eta (HeadlessSignal.run visit tvHeadless)). vm_compute. reflexivity. Qed.

Lemma headless_beam_stays_on_screen_witness :
  let h := fst (HeadlessSignal.run visit tvHeadless) in
  - 68 <= value (Headless.HorizPos (tv h)) h <= 160 /\
  0 <= value (Headless.Scanline (tv h)) h <= 262.
Proof.
  cbv zeta.
  destruct (headless_beam_stays_on_screen "ntsc" tvHeadless visit _
              sane_ntsc sane_pal tvHeadless_new visit_runs) as (Hx & Hy & _ & Hs).
  rewrite Hs in Hx, Hy. split; [ exact Hx | exact Hy ].
Defined.

Lemma each_signal_sets_one_pixel_witness :
  let h := fst (HeadlessSignal.run visit tvHeadless) in
  let h' := fst (HeadlessSignal.Signal (sync false true) h) in
  exists before red green blue,
    hooks h' =
      hooks h ++ before ++
      [HookSetPixel (value (Headless.HorizPos (tv h')) h' + ClocksPerHblank (Spec h'))
         (value (Headless.Scanline (tv h')) h') red green blue false] /\
    Forall (fun c => c = HookNewFrame \/ c = HookNewScanline) before.
Proof.
  cbv zeta. set (h := fst (HeadlessSignal.run visit tvHeadless)).
  assert (HeadlessSignal.Signal (sync false true) h =
          (fst (HeadlessSignal.Signal (sync false true) h), HeadlessSignal.Ret tt)) as H
    by (apply (outcome_eta (HeadlessSignal.Signal (sync false true) h));
        vm_compute; reflexivity).
  destruct (each_signal_sets_one_pixel "ntsc" tvHeadless visit h (sync false true) _
              sane_ntsc sane_pal tvHeadless_new visit_runs H) as (_ & _ & Hp).
  exact Hp.
Defined.

Lemma vsync_pulse_starts_a_frame_witness :
  let pulse := [sync true false; sync true false; sync true false] in
  let h' := fst (HeadlessSignal.run (map DoSignal (pulse ++ [sync false false]))
                   tvHeadless) in
  value (Headless.FrameNum (tv h')) h' = 1 /\ Headless.vsyncCount (tv h') = 0.
Proof.
  cbv zeta.
  set (pulse := [sync true false; sync true false; sync true false]).
  assert (HeadlessSignal.run [] tvHeadless = (tvHeadless, HeadlessSignal.Ret tt)) as Hr
    by reflexivity.
  assert (Forall (fun sg => TIA.VSync sg = true) pulse) as Hall
    by (repeat constructor).
  assert (Z.of_nat (length pulse) <= max_int) as Hn
    by (vm_compute; intros H; discriminate H).
  assert (HeadlessSignal.run (map DoSignal (pulse ++ [sync false false])) tvHeadless =
          (fst (HeadlessSignal.run (map DoSignal (pulse ++ [sync false false]))
                  tvHeadless), HeadlessSignal.Ret tt)) as H
    by (apply (outcome_eta
                 (HeadlessSignal.run (map DoSignal (pulse ++ [sync false false]))
                    tvHeadless)); vm_compute; reflexivity).
  pose proof (vsync_pulse_starts_a_frame "ntsc" tvHeadless [] tvHeadless pulse
                (sync false false) _ tvHeadless_new Hr eq_refl Hall eq_refl Hn H) as Hv.
  cbv zeta in Hv.
  change (VsyncClocks (Spec tvHeadless) <=? Z.of_nat (length pulse)) with true in Hv.
  cbv iota in Hv. destruct Hv as [Hf Hc]. split; [ | exact Hc ].
  rewrite Hf. vm_compute. reflexivity.
Defined.

End Tour.
